(** * Civ7ModManager: the mod management engine of [src/main.py]

    A shallow embedding of the handlers of class [Civ7ModManager]: the
    registry [self.mods], conflict detection, deployment into the game's
    mod directory, the rescan of the storage directory and the profile
    store, followed by the properties of the specification that concern
    them.  The handlers of the context menu and of the tool bar that work
    on the same state (the conflicts dialog, uninstall, sorting by a
    column, the installation of a folder of archives) and further
    properties of the code come after them.

    The handlers are methods that mutate the window object, log, open
    message boxes and catch exceptions; they are embedded in a state and
    exception monad over the record [State].  Widgets that only display
    (progress bar, mod count label, the "Has Conflicts" column painted at
    the end of [_update_conflicts]) carry no data of the engine and are
    left out; the tree widget is kept as far as the handlers read it (the
    folder name stored in each item and its check box). *)

From Stdlib Require Import Ascii String.
From stdpp Require Import base gmap sets list strings sorting pretty.

Open Scope string_scope.

Set Default Proof Using "Type".

(** ** Data model *)

(** A caught exception; the handlers only ever use [str(e)]. *)
Inductive exn := Exception (msg : string).

Definition str (e : exn) : string := match e with Exception msg => msg end.

(** [mod.metadata], the dictionary built by [ModInfo]; the handlers read the
    keys below ([mod_id] is the key ['id']). *)
Record Metadata := mkMetadata {
  display_name : string;
  mod_id : string;
  version : string;
  authors : string;
  affects_saves : bool;
  dependencies : list (string * string);
  affected_files : gset string
}.

(** A [ModInfo] object.  [conflicts] is the dictionary
    other display name -> conflicting file. *)
Record ModInfo := mkModInfo {
  folder_name : string;
  path : string;
  metadata : Metadata;
  enabled : bool;
  conflicts : gmap string string
}.

Definition set_enabled (b : bool) (m : ModInfo) : ModInfo :=
  mkModInfo (folder_name m) (path m) (metadata m) b (conflicts m).

Definition set_conflicts (c : gmap string string) (m : ModInfo) : ModInfo :=
  mkModInfo (folder_name m) (path m) (metadata m) (enabled m) c.

(** ** Python dictionaries that are iterated: insertion-ordered *)

Abbreviation dict V := (list (string * V)).

Section dict.
Context {V : Type}.

Fixpoint dict_get (k : string) (d : dict V) : option V :=
  match d with
  | [] => None
  | (k', v) :: d' => if String.eqb k' k then Some v else dict_get k d'
  end.

(** [d[k] = v]: an existing key keeps its position, a new one goes last. *)
Fixpoint dict_set (k : string) (v : V) (d : dict V) : dict V :=
  match d with
  | [] => [(k, v)]
  | (k', v') :: d' =>
      if String.eqb k' k then (k', v) :: d' else (k', v') :: dict_set k v d'
  end.

(** [k in d] *)
Definition dict_in (k : string) (d : dict V) : bool :=
  match dict_get k d with Some _ => true | None => false end.

Definition keys (d : dict V) : list string := d.*1.
End dict.

(** ** Widgets, directories, files *)

Inductive CheckState := Unchecked | PartiallyChecked | Checked.

(** A top-level item of [self.mod_tree]: its check box (column 0) and the
    value stored under [Qt.ItemDataRole.UserRole] ([None] when unset). *)
Record TreeItem := mkTreeItem {
  checkState : CheckState;
  data : option string
}.

Definition setCheckState (c : CheckState) (item : TreeItem) : TreeItem :=
  mkTreeItem c (data item).

Definition setData (v : string) (item : TreeItem) : TreeItem :=
  mkTreeItem (checkState item) (Some v).

(** A directory as the handlers see it through [exists] and [iterdir]. *)
Inductive Dir (A : Type) :=
  | Missing
  | Unreadable (e : exn)
  | Listing (entries : list A).
Arguments Missing {A}.
Arguments Unreadable {A} e.
Arguments Listing {A} entries.

Definition dir_exists {A} (d : Dir A) : bool :=
  match d with Missing => false | _ => true end.

(** An entry of the storage directory. *)
Record DirEntry := mkDirEntry {
  name : string;
  is_dir : bool
}.

(** An entry of the game's mod directory: something that was there before,
    or the result of [shutil.copytree] from a mod's directory, complete or
    cut short by an error. *)
Inductive Node :=
  | RegularFile
  | Directory
  | DeployedCopy (src : string)
  | PartialCopy (src : string).

Definition node_is_dir (n : Node) : bool :=
  match n with RegularFile => false | _ => true end.

(** The outcome of [shutil.copytree].  It creates the destination directory,
    copies entry by entry while collecting the errors, and raises at the
    end when there were any: a copy that fails after the destination was
    created leaves it behind ([partial = true]); one that fails before (the
    source cannot be listed) leaves nothing. *)
Inductive CopyResult :=
  | Copied
  | CopyFailed (e : exn) (partial : bool).

(** A file of the profiles directory: a JSON object of booleans, as
    [save_profile] writes it, on which [json.load] yields the dictionary
    folder name -> bool, or content on which [json.load] raises. *)
Inductive FileContent :=
  | JsonObject (d : gmap string bool)
  | Malformed (e : exn).

Inductive Level := INFO | WARNING | ERROR.

Inductive Dialog :=
  | Critical (title msg : string)
  | Information (title msg : string)
  | Warning (title msg : string)
  | Question (title msg : string).

(** The answer to [QMessageBox.question]. *)
Inductive Reply := Yes | No.

(** ** The state of the window object and of the directories it owns *)

Record State := mkState {
  mods : dict ModInfo;
  mod_tree : list TreeItem;
  storage_path : Dir DirEntry;
  game_mods_path : Dir (string * Node);
  profiles_path : gmap string FileContent;
  logger : list (Level * string);
  message_boxes : list Dialog
}.

Definition set_mods (f : dict ModInfo → dict ModInfo) (s : State) : State :=
  mkState (f (mods s)) (mod_tree s) (storage_path s) (game_mods_path s)
          (profiles_path s) (logger s) (message_boxes s).

Definition set_mod_tree (f : list TreeItem → list TreeItem) (s : State) : State :=
  mkState (mods s) (f (mod_tree s)) (storage_path s) (game_mods_path s)
          (profiles_path s) (logger s) (message_boxes s).

Definition set_game_mods_path (d : Dir (string * Node)) (s : State) : State :=
  mkState (mods s) (mod_tree s) (storage_path s) d
          (profiles_path s) (logger s) (message_boxes s).

Definition set_profiles_path (p : gmap string FileContent) (s : State) : State :=
  mkState (mods s) (mod_tree s) (storage_path s) (game_mods_path s)
          p (logger s) (message_boxes s).

Definition add_log (l : Level) (msg : string) (s : State) : State :=
  mkState (mods s) (mod_tree s) (storage_path s) (game_mods_path s)
          (profiles_path s) (logger s ++ [(l, msg)]) (message_boxes s).

Definition add_box (b : Dialog) (s : State) : State :=
  mkState (mods s) (mod_tree s) (storage_path s) (game_mods_path s)
          (profiles_path s) (logger s) (message_boxes s ++ [b]).

(** ** The monad of the handlers: state, and exceptions that keep the state *)

Inductive result (A : Type) :=
  | Return (a : A) (s : State)
  | Raise (e : exn) (s : State).
Arguments Return {A} a s.
Arguments Raise {A} e s.

Definition M (A : Type) : Type := State → result A.

Definition final_state {A} (r : result A) : State :=
  match r with Return _ s => s | Raise _ s => s end.

#[global] Instance M_ret : MRet M := λ A a s, Return a s.

#[global] Instance M_bind : MBind M := λ A B f m s,
  match m s with
  | Return a s' => f a s'
  | Raise e s' => Raise e s'
  end.

Definition raise {A} (e : exn) : M A := λ s, Raise e s.

Definition gets {A} (f : State → A) : M A := λ s, Return (f s) s.

Definition modify (f : State → State) : M unit := λ s, Return tt (f s).

(** [try: body except Exception as e: handler e] *)
Definition try_except {A} (body : M A) (handler : exn → M A) : M A := λ s,
  match body s with
  | Return a s' => Return a s'
  | Raise e s' => handler e s'
  end.

(** [for x in l: body x] *)
Fixpoint for_each {A} (l : list A) (body : A → M unit) : M unit :=
  match l with
  | [] => mret tt
  | x :: l' => body x ;; for_each l' body
  end.

Definition logger_info (msg : string) : M unit := modify (add_log INFO msg).
Definition logger_warning (msg : string) : M unit := modify (add_log WARNING msg).
Definition logger_error (msg : string) : M unit := modify (add_log ERROR msg).
Definition message_box (b : Dialog) : M unit := modify (add_box b).

(** [path.iterdir()] *)
Definition iterdir {A} (d : Dir A) : M (list A) :=
  match d with
  | Missing => raise (Exception "No such file or directory")
  | Unreadable e => raise e
  | Listing entries => mret entries
  end.

(** A call of a constructor or library function that returns or raises. *)
Definition call {A} (r : exn + A) : M A :=
  match r with inl e => raise e | inr a => mret a end.

Section engine.

(** ** Conflict detection *)

(** The order in which Python iterates over the set [a & b].  It depends on
    the hash seed and on how both operands were built, so it is a parameter
    about which only [iter_and_perm] is known. *)
Variable iter_and : gset string → gset string → list string.

Hypothesis iter_and_perm : ∀ a b, iter_and a b ≡ₚ elements (a ∩ b).

(** Lines 221-223: every common file overwrites the entry of the other mod's
    display name, so the last one iterated stays. *)
Definition record_common_files (mod_ other_mod : ModInfo)
    (c : gmap string string) : gmap string string :=
  let common_files :=
    iter_and (affected_files (metadata mod_)) (affected_files (metadata other_mod)) in
  foldl (λ c file, <[display_name (metadata other_mod) := file]> c) c common_files.

(** Lines 219-223, the loop over [enabled_mods.items()]. *)
Definition scan_enabled_mods (mod_name : string) (mod_ : ModInfo)
    (enabled_mods : dict ModInfo) : gmap string string :=
  foldl (λ c '(other_name, other_mod),
           if negb (String.eqb other_name mod_name)
           then record_common_files mod_ other_mod c
           else c)
        ∅ enabled_mods.

(** Lines 213-223.  [enabled_mods] holds the same objects as [self.mods];
    the loop writes only [conflicts] and reads only [enabled] and
    [metadata] of them, so the snapshot taken before the loop is what every
    iteration sees.  Lines 226-233 then repaint the "Has Conflicts" column
    of the tree items, which they find by display name; they change nothing
    of the registry.  [findItems(...)[0]] at line 227 raises [IndexError]
    when a mod of the registry has no item, after the registry was written:
    the registry the model leaves is the one the code leaves in either case,
    and what is proved of a handler that has to run to its end after this
    call is stated for states in which every mod of the registry has its
    item ([tree_shows_registry]). *)
Definition update_conflicts (mods : dict ModInfo) : dict ModInfo :=
  let enabled_mods := filter (λ '(_, mod_), enabled mod_ = true) mods in
  (λ '(mod_name, mod_),
     (mod_name,
      if enabled mod_
      then set_conflicts (scan_enabled_mods mod_name mod_ enabled_mods) mod_
      else set_conflicts ∅ mod_)) <$> mods.

Definition _update_conflicts : M unit := modify (set_mods update_conflicts).

(** [_on_mod_toggle], the slot of [itemChanged]. *)
Definition _on_mod_toggle (item : option TreeItem) (column : Z) : M unit :=
  match item with
  | None => mret tt
  | Some item =>
      if negb (column =? 0)%Z then mret tt
      else
        let is_enabled :=
          match checkState item with Checked => true | _ => false end in
        match data item with
        | None => mret tt
        | Some folder_name =>
            if String.eqb folder_name "" then mret tt
            else
              ms ← gets mods;
              match dict_get folder_name ms with
              | None => mret tt
              | Some mod_ =>
                  modify (set_mods (dict_set folder_name (set_enabled is_enabled mod_)));;
                  _update_conflicts
              end
        end
  end.

(** [enable_all_mods] and [disable_all_mods] differ in the check state and
    the flag they write, and in the message they log.  [setCheckState] on
    an item of the tree makes Qt call the slot [_on_mod_toggle] when the
    state changes; the slot writes the same flag into the same record and
    recomputes the conflicts, which these handlers, and [load_profile], do
    themselves before they return, so the state they leave is the same
    without that call and it is not repeated here. *)
Definition set_all_step (c : CheckState) (b : bool) (i : nat) : M unit :=
  item ← gets (λ s, mod_tree s !! i);
  match item with
  | None => mret tt
  | Some item =>
      ms ← gets mods;
      match data item with
      | Some folder_name =>
          match dict_get folder_name ms with
          | Some mod_ =>
              modify (set_mod_tree (<[i := setCheckState c item]>));;
              modify (set_mods (dict_set folder_name (set_enabled b mod_)))
          | None => mret tt
          end
      | None => mret tt
      end
  end.

Definition childCount : M nat := gets (λ s, length (mod_tree s)).

Definition enable_all_mods : M unit :=
  n ← childCount;
  for_each (seq 0 n) (set_all_step Checked true);;
  _update_conflicts;;
  logger_info "All mods enabled".

Definition disable_all_mods : M unit :=
  n ← childCount;
  for_each (seq 0 n) (set_all_step Unchecked false);;
  _update_conflicts;;
  logger_info "All mods disabled".

(** ** Deployment *)

(** [shutil.rmtree] and [Path.unlink] on an entry of the game's mod
    directory: [None] when the entry is gone afterwards, the exception
    otherwise (the entry is then still listed). *)
Variable rmtree : string → option exn.
Variable unlink : string → option exn.

(** [shutil.copytree] from the directory of a mod. *)
Variable copytree_result : string → CopyResult.

(** Lines 266-270, one entry of the listing taken by [iterdir]. *)
Definition remove_item (item : string * Node) : M unit :=
  let '(item_name, node) := item in
  match (if node_is_dir node then rmtree item_name else unlink item_name) with
  | Some e => raise e
  | None =>
      gm ← gets game_mods_path;
      match gm with
      | Listing entries =>
          modify (set_game_mods_path
                    (Listing (filter (λ entry, entry.1 ≠ item_name) entries)))
      | _ => mret tt
      end
  end.

(** [shutil.copytree(src, self.game_mods_path / name)]; an existing
    destination makes it raise before anything is written. *)
Definition copytree (src dst_name : string) : M unit :=
  gm ← gets game_mods_path;
  match gm with
  | Listing entries =>
      if bool_decide (dst_name ∈ entries.*1)
      then raise (Exception ("File exists: " ++ dst_name))
      else
        match copytree_result src with
        | Copied =>
            modify (set_game_mods_path
                      (Listing (entries ++ [(dst_name, DeployedCopy src)])))
        | CopyFailed e partial =>
            (if partial
             then modify (set_game_mods_path
                            (Listing (entries ++ [(dst_name, PartialCopy src)])))
             else mret tt);;
            raise e
        end
  | Missing => raise (Exception "No such file or directory")
  | Unreadable e => raise e
  end.

(** Lines 275-278, one enabled mod. *)
Definition deploy_mod (entry : string * ModInfo) : M unit :=
  let '(mod_name, mod_) := entry in
  logger_info ("Deploying mod: " ++ mod_name);;
  copytree (path mod_) mod_name.

Definition deploy_success_msg (total_mods : nat) : string :=
  "Successfully deployed " ++ pretty total_mods ++ " mod"
  ++ (if bool_decide (total_mods ≠ 1) then "s" else "") ++ " to game directory".

(** [deploy_mods]; [reply] is the user's answer to the confirmation. *)
Definition deploy_mods (reply : Reply) : M unit :=
  try_except
    (gm ← gets game_mods_path;
     if negb (dir_exists gm) then
       let error_msg := "Game mods directory does not exist" in
       logger_error error_msg;;
       message_box (Critical "Error" error_msg)
     else
       message_box (Question "Confirm Deploy"
         "This will clear the game's mod folder and copy all enabled mods. Continue?");;
       match reply with
       | No => mret tt
       | Yes =>
           ms ← gets mods;
           let enabled_mods := filter (λ '(_, mod_), enabled mod_ = true) ms in
           let total_mods := length enabled_mods in
           logger_info ("Starting deployment of " ++ pretty total_mods ++ " mods");;
           logger_info "Clearing game mods directory";;
           gm ← gets game_mods_path;
           (if dir_exists gm
            then items ← iterdir gm; for_each items remove_item
            else mret tt);;
           for_each enabled_mods deploy_mod;;
           let success_msg := deploy_success_msg total_mods in
           logger_info success_msg;;
           message_box (Information "Deploy Complete" success_msg)
       end)
    (λ e,
       let error_msg := "Failed to deploy mods: " ++ str e in
       logger_error error_msg;;
       message_box (Critical "Deploy Error" error_msg)).

(** ** Rescan of the storage directory *)

(** The classes [ModInfo] (modinfo.py) and [ModTreeItem] (ui_components.py)
    are imported by main.py; their constructors are parameters.
    [ModInfo_init d] is [ModInfo(self.storage_path / d)], which reads the
    manifest of the directory named [d] and may raise;
    [ModTreeItem_init mod_info] builds the tree item shown for it. *)
Variable ModInfo_init : string → exn + ModInfo.
Variable ModTreeItem_init : ModInfo → exn + TreeItem.

(** [QTreeWidget.sortItems] on the current sort column and order. *)
Variable sortItems : list TreeItem → list TreeItem.

(** [str.lower].  It lower-cases every cased letter of Unicode, not only
    A-Z, so it is a parameter: the sort of the rescan is modelled for
    every folder name, whatever [str.lower] makes of it. *)
Variable lower : string → string.

Hypothesis sortItems_perm : ∀ items, sortItems items ≡ₚ items.

(** Modelled from the spec: class [ModInfo] is not among the sources; the
    spec's data model gives its [folderName] as the on-disk directory name. *)
Hypothesis ModInfo_folder_name :
  ∀ d mod_info, ModInfo_init d = inr mod_info → folder_name mod_info = d.

(** [mod_dirs.sort(key=lambda x: x.name.lower())]: a stable sort, entries
    with equal keys keep the order of the listing; the keys are compared as
    Python compares strings, code point by code point, which is the order
    of their UTF-8 bytes. *)
Fixpoint insert_sorted (x : DirEntry) (l : list DirEntry) : list DirEntry :=
  match l with
  | [] => [x]
  | y :: l' =>
      if String.ltb (lower (name x)) (lower (name y))
      then x :: y :: l'
      else y :: insert_sorted x l'
  end.

Definition sort_by_lower_name (l : list DirEntry) : list DirEntry :=
  foldl (λ sorted x, insert_sorted x sorted) [] l.

(** Lines 351-362, the body of the loop over [mod_dirs]. *)
Definition load_mod (mod_item : DirEntry) : M unit :=
  try_except
    (mod_info ← call (ModInfo_init (name mod_item));
     modify (set_mods (dict_set (folder_name mod_info) mod_info));;
     tree_item ← call (ModTreeItem_init mod_info);
     let tree_item := setData (folder_name mod_info) tree_item in
     modify (set_mod_tree (λ items, (items ++ [tree_item])%list));;
     logger_info ("Loaded mod: " ++ folder_name mod_info))
    (λ mod_error,
       logger_error ("Error loading mod " ++ name mod_item ++ ": " ++ str mod_error)).

Definition clear_mods : M unit :=
  modify (set_mod_tree (λ _, []));;
  modify (set_mods (λ _, [])).

Definition refresh_mod_list : M unit :=
  logger_info "Refreshing mod list";;
  clear_mods;;
  sp ← gets storage_path;
  if negb (dir_exists sp) then logger_warning "Storage directory not found!"
  else
    try_except
      (entries ← iterdir sp;
       let mod_dirs := filter (λ d, is_dir d = true) entries in
       match mod_dirs with
       | [] => logger_info "No mod directories found";; clear_mods
       | _ =>
           let mod_dirs := sort_by_lower_name mod_dirs in
           for_each mod_dirs load_mod;;
           modify (set_mod_tree sortItems)
       end)
      (λ e, logger_error ("Error reading mods: " ++ str e)).

(** ** Profiles *)

(** [open(profile_path, 'w')]: [None] when the file could be opened. *)
Variable open_w : string → option exn.

Fixpoint has_suffix (suffix s : string) : bool :=
  String.eqb s suffix ||
  match s with
  | EmptyString => false
  | String _ s' => has_suffix suffix s'
  end.

(** [Path.stem] of a file name that ends in [.json]; the name [.json]
    itself has no suffix. *)
Definition stem (file_name : string) : string :=
  if String.eqb file_name ".json" then file_name
  else substring 0 (String.length file_name - 5) file_name.

(** [[p.stem for p in self.profiles_path.glob("*.json")]] *)
Definition list_profiles (files : gmap string FileContent) : list string :=
  stem <$> filter (has_suffix ".json") (elements (dom files)).

(** Lines 548-551 *)
Definition profile_data_of (ms : dict ModInfo) : gmap string bool :=
  foldl (λ d '(folder_name, mod_), <[folder_name := enabled mod_]> d) ∅ ms.

(** [save_profile]; [name, ok] is what [QInputDialog.getText] returns.
    Lines 553-554 join [name] to the path of the profiles directory as it
    is: for a plain file name the file is [name.json] in that directory,
    which is what the model writes; a name with path components leads
    elsewhere, and the properties of the written file are stated for plain
    names ([plain_name]). *)
Definition save_profile (name : string) (ok : bool) : M unit :=
  if negb ok || String.eqb name "" then mret tt
  else
    try_except
      (logger_info ("Saving profile: " ++ name);;
       ms ← gets mods;
       match ms with
       | [] =>
           logger_warning "No mods to save in profile";;
           message_box (Warning "Warning" "No mods available to save in profile.")
       | _ =>
           let profile_data := profile_data_of ms in
           let profile_path := name ++ ".json" in
           match open_w profile_path with
           | Some e => raise e
           | None =>
               files ← gets profiles_path;
               modify (set_profiles_path
                         (<[profile_path := JsonObject profile_data]> files));;
               let success_msg := "Profile '" ++ name ++ "' saved successfully!" in
               logger_info success_msg;;
               message_box (Information "Success" success_msg)
           end
       end)
      (λ e,
         let error_msg := "Failed to save profile: " ++ str e in
         logger_error error_msg;;
         message_box (Critical "Error" error_msg)).

(** [json.load(f)] *)
Definition json_load (content : FileContent) : M (gmap string bool) :=
  match content with
  | JsonObject d => mret d
  | Malformed e => raise e
  end.

(** Lines 602-611, the body of the loop over the items of the tree. *)
Definition load_profile_step (profile_data : gmap string bool) (i : nat) : M unit :=
  item ← gets (λ s, mod_tree s !! i);
  match item with
  | None => mret tt
  | Some item =>
      match data item with
      | Some folder_name =>
          match profile_data !! folder_name with
          | Some should_be_enabled =>
              modify (set_mod_tree
                (<[i := setCheckState
                          (if should_be_enabled then Checked else Unchecked) item]>));;
              ms ← gets mods;
              match dict_get folder_name ms with
              | Some mod_ =>
                  modify (set_mods
                    (dict_set folder_name (set_enabled should_be_enabled mod_)))
              | None => mret tt
              end
          | None => mret tt
          end
      | None => mret tt
      end
  end.

(** [load_profile]; [name, ok] is what [QInputDialog.getItem] returns.  The
    root item of the tree always exists, so the guard of lines 598-599 never
    returns. *)
Definition load_profile (name : string) (ok : bool) : M unit :=
  files ← gets profiles_path;
  let profiles := list_profiles files in
  match profiles with
  | [] =>
      logger_info "No profiles found";;
      message_box (Information "No Profiles" "No saved profiles found.")
  | _ =>
      if negb ok || String.eqb name "" then mret tt
      else
        try_except
          (logger_info ("Loading profile: " ++ name);;
           let profile_path := name ++ ".json" in
           files ← gets profiles_path;
           match files !! profile_path with
           | None =>
               let error_msg := "Profile file not found: " ++ profile_path in
               logger_error error_msg;;
               message_box (Critical "Error" error_msg)
           | Some content =>
               profile_data ← json_load content;
               n ← childCount;
               for_each (seq 0 n) (load_profile_step profile_data);;
               _update_conflicts;;
               let success_msg := "Profile '" ++ name ++ "' loaded successfully!" in
               logger_info success_msg;;
               message_box (Information "Success" success_msg)
           end)
          (λ e,
             let error_msg := "Failed to load profile: " ++ str e in
             logger_error error_msg;;
             message_box (Critical "Error" error_msg))
  end.

(** * Vocabulary of the properties *)

(** ** The registry *)

(** The keys of a Python dictionary are pairwise distinct. *)
Definition is_dict {V} (d : dict V) : Prop := NoDup (keys d).

Definition files_of (m : ModInfo) : gset string := affected_files (metadata m).
Definition display_of (m : ModInfo) : string := display_name (metadata m).

(** The file the loop of lines 222-223 leaves in the entry. *)
Definition representative (mod_ other_mod : ModInfo) : option string :=
  last (iter_and (files_of mod_) (files_of other_mod)).

(** One iteration of the loop of lines 219-223. *)
Definition scan_step (mod_name : string) (mod_ : ModInfo)
    (c : gmap string string) (other : string * ModInfo) : gmap string string :=
  let '(other_name, other_mod) := other in
  if negb (String.eqb other_name mod_name)
  then record_common_files mod_ other_mod c
  else c.

(** [enabled_mods] of lines 213 and 255. *)
Definition enabled_mods_of (ms : dict ModInfo) : dict ModInfo :=
  filter (λ '(_, mod_), enabled mod_ = true) ms.

(** What [_update_conflicts] leaves in one record. *)
Definition updated_mod (ms : dict ModInfo) (mod_name : string) (mod_ : ModInfo) : ModInfo :=
  if enabled mod_
  then set_conflicts (scan_enabled_mods mod_name mod_ (enabled_mods_of ms)) mod_
  else set_conflicts ∅ mod_.

(** [m] never raises. *)
Definition returns {A} (m : M A) : Prop := ∀ s, ∃ a s', m s = Return a s'.

(** The registry of [s'] is the outcome of a run of [_update_conflicts]. *)
Definition recomputed (s' : State) : Prop := ∃ ms, mods s' = update_conflicts ms.

Definition is_checked (item : TreeItem) : bool :=
  match checkState item with Checked => true | _ => false end.

(** No two enabled mods carry the same display name. *)
Definition unique_display_names (ms : dict ModInfo) : Prop :=
  ∀ name1 name2 mod1 mod2,
    dict_get name1 ms = Some mod1 → dict_get name2 ms = Some mod2 →
    enabled mod1 = true → enabled mod2 = true →
    display_of mod1 = display_of mod2 → name1 = name2.

(** The invariant of the recompute. *)
Definition disabled_mods_have_no_conflicts (s : State) : Prop :=
  ∀ mod_name mod_,
    dict_get mod_name (mods s) = Some mod_ → enabled mod_ = false → conflicts mod_ = ∅.

(** ** The rescan *)

(** What one iteration of the loop of [refresh_mod_list] does to the
    registry and to the log. *)
Definition parsed (ms : dict ModInfo) (mod_item : DirEntry) : dict ModInfo :=
  match ModInfo_init (name mod_item) with
  | inr mod_info => dict_set (folder_name mod_info) mod_info ms
  | inl _ => ms
  end.

Definition load_mod_log (mod_item : DirEntry) : Level * string :=
  let failed e := (ERROR, "Error loading mod " ++ name mod_item ++ ": " ++ str e) in
  match ModInfo_init (name mod_item) with
  | inr mod_info =>
      match ModTreeItem_init mod_info with
      | inr _ => (INFO, "Loaded mod: " ++ folder_name mod_info)
      | inl e => failed e
      end
  | inl e => failed e
  end.

Definition load_mods (mod_dirs : list DirEntry) (s : State) : State :=
  foldl (λ s mod_item, final_state (load_mod mod_item s)) s mod_dirs.

(** The directories [refresh_mod_list] loads, in the order it loads them. *)
Definition mod_dirs_of (sp : Dir DirEntry) : list DirEntry :=
  match sp with
  | Listing entries => sort_by_lower_name (filter (λ d, is_dir d = true) entries)
  | _ => []
  end.

(** ** Deployment *)

(** The entry [shutil.copytree] creates for an enabled mod. *)
Definition deployed_entry (entry : string * ModInfo) : string * Node :=
  (entry.1, DeployedCopy (path entry.2)).

(** The outcome of [rmtree] or [unlink] on an entry of the game directory. *)
Definition remove_result (item : string * Node) : option exn :=
  if node_is_dir item.2 then rmtree item.1 else unlink item.1.

(** [deploy_mods] ended with the "Deploy Complete" box: no step raised. *)
Definition deploy_completed (s' : State) : Prop :=
  ∃ msg, last (message_boxes s') = Some (Information "Deploy Complete" msg).

(** Every record of the registry sits under its own folder name, as
    [refresh_mod_list] stores it. *)
Definition keyed_by_folder_name (ms : dict ModInfo) : Prop :=
  ∀ mod_name mod_, (mod_name, mod_) ∈ ms → folder_name mod_ = mod_name.

(** ** Profiles *)

(** What one iteration of the loop of [load_profile] does to the registry,
    given the folder name stored in the item. *)
Definition apply_profile (profile_data : gmap string bool) (ms : dict ModInfo)
    (folder : option string) : dict ModInfo :=
  match folder with
  | Some folder_name =>
      match profile_data !! folder_name, dict_get folder_name ms with
      | Some should_be_enabled, Some mod_ =>
          dict_set folder_name (set_enabled should_be_enabled mod_) ms
      | _, _ => ms
      end
  | None => ms
  end.

(** The folder names stored in the items of the tree. *)
Definition stored_names (s : State) : list (option string) := data <$> mod_tree s.



(** Every mod of the registry has its item in the tree. *)
Definition tree_shows_registry (s : State) : Prop :=
  ∀ folder, folder ∈ keys (mods s) → Some folder ∈ stored_names s.

(** * Example data *)

Definition str_le (x y : string) : Prop := String.leb x y = true.

Definition str_le_dec (x y : string) : Decision (str_le x y) :=
  decide (String.leb x y = true).

(** One possible iteration order of [a & b]: ascending. *)
Definition ascending (a b : gset string) : list string :=
  @merge_sort string str_le str_le_dec (elements (a ∩ b)).

(** [file] is the lexicographically smallest path of [files]. *)
Definition lex_smallest (file : string) (files : gset string) : Prop :=
  file ∈ files ∧ ∀ other, other ∈ files → str_le file other.

Definition example_mod (folder display : string) (files : gset string)
    (on : bool) : ModInfo :=
  mkModInfo folder ("ModStorage/" ++ folder)
            (mkMetadata display "" "" "" false [] files) on ∅.

Definition mod_a : ModInfo := example_mod "mod_a" "Mod A" {["a.xml"; "shared.xml"]} true.
Definition mod_b : ModInfo := example_mod "mod_b" "Mod B" {["shared.xml"]} true.
Definition mod_c : ModInfo := example_mod "mod_c" "Mod C" {["c.xml"]} false.
Definition mod_d : ModInfo := example_mod "mod_d" "Mod D" {["d.xml"]} true.

(** Three folders whose manifests carry the same display name. *)
Definition tweaks_a : ModInfo := example_mod "tweaks_a" "Tweaks" {["a.xml"]} true.
Definition tweaks_b : ModInfo := example_mod "tweaks_b" "Tweaks" {["b.xml"]} true.
Definition tweaks_c : ModInfo := example_mod "tweaks_c" "Tweaks" {["a.xml"; "b.xml"]} true.

(** Two mods with two common files. *)
Definition ui_a : ModInfo := example_mod "ui_a" "UI A" {["a.xml"; "b.xml"]} true.
Definition ui_b : ModInfo := example_mod "ui_b" "UI B" {["a.xml"; "b.xml"; "c.xml"]} true.

Definition registry_of (ms : list ModInfo) : dict ModInfo :=
  (λ m, (folder_name m, m)) <$> ms.

Definition item_of (entry : string * ModInfo) : TreeItem :=
  mkTreeItem (if enabled entry.2 then Checked else Unchecked) (Some entry.1).

(** A window showing the registry [ms], with empty directories. *)
Definition window (ms : list ModInfo) : State :=
  mkState (registry_of ms) (item_of <$> registry_of ms)
          (Listing []) (Listing []) ∅ [] [].

Definition never_fails (_ : string) : option exn := None.

Definition always_copies (_ : string) : CopyResult := Copied.

(** [copytree] cannot read one file of mod_b. *)
Definition fails_on_mod_b (src : string) : CopyResult :=
  if String.eqb src "ModStorage/mod_b"
  then CopyFailed (Exception "Permission denied") true
  else Copied.

(** The manifests of mod_a and mod_b parse, no other does. *)
Definition example_ModInfo_init (d : string) : exn + ModInfo :=
  if String.eqb d "mod_a" then inr mod_a
  else if String.eqb d "mod_b" then inr mod_b
  else inl (Exception "manifest not found").

Definition example_ModTreeItem_init (mod_info : ModInfo) : exn + TreeItem :=
  inr (mkTreeItem (if enabled mod_info then Checked else Unchecked) None).

Definition unsorted (items : list TreeItem) : list TreeItem := items.

Definition ascii_lower (c : ascii) : ascii :=
  let n := nat_of_ascii c in
  if (65 <=? n)%nat && (n <=? 90)%nat then ascii_of_nat (n + 32) else c.

(** [str.lower] on the folder names of the examples, which are ASCII. *)
Fixpoint lower_ascii (s : string) : string :=
  match s with
  | EmptyString => EmptyString
  | String c s' => String (ascii_lower c) (lower_ascii s')
  end.

Definition example_storage : list DirEntry :=
  [mkDirEntry "mod_b" true; mkDirEntry "Broken" true;
   mkDirEntry "readme.txt" false; mkDirEntry "mod_a" true].

Definition with_storage (entries : list DirEntry) (s : State) : State :=
  mkState (mods s) (mod_tree s) (Listing entries) (game_mods_path s)
          (profiles_path s) (logger s) (message_boxes s).

(** The game directory before a deploy. *)
Definition old_game_mods : dict Node :=
  [("old_mod", Directory); ("notes.txt", RegularFile)].

Definition deploy_state : State :=
  set_game_mods_path (Listing old_game_mods) (window [mod_a; mod_b; mod_c; mod_d]).

(** A later registry: mod_a was disabled, mod_b uninstalled, mod_d added;
    the profile "default" saved from [mod_a; mod_b] is on disk. *)
Definition later_state : State :=
  set_profiles_path
    {["default.json" := JsonObject {["mod_a" := true; "mod_b" := true]}]}
    (window [set_enabled false mod_a; set_enabled false mod_d]).

Definition ghost_item : TreeItem := mkTreeItem Checked (Some "ghost").

(** * Further handlers *)

(** ** The conflicts dialog *)

(** A line feed, the ["\n"] of the messages. *)
Definition nl : string := String (ascii_of_nat 10) EmptyString.

(** [sorted(files)] of a set of paths. *)
Definition sorted (files : gset string) : list string :=
  @merge_sort string str_le str_le_dec (elements files).

(** Lines 745-753, one iteration of the loop over [self.mods.items()]. *)
Definition check_conflicts_step (folder_name : string) (mod_ : ModInfo)
    (conflicts : list string) (other : string * ModInfo) : list string :=
  let '(other_folder, other_mod) := other in
  if negb (String.eqb other_folder folder_name) then
    if decide (files_of other_mod = ∅) then conflicts
    else
      let common_files := files_of mod_ ∩ files_of other_mod in
      if decide (common_files = ∅) then conflicts
      else
        (conflicts ++
         [(display_of other_mod ++ ":" ++ nl
           ++ String.concat nl ((λ file, "  - " ++ file) <$> sorted common_files))%string]
        )%list
  else conflicts.

(** [_check_conflicts], the "Check Conflicts" entry of the context menu. *)
Definition _check_conflicts (folder_name : string) : M unit :=
  ms ← gets mods;
  match dict_get folder_name ms with
  | None => logger_warning ("Mod not found: " ++ folder_name)
  | Some mod_ =>
      if decide (files_of mod_ = ∅) then
        message_box (Warning "Mod Conflicts"
          (display_of mod_ ++ " has no affected files listed or metadata is missing"))
      else
        let conflicts := foldl (check_conflicts_step folder_name mod_) [] ms in
        match conflicts with
        | [] =>
            message_box (Information "Mod Conflicts"
              ("No conflicts found for " ++ display_of mod_ ++ " with enabled mods"))
        | _ =>
            message_box (Warning "Mod Conflicts"
              ("Conflicts found for " ++ display_of mod_ ++ " with enabled mods:"
               ++ nl ++ nl ++ String.concat nl conflicts))
        end
  end.

(** ** Uninstall *)

Definition set_storage_path (d : Dir DirEntry) (s : State) : State :=
  mkState (mods s) (mod_tree s) d (game_mods_path s)
          (profiles_path s) (logger s) (message_boxes s).

(** [shutil.rmtree(path)] seen from the storage directory: the exception it
    raised, if any, and the listing of the storage it left. *)
Variable rmtree_storage : string → Dir DirEntry → option exn * Dir DirEntry.

(** [shutil.rmtree(mod.path)], line 785. *)
Definition rmtree_mod_path (mod_ : ModInfo) : M unit :=
  sp ← gets storage_path;
  let '(error, sp') := rmtree_storage (path mod_) sp in
  modify (set_storage_path sp');;
  match error with
  | Some e => raise e
  | None => mret tt
  end.

(** [_uninstall_mod]; [reply] is the user's answer to the confirmation. *)
Definition _uninstall_mod (folder_name : string) (reply : Reply) : M unit :=
  ms ← gets mods;
  match dict_get folder_name ms with
  | None => mret tt
  | Some mod_ =>
      message_box (Question "Confirm Uninstall"
        ("Are you sure you want to uninstall '" ++ display_of mod_ ++ "'?"));;
      match reply with
      | No => mret tt
      | Yes =>
          try_except
            (logger_info ("Uninstalling mod: " ++ folder_name);;
             rmtree_mod_path mod_;;
             let success_msg :=
               "Mod '" ++ display_of mod_ ++ "' uninstalled successfully!" in
             logger_info success_msg;;
             message_box (Information "Success" success_msg);;
             refresh_mod_list)
            (λ e,
               let error_msg := "Failed to uninstall mod: " ++ str e in
               logger_error error_msg;;
               message_box (Critical "Error" error_msg))
      end
  end.

(** ** Sorting by a column *)

Inductive SortOrder := AscendingOrder | DescendingOrder.

(** [self._current_sort_column] and [self._current_sort_order]. *)
Record SortState := mkSortState {
  _current_sort_column : Z;
  _current_sort_order : SortOrder
}.

(** [QTreeWidget.sortItems(column, order)]. *)
Variable sortItems_by : Z → SortOrder → list TreeItem → list TreeItem.

(** [_handle_sort], the slot of a click on a column header.  The tree
    widget always exists, so the guard of lines 169-171 never returns. *)
Definition _handle_sort (column : Z) (sort : SortState) : M SortState :=
  if (column <? 0)%Z then
    logger_warning ("Cannot sort: invalid column index " ++ pretty column);;
    mret sort
  else
    let sort' :=
      if (_current_sort_column sort =? column)%Z then
        mkSortState (_current_sort_column sort)
          match _current_sort_order sort with
          | AscendingOrder => DescendingOrder
          | DescendingOrder => AscendingOrder
          end
      else mkSortState column AscendingOrder in
    modify (set_mod_tree (sortItems_by column (_current_sort_order sort')));;
    mret sort'.

(** ** Installing the archives of a folder *)

(** [Path.exists], [Path.is_dir] and [Path.name] on the paths the dialog
    and [glob] give; [folder_path.glob(f'*{ext}')], which lists the folder
    and may raise; [sorted] on a list of paths, a permutation of it. *)
Variable path_exists : string → bool.
Variable path_is_dir : string → bool.
Variable path_name : string → string.
Variable glob : string → string → exn + list string.
Variable sorted_paths : list string → list string.

(** The class [ArchiveHandler] (archive_handler.py) is imported by main.py;
    its static methods are parameters.  [get_archive_type] returns a type
    or [None]; [extract_mod_folder file_path sp] returns the name of the
    folder it extracted, [None] or an empty name, or raises, and leaves the
    storage directory [sp] as the second component says, also when it
    raises. *)
Variable get_archive_type : string → exn + option string.
Variable is_format_supported : option string → exn + bool.
Variable extract_mod_folder :
  string → Dir DirEntry → (exn + option string) * Dir DirEntry.

(** The text of the path [self.storage_path / mod_name]. *)
Variable storage_child : string → string.

(** [successful_installs] and [failed_installs]. *)
Record InstallCount := mkInstallCount {
  successful_installs : nat;
  failed_installs : list (string * string)
}.

(** The truth value of [mod_name]: [None] and the empty name are false. *)
Definition truthy (mod_name : option string) : bool :=
  match mod_name with
  | Some n => negb (String.eqb n "")
  | None => false
  end.

(** [f"{archive_type}"] *)
Definition format_type (archive_type : option string) : string :=
  default "None" archive_type.

(** A [try] block seen from outside: the exception it raised, or its
    value. *)
Definition attempt {A} (m : M A) : M (exn + A) := λ s,
  match m s with
  | Return a s' => Return (inr a) s'
  | Raise e s' => Return (inl e) s'
  end.

(** Lines 489-496: the [try] block up to the assignment of [mod_name]. *)
Definition extract_archive (file_path : string) : M (option string) :=
  logger_info ("Installing mod from: " ++ file_path);;
  archive_type ← call (get_archive_type file_path);
  supported ← call (is_format_supported archive_type);
  if negb supported then
    raise (Exception ("Archive format '" ++ format_type archive_type
                      ++ "' is not supported for " ++ path_name file_path))
  else
    sp ← gets storage_path;
    let '(extracted, sp') := extract_mod_folder file_path sp in
    modify (set_storage_path sp');;
    call extracted.

(** Lines 497-501: the rest of the [try] block, [mod_name] assigned. *)
Definition count_install (file_path : string) (mod_name : option string)
    (count : InstallCount) : M InstallCount :=
  if negb (truthy mod_name) then
    raise (Exception ("Could not determine mod folder name for "
                      ++ path_name file_path))
  else
    logger_info ("Successfully installed: " ++ default "" mod_name);;
    mret (mkInstallCount (S (successful_installs count)) (failed_installs count)).

Definition child_exists (child : string) (d : Dir DirEntry) : bool :=
  match d with
  | Listing entries => bool_decide (child ∈ name <$> entries)
  | _ => false
  end.

(** Lines 503-508, the [except] block; [mod_name] is what the [try] block
    had assigned when it raised. *)
Definition install_failed (file_path : string) (mod_name : option string)
    (e : exn) (count : InstallCount) : M InstallCount :=
  logger_error ("Failed to install " ++ path_name file_path ++ ": " ++ str e);;
  let count :=
    mkInstallCount (successful_installs count)
                   (failed_installs count ++ [(path_name file_path, str e)]) in
  sp ← gets storage_path;
  (if truthy mod_name && child_exists (default "" mod_name) sp then
     let '(error, sp') := rmtree_storage (storage_child (default "" mod_name)) sp in
     modify (set_storage_path sp');;
     match error with
     | Some e => raise e
     | None => mret tt
     end
   else mret tt);;
  mret count.

(** Lines 487-508, one archive. *)
Definition install_one (file_path : string) (count : InstallCount) : M InstallCount :=
  extracted ← attempt (extract_archive file_path);
  match extracted with
  | inl e => install_failed file_path None e count
  | inr mod_name =>
      counted ← attempt (count_install file_path mod_name count);
      match counted with
      | inl e => install_failed file_path mod_name e count
      | inr count => mret count
      end
  end.

(** Lines 486-510, the loop over [sorted(mod_files)]. *)
Fixpoint install_all (mod_files : list string) (count : InstallCount) :
    M InstallCount :=
  match mod_files with
  | [] => mret count
  | file_path :: mod_files =>
      count ← install_one file_path count;
      install_all mod_files count
  end.

(** Lines 471-473 *)
Definition glob_archives (folder_path : string) : M (list string) :=
  zip ← call (glob folder_path ".zip");
  sevenz ← call (glob folder_path ".7z");
  rar ← call (glob folder_path ".rar");
  r00 ← call (glob folder_path ".r00");
  mret (zip ++ sevenz ++ rar ++ r00)%list.

(** Lines 513-517 *)
Definition result_message (count : InstallCount) : string :=
  "Successfully installed " ++ pretty (successful_installs count) ++ " mod"
  ++ (if bool_decide (successful_installs count ≠ 1%nat) then "s" else "")
  ++ match failed_installs count with
     | [] => ""
     | failed =>
         nl ++ nl ++ "Failed installations:"
         ++ String.concat ""
              ((λ '(mod_name, error), nl ++ "- " ++ mod_name ++ ": " ++ error) <$> failed)
     end.

(** [install_mod_folder]; [folder_path] is what
    [QFileDialog.getExistingDirectory] returns. *)
Definition install_mod_folder (folder_path : string) : M unit :=
  if String.eqb folder_path "" then mret tt
  else
    try_except
      (if negb (path_exists folder_path) then
         let error_msg := "Selected folder does not exist: " ++ folder_path in
         logger_error error_msg;;
         message_box (Critical "Error" error_msg)
       else if negb (path_is_dir folder_path) then
         let error_msg := "Selected path is not a directory: " ++ folder_path in
         logger_error error_msg;;
         message_box (Critical "Error" error_msg)
       else
         logger_info ("Installing mods from folder: " ++ folder_path);;
         mod_files ← glob_archives folder_path;
         match mod_files with
         | [] =>
             message_box (Information "No Mods Found"
                            "No mod archives found in the selected folder.")
         | _ =>
             count ← install_all (sorted_paths mod_files) (mkInstallCount 0 []);
             (if (0 <? successful_installs count)%nat then refresh_mod_list
              else mret tt);;
             message_box (Information "Installation Complete" (result_message count))
         end)
      (λ e,
         let error_msg := "Failed to process mod folder: " ++ str e in
         logger_error error_msg;;
         message_box (Critical "Error" error_msg)).

(** ** Vocabulary of the further properties *)

(** The registry without what [_update_conflicts] writes. *)
Definition forget_conflicts (ms : dict ModInfo) : dict ModInfo :=
  (λ '(mod_name, mod_), (mod_name, set_conflicts ∅ mod_)) <$> ms.

(** What one iteration of the loops of [enable_all_mods] and
    [disable_all_mods] does to the registry, given the folder name stored in
    the item. *)
Definition apply_flag (b : bool) (ms : dict ModInfo) (folder : option string) :
    dict ModInfo :=
  match folder with
  | Some folder_name =>
      match dict_get folder_name ms with
      | Some mod_ => dict_set folder_name (set_enabled b mod_) ms
      | None => ms
      end
  | None => ms
  end.

(** [other], an entry of the registry, is in another folder than
    [folder_name] and affects a file that [mod_] affects. *)
Definition shares_file (folder_name : string) (mod_ : ModInfo)
    (other : string * ModInfo) : Prop :=
  other.1 ≠ folder_name ∧ files_of mod_ ∩ files_of other.2 ≠ ∅.

(** The registry as [_check_conflicts] reads it: folder names and metadata. *)
Definition metadata_of (ms : dict ModInfo) : list (string * Metadata) :=
  (λ '(mod_name, mod_), (mod_name, metadata mod_)) <$> ms.

(** The two dialogs of [_check_conflicts] for a mod with affected files. *)
Definition no_conflicts_box (mod_ : ModInfo) : Dialog :=
  Information "Mod Conflicts"
    ("No conflicts found for " ++ display_of mod_ ++ " with enabled mods").
Definition conflicts_box (mod_ : ModInfo) (text : string) : Dialog :=
  Warning "Mod Conflicts"
    ("Conflicts found for " ++ display_of mod_ ++ " with enabled mods:"
     ++ nl ++ nl ++ text).

(** [s'] has the registry, the tree, the storage and the profiles of [s]. *)
Definition keeps_library (s s' : State) : Prop :=
  mods s' = mods s ∧ mod_tree s' = mod_tree s ∧
  storage_path s' = storage_path s ∧ profiles_path s' = profiles_path s.

(** The order of [mod_dirs.sort(key=lambda x: x.name.lower())] on folder
    names: the lower-cased [a] is not after the lower-cased [b]. *)
Definition lower_le (a b : string) : Prop := String.ltb (lower b) (lower a) = false.

(** The item one iteration of the loop of [refresh_mod_list] adds to the
    tree, if any. *)
Definition shown (mod_item : DirEntry) : option TreeItem :=
  match ModInfo_init (name mod_item) with
  | inr mod_info =>
      match ModTreeItem_init mod_info with
      | inr tree_item => Some (setData (folder_name mod_info) tree_item)
      | inl _ => None
      end
  | inl _ => None
  end.

(** The items at the indices [handled] show the check state [c], and their
    mods, when the registry has them, carry the flag [b]. *)
Definition boxes_set (c : CheckState) (b : bool) (handled : list nat) (s : State) : Prop :=
  ∀ i item folder,
    i ∈ handled → mod_tree s !! i = Some item → data item = Some folder →
    folder ∈ keys (mods s) →
    checkState item = c ∧
    ∃ mod_, dict_get folder (mods s) = Some mod_ ∧ enabled mod_ = b.

(** [s'] differs from [s] in the storage directory and the log only. *)
Definition installs_only (s s' : State) : Prop :=
  mods s' = mods s ∧ mod_tree s' = mod_tree s ∧
  game_mods_path s' = game_mods_path s ∧ profiles_path s' = profiles_path s ∧
  message_boxes s' = message_boxes s.

(** The items at the indices [handled] whose folder name is in the profile
    show the flag of the profile, and so do their mods, when the registry
    has them. *)
Definition profile_shown (profile_data : gmap string bool) (handled : list nat)
    (s : State) : Prop :=
  ∀ (i : nat) (item : TreeItem) (folder : string) (b : bool),
    i ∈ handled → mod_tree s !! i = Some item → data item = Some folder →
    profile_data !! folder = Some b →
    checkState item = (if b then Checked else Unchecked) ∧
    ∀ mod_, dict_get folder (mods s) = Some mod_ → enabled mod_ = b.

(** ** Example data of the further properties *)

(** mod_a with an entry left by an earlier recompute. *)
Definition stale_a : ModInfo := set_conflicts {["Old Mod" := "old.xml"]} mod_a.

(** [unlink] is refused for notes.txt. *)
Definition unlink_denied (file : string) : option exn :=
  if String.eqb file "notes.txt" then Some (Exception "Permission denied") else None.

(** The game directory with a third entry after notes.txt. *)
Definition crowded_state : State :=
  set_game_mods_path (Listing (old_game_mods ++ [("third_mod", Directory)])%list)
                     deploy_state.

(** [ModTreeItem] raises for mod_b. *)
Definition no_item_for_mod_b (mod_info : ModInfo) : exn + TreeItem :=
  if String.eqb (folder_name mod_info) "mod_b" then inl (Exception "no item")
  else example_ModTreeItem_init mod_info.

(** [rmtree] removes the directory of the storage that has the given path. *)
Definition removes_directory (path : string) (sp : Dir DirEntry) :
    option exn * Dir DirEntry :=
  (None,
   match sp with
   | Listing entries => Listing (filter (λ d, "ModStorage/" ++ name d ≠ path) entries)
   | _ => sp
   end).

(** [rmtree] is refused and removes nothing. *)
Definition removal_denied (path : string) (sp : Dir DirEntry) :
    option exn * Dir DirEntry :=
  (Some (Exception "Permission denied"), sp).

(** A tree widget that keeps the order for ascending and reverses it for
    descending. *)
Definition example_sortItems_by (column : Z) (order : SortOrder)
    (items : list TreeItem) : list TreeItem :=
  match order with
  | AscendingOrder => items
  | DescendingOrder => reverse items
  end.

(** A folder with two archives: a.zip holds mod_a; b.zip is damaged, its
    extraction raises after it created the folder mod_b. *)
Definition example_glob (folder_path ext : string) : exn + list string :=
  if String.eqb ext ".zip" then inr ["mods/b.zip"; "mods/a.zip"] else inr [].

Definition example_path_name (file_path : string) : string :=
  substring 5 (String.length file_path - 5) file_path.

Definition example_extract (file_path : string) (sp : Dir DirEntry) :
    (exn + option string) * Dir DirEntry :=
  let add d :=
    match sp with
    | Listing entries => Listing (entries ++ [mkDirEntry d true])
    | _ => sp
    end in
  if String.eqb file_path "mods/a.zip" then (inr (Some "mod_a"), add "mod_a")
  else (inl (Exception "Bad archive"), add "mod_b").

(** * Properties *)

(** ** Ordered dictionaries *)

Lemma dict_get_Some_elem {V} k (v : V) d : dict_get k d = Some v → (k, v) ∈ d.
Proof.
  induction d as [|[k' v'] d IH]; simpl; [done|].
  destruct (String.eqb_spec k' k) as [->|Hne].
  - intros [= ->]. left.
  - intros H. right. by apply IH.
Qed.

Lemma dict_get_None {V} k (d : dict V) : dict_get k d = None ↔ k ∉ keys d.
Proof.
  unfold keys. induction d as [|[k' v'] d IH]; simpl.
  - split; [intros _; apply not_elem_of_nil|done].
  - rewrite not_elem_of_cons. destruct (String.eqb_spec k' k) as [->|Hne].
    + split; [done|]. by intros [? _].
    + rewrite IH. split; [by intros ?|by intros [_ ?]].
Qed.

Lemma elem_dict_get {V} k (v : V) d : is_dict d → (k, v) ∈ d → dict_get k d = Some v.
Proof.
  unfold is_dict, keys. induction d as [|[k' v'] d IH]; simpl.
  - intros _ H. by apply elem_of_nil in H.
  - rewrite NoDup_cons. intros [Hk' Hnd] [[= -> ->]|Hin]%elem_of_cons.
    + by rewrite String.eqb_refl.
    + destruct (String.eqb_spec k' k) as [->|Hne]; [|by apply IH].
      exfalso. apply Hk'. apply list_elem_of_fmap. by exists (k, v).
Qed.

Lemma dict_get_set {V} k k' (v : V) d :
  dict_get k' (dict_set k v d) = if decide (k' = k) then Some v else dict_get k' d.
Proof.
  induction d as [|[k0 v0] d IH]; simpl.
  - destruct (String.eqb_spec k k') as [->|Hne]; case_decide; congruence.
  - destruct (String.eqb_spec k0 k) as [->|Hne]; simpl.
    + destruct (String.eqb_spec k k') as [->|Hne']; case_decide; congruence.
    + destruct (String.eqb_spec k0 k') as [->|Hne']; [|done].
      case_decide; congruence.
Qed.

Lemma keys_dict_set_present {V} k (v v0 : V) d :
  dict_get k d = Some v0 → keys (dict_set k v d) = keys d.
Proof.
  unfold keys. induction d as [|[k' v'] d IH]; simpl; [done|].
  destruct (String.eqb_spec k' k) as [->|Hne]; simpl; [done|].
  intros H. f_equal. by apply IH.
Qed.

Lemma elem_keys_dict_set {V} k k' (v : V) d :
  k' ∈ keys (dict_set k v d) ↔ k' = k ∨ k' ∈ keys d.
Proof.
  unfold keys. induction d as [|[k0 v0] d IH]; simpl.
  - by rewrite elem_of_cons.
  - destruct (String.eqb_spec k0 k) as [->|Hne]; simpl.
    + rewrite !elem_of_cons. split; [intros [?|?]|intros [?|[?|?]]]; auto.
    + rewrite !elem_of_cons, IH.
      split; [intros [?|[?|?]]|intros [?|[?|?]]]; auto.
Qed.

(** Updating the values in place, as a loop over [d.items()] that mutates
    the objects does. *)
Lemma dict_get_fmap {V W} (f : string → V → W) k d :
  dict_get k ((λ '(k, v), (k, f k v)) <$> d) = f k <$> dict_get k d.
Proof.
  induction d as [|[k' v'] d IH]; simpl; [done|].
  by destruct (String.eqb_spec k' k) as [->|Hne].
Qed.

Lemma keys_fmap {V W} (f : string → V → W) d :
  keys ((λ '(k, v), (k, f k v)) <$> d) = keys d.
Proof.
  unfold keys. induction d as [|[k' v'] d IH]; simpl; [done|]. f_equal. apply IH.
Qed.

(** ** The conflict maps computed by [_update_conflicts] *)

Lemma overwrite_lookup (d k : string) files (c : gmap string string) :
  foldl (λ c file, <[d := file]> c) c files !! k
  = if decide (k = d) then from_option Some (c !! k) (last files) else c !! k.
Proof.
  revert c. induction files as [|file files IH]; intros c; simpl.
  - by case_decide.
  - rewrite IH. case_decide as Hk.
    + subst k. rewrite lookup_insert_eq.
      destruct files as [|file' files]; [done|]. rewrite last_cons_cons.
      destruct (last (file' :: files)) eqn:Hlast; [done|].
      by apply last_None in Hlast.
    + by rewrite lookup_insert_ne.
Qed.

Lemma record_common_files_lookup mod_ other_mod c k :
  record_common_files mod_ other_mod c !! k
  = if decide (k = display_of other_mod)
    then from_option Some (c !! k) (representative mod_ other_mod)
    else c !! k.
Proof. unfold record_common_files. apply overwrite_lookup. Qed.

Lemma representative_Some mod_ other_mod :
  files_of mod_ ∩ files_of other_mod ≠ ∅ →
  ∃ file, representative mod_ other_mod = Some file.
Proof using iter_and_perm.
  intros Hne. unfold representative.
  destruct (iter_and (files_of mod_) (files_of other_mod)) as [|x l] eqn:Hl.
  - exfalso. apply Hne. apply leibniz_equiv, elements_empty_inv.
    apply Permutation_nil_r. by rewrite <- iter_and_perm, Hl.
  - destruct (last (x :: l)) as [file|] eqn:Hlast; [by exists file|].
    by apply last_None in Hlast.
Qed.

Lemma representative_elem mod_ other_mod file :
  representative mod_ other_mod = Some file →
  file ∈ files_of mod_ ∩ files_of other_mod.
Proof using iter_and_perm.
  unfold representative. intros Hlast.
  apply elem_of_elements. rewrite <- iter_and_perm.
  apply last_Some in Hlast as [l' ->]. apply elem_of_app. right. left.
Qed.

Lemma scan_enabled_mods_foldl mod_name mod_ enabled_mods :
  scan_enabled_mods mod_name mod_ enabled_mods
  = foldl (scan_step mod_name mod_) ∅ enabled_mods.
Proof. done. Qed.

Lemma scan_step_lookup mod_name mod_ c other_name other_mod k :
  scan_step mod_name mod_ c (other_name, other_mod) !! k
  = if decide (other_name ≠ mod_name ∧ k = display_of other_mod)
    then from_option Some (c !! k) (representative mod_ other_mod)
    else c !! k.
Proof.
  unfold scan_step.
  destruct (String.eqb_spec other_name mod_name) as [->|Hne]; simpl.
  - case_decide as Hd; [by destruct Hd|done].
  - rewrite record_common_files_lookup.
    destruct (decide (k = display_of other_mod)) as [->|Hk].
    + by rewrite decide_True.
    + rewrite decide_False; [done|]. by intros [_ ?].
Qed.

Lemma scan_keeps_entries mod_name mod_ others c k :
  is_Some (c !! k) → is_Some (foldl (scan_step mod_name mod_) c others !! k).
Proof.
  revert c. induction others as [|[other_name other_mod] others IH];
    intros c Hc; cbn [foldl]; [done|].
  apply IH. rewrite scan_step_lookup. case_decide; [|done].
  destruct (representative mod_ other_mod); [by eexists|done].
Qed.

Lemma scan_records_overlap mod_name mod_ others c other_name other_mod :
  (other_name, other_mod) ∈ others →
  other_name ≠ mod_name →
  files_of mod_ ∩ files_of other_mod ≠ ∅ →
  is_Some (foldl (scan_step mod_name mod_) c others !! display_of other_mod).
Proof using iter_and_perm.
  intros Hin Hne Hcommon. revert c.
  induction others as [|other others IH]; intros c; [by apply elem_of_nil in Hin|].
  cbn [foldl]. apply elem_of_cons in Hin as [<-|Hin]; [|by apply IH].
  apply scan_keeps_entries. rewrite scan_step_lookup.
  rewrite decide_True by done.
  destruct (representative_Some mod_ other_mod Hcommon) as [file ->]. by eexists.
Qed.

Lemma scan_entry_origin mod_name mod_ others c k file :
  foldl (scan_step mod_name mod_) c others !! k = Some file →
  c !! k = Some file ∨
  ∃ other_name other_mod,
    (other_name, other_mod) ∈ others ∧ other_name ≠ mod_name ∧
    display_of other_mod = k ∧ representative mod_ other_mod = Some file.
Proof.
  revert c. induction others as [|[other_name other_mod] others IH];
    intros c; cbn [foldl]; [by left|].
  intros [Hc|(on & om & Hin & ? & ? & ?)]%IH.
  - rewrite scan_step_lookup in Hc. case_decide as Hd; [|by left].
    destruct Hd as [? ->].
    destruct (representative mod_ other_mod) as [file'|] eqn:Hrep; [|by left].
    simpl in Hc. injection Hc as ->. right.
    exists other_name, other_mod. split_and!; [left|done..].
  - right. exists on, om. split_and!; [by right|done..].
Qed.

Lemma update_conflicts_get ms mod_name :
  dict_get mod_name (update_conflicts ms) = updated_mod ms mod_name <$> dict_get mod_name ms.
Proof. unfold update_conflicts. apply (dict_get_fmap (updated_mod ms)). Qed.

Lemma update_conflicts_keys ms : keys (update_conflicts ms) = keys ms.
Proof. unfold update_conflicts. apply (keys_fmap (updated_mod ms)). Qed.

Lemma updated_mod_enabled ms mod_name mod_ :
  enabled (updated_mod ms mod_name mod_) = enabled mod_.
Proof. unfold updated_mod. by destruct (enabled mod_) eqn:He. Qed.

Lemma updated_mod_metadata ms mod_name mod_ :
  metadata (updated_mod ms mod_name mod_) = metadata mod_.
Proof. unfold updated_mod. by destruct (enabled mod_). Qed.

Lemma elem_enabled_mods_of ms mod_name mod_ :
  (mod_name, mod_) ∈ enabled_mods_of ms ↔ (mod_name, mod_) ∈ ms ∧ enabled mod_ = true.
Proof. unfold enabled_mods_of. rewrite list_elem_of_filter. by split; intros [? ?]. Qed.

(** ** Running the monad *)

Lemma bind_Return {A B} (m : M A) (f : A → M B) s a s' :
  m s = Return a s' → (m ≫= f) s = f a s'.
Proof. unfold mbind, M_bind. by intros ->. Qed.

(** A loop whose body never raises runs the body on every element. *)
Lemma for_each_returns {A} (body : A → M unit) l s :
  (∀ x, returns (body x)) →
  for_each l body s = Return tt (foldl (λ s x, final_state (body x s)) s l).
Proof.
  intros Hbody. revert s. induction l as [|x l IH]; intros s; simpl; [done|].
  destruct (Hbody x s) as ([] & s' & Hs'). rewrite (bind_Return _ _ _ _ _ Hs').
  by rewrite IH, Hs'.
Qed.

Ltac run := unfold mbind, M_bind, mret, M_ret, gets, modify, raise, try_except,
  logger_info, logger_warning, logger_error, message_box, call; simpl.

Lemma set_all_step_returns c b i : returns (set_all_step c b i).
Proof.
  intros s. unfold set_all_step. run.
  destruct (mod_tree s !! i) as [item|]; [|by eauto].
  destruct (data item) as [folder|]; [|by eauto].
  destruct (dict_get folder (mods s)); by eauto.
Qed.

Lemma load_profile_step_returns profile_data i : returns (load_profile_step profile_data i).
Proof.
  intros s. unfold load_profile_step. run.
  destruct (mod_tree s !! i) as [item|]; [|by eauto].
  destruct (data item) as [folder|]; [|by eauto].
  destruct (profile_data !! folder); [|by eauto]. simpl.
  destruct (dict_get folder (mods s)); by eauto.
Qed.

(** ** The handlers that recompute the conflicts *)

Lemma toggle_known item folder mod_ s :
  data item = Some folder → folder ≠ "" →
  dict_get folder (mods s) = Some mod_ →
  _on_mod_toggle (Some item) 0 s
  = Return tt (set_mods update_conflicts
                 (set_mods (dict_set folder (set_enabled (is_checked item) mod_)) s)).
Proof.
  intros Hdata Hfolder Hget. unfold _on_mod_toggle, _update_conflicts. run.
  rewrite Hdata. destruct (String.eqb_spec folder "") as [->|_]; [done|].
  by rewrite Hget.
Qed.

Lemma toggle_unknown item column s :
  (∀ folder, item ≫= data = Some folder → dict_get folder (mods s) = None) →
  _on_mod_toggle item column s = Return tt s.
Proof.
  intros Hunknown. unfold _on_mod_toggle. run.
  destruct item as [item|]; [|done]. simpl in Hunknown.
  destruct (negb (column =? 0)%Z); [done|].
  destruct (data item) as [folder|]; [|done].
  destruct (String.eqb folder ""); [done|]. by rewrite Hunknown.
Qed.

Lemma set_all_recomputed c b msg s :
  ∃ s1, (n ← childCount; for_each (seq 0 n) (set_all_step c b);;
         _update_conflicts;; logger_info msg) s
        = Return tt (add_log INFO msg (set_mods update_conflicts s1)).
Proof.
  unfold childCount, _update_conflicts. run.
  rewrite for_each_returns by apply set_all_step_returns. by eexists.
Qed.

Lemma has_suffix_app suffix s : has_suffix suffix (s ++ suffix) = true.
Proof.
  induction s as [|c s IH]; simpl.
  - destruct suffix; simpl; by rewrite ?Ascii.eqb_refl, ?String.eqb_refl.
  - rewrite IH. apply orb_true_r.
Qed.

Lemma list_profiles_nonempty (files : gmap string FileContent) name :
  is_Some (files !! (name ++ ".json")) → list_profiles files ≠ [].
Proof.
  intros Hfile Hnil. unfold list_profiles in Hnil.
  apply fmap_nil_inv in Hnil.
  assert (name ++ ".json" ∈ filter (has_suffix ".json") (elements (dom files))) as Hin.
  { apply list_elem_of_filter. split.
    - rewrite has_suffix_app. done.
    - by apply elem_of_elements, elem_of_dom. }
  rewrite Hnil in Hin. by apply elem_of_nil in Hin.
Qed.

(** [load_profile] on a profile file that exists and parses. *)
Lemma load_profile_loaded name profile_data s :
  name ≠ "" →
  profiles_path s !! (name ++ ".json") = Some (JsonObject profile_data) →
  let s0 := add_log INFO ("Loading profile: " ++ name) s in
  let s1 := foldl (λ s i, final_state (load_profile_step profile_data i s)) s0
                  (seq 0 (length (mod_tree s))) in
  let success_msg := "Profile '" ++ name ++ "' loaded successfully!" in
  load_profile name true s
  = Return tt (add_box (Information "Success" success_msg)
                 (add_log INFO success_msg (set_mods update_conflicts s1))).
Proof.
  intros Hname Hfile. unfold load_profile, childCount, _update_conflicts. run.
  pose proof (list_profiles_nonempty (profiles_path s) name) as Hne.
  destruct (list_profiles (profiles_path s)); [destruct Hne; by eauto|].
  destruct (String.eqb_spec name "") as [->|_]; [done|].
  rewrite Hfile. simpl.
  by rewrite for_each_returns by apply load_profile_step_returns.
Qed.

(** ** Conflict entries and overlapping files *)

(** With unique display names the entry a mod keeps for another enabled mod
    comes from that mod alone. *)
Lemma conflict_entry ms a b A B :
  is_dict ms → unique_display_names ms →
  dict_get a ms = Some A → dict_get b ms = Some B → a ≠ b →
  enabled A = true → enabled B = true →
  conflicts (updated_mod ms a A) !! display_of B = representative A B.
Proof using iter_and_perm.
  intros Hdict Huniq HA HB Hab HeA HeB.
  unfold updated_mod. rewrite HeA. simpl. rewrite scan_enabled_mods_foldl.
  assert (∀ file, foldl (scan_step a A) ∅ (enabled_mods_of ms) !! display_of B = Some file
                  → representative A B = Some file) as Horigin.
  { intros file [Hempty|(on & om & Hin & Hon & Hdisp & Hrep)]%scan_entry_origin.
    - by rewrite lookup_empty in Hempty.
    - apply elem_enabled_mods_of in Hin as [Hin Heo].
      apply (elem_dict_get _ _ _ Hdict) in Hin.
      assert (on = b) as -> by eauto using Huniq.
      by replace B with om by congruence. }
  apply option_eq. intros file. split; [apply Horigin|]. intros Hrep.
  destruct (scan_records_overlap a A (enabled_mods_of ms) ∅ b B) as [file' Hfile'].
  - apply elem_enabled_mods_of. split; [by apply dict_get_Some_elem|done].
  - done.
  - intros Hempty. apply representative_elem in Hrep.
    rewrite Hempty in Hrep. by apply not_elem_of_empty in Hrep.
  - rewrite Hfile'. apply Horigin in Hfile'. congruence.
Qed.

(** The records of two distinct enabled mods before a recompute, from their
    records after it. *)
Lemma update_conflicts_inv ms a A' :
  dict_get a (update_conflicts ms) = Some A' →
  ∃ A, dict_get a ms = Some A ∧ A' = updated_mod ms a A.
Proof.
  rewrite update_conflicts_get. destruct (dict_get a ms) as [A|]; [|done].
  intros [= <-]. by exists A.
Qed.

Lemma updated_mod_files ms a A : files_of (updated_mod ms a A) = files_of A.
Proof. unfold files_of. by rewrite updated_mod_metadata. Qed.

Lemma updated_mod_display ms a A : display_of (updated_mod ms a A) = display_of A.
Proof. unfold display_of. by rewrite updated_mod_metadata. Qed.

(** Two enabled mods that share a file record each other, whatever the
    display names are. *)
Lemma conflict_entry_present ms a b A B :
  dict_get a ms = Some A → dict_get b ms = Some B → a ≠ b →
  enabled A = true → enabled B = true →
  files_of A ∩ files_of B ≠ ∅ →
  is_Some (conflicts (updated_mod ms a A) !! display_of B).
Proof using iter_and_perm.
  intros HA HB Hab HeA HeB Hcommon.
  unfold updated_mod. rewrite HeA. simpl. rewrite scan_enabled_mods_foldl.
  apply (scan_records_overlap a A _ ∅ b B); [|done..].
  apply elem_enabled_mods_of. split; [by apply dict_get_Some_elem|done].
Qed.

(** C1 (as amended).  After [_update_conflicts], for two distinct enabled
    mods A and B: if they share an affected file, then A's conflicts map has
    an entry under B's display name and B's conflicts map has one under
    A's; and when no two enabled mods carry the same display name, they
    share an affected file if and only if both entries are there. *)
Theorem conflict_entries_iff_overlap s a b A B :
  let s' := final_state (_update_conflicts s) in
  dict_get a (mods s') = Some A → dict_get b (mods s') = Some B →
  a ≠ b → enabled A = true → enabled B = true →
  (files_of A ∩ files_of B ≠ ∅ →
   is_Some (conflicts A !! display_of B) ∧ is_Some (conflicts B !! display_of A)) ∧
  (is_dict (mods s) → unique_display_names (mods s) →
   files_of A ∩ files_of B ≠ ∅ ↔
   is_Some (conflicts A !! display_of B) ∧ is_Some (conflicts B !! display_of A)).
Proof using iter_and_perm.
  intros s'. simpl.
  intros (A0 & HA & ->)%update_conflicts_inv (B0 & HB & ->)%update_conflicts_inv Hab.
  rewrite !updated_mod_enabled, !updated_mod_files, !updated_mod_display.
  intros HeA HeB.
  assert (files_of A0 ∩ files_of B0 ≠ ∅ →
          is_Some (conflicts (updated_mod (mods s) a A0) !! display_of B0) ∧
          is_Some (conflicts (updated_mod (mods s) b B0) !! display_of A0)) as Hforward.
  { intros Hcommon. split.
    - by apply (conflict_entry_present _ a b).
    - apply (conflict_entry_present _ b a); try done. by rewrite (comm_L (∩)). }
  split; [done|]. intros Hdict Huniq. split; [done|].
  rewrite (conflict_entry _ a b) by done.
  intros [[file Hfile%representative_elem] _] Hempty.
  rewrite Hempty in Hfile. by apply not_elem_of_empty in Hfile.
Qed.

(** C2 (as amended).  After [_update_conflicts], when the enabled mods have
    pairwise distinct display names: for two distinct enabled mods that
    share an affected file, the file recorded in each one's entry for the
    other is the last path of the intersection in the order in which the
    set is iterated, whatever that order is; it is a common file of both. *)
Theorem representative_is_last_iterated s a b A B :
  is_dict (mods s) →
  unique_display_names (mods s) →
  let s' := final_state (_update_conflicts s) in
  dict_get a (mods s') = Some A → dict_get b (mods s') = Some B →
  a ≠ b → enabled A = true → enabled B = true →
  files_of A ∩ files_of B ≠ ∅ →
  ∃ fileA fileB,
    conflicts A !! display_of B = Some fileA ∧
    last (iter_and (files_of A) (files_of B)) = Some fileA ∧
    conflicts B !! display_of A = Some fileB ∧
    last (iter_and (files_of B) (files_of A)) = Some fileB ∧
    fileA ∈ files_of A ∩ files_of B ∧ fileB ∈ files_of A ∩ files_of B.
Proof using iter_and_perm.
  intros Hdict Huniq s'. simpl.
  intros (A0 & HA & ->)%update_conflicts_inv (B0 & HB & ->)%update_conflicts_inv Hab.
  rewrite !updated_mod_enabled, !updated_mod_files, !updated_mod_display.
  intros HeA HeB Hcommon.
  rewrite (conflict_entry _ a b) by done.
  rewrite (conflict_entry _ b a) by done.
  destruct (representative_Some A0 B0) as [fileA HfileA]; [done|].
  destruct (representative_Some B0 A0) as [fileB HfileB]; [by rewrite (comm_L (∩))|].
  exists fileA, fileB. split_and!; try done.
  - by apply representative_elem.
  - rewrite (comm_L (∩)). by apply representative_elem.
Qed.

(** ** Disabled mods carry no conflicts *)

Lemma recomputed_disabled s' : recomputed s' → disabled_mods_have_no_conflicts s'.
Proof.
  intros [ms Hms] mod_name mod'. rewrite Hms.
  intros (mod_ & _ & ->)%update_conflicts_inv. rewrite updated_mod_enabled.
  unfold updated_mod. by intros ->.
Qed.

Lemma scan_only_itself mod_name mod_ others c :
  (∀ other_name other_mod, (other_name, other_mod) ∈ others → other_name = mod_name) →
  foldl (scan_step mod_name mod_) c others = c.
Proof.
  revert c. induction others as [|[other_name other_mod] others IH];
    intros c Hothers; cbn [foldl]; [done|].
  rewrite IH by (intros; eapply Hothers; by right).
  rewrite (Hothers other_name other_mod) by left.
  unfold scan_step. by rewrite String.eqb_refl.
Qed.

(** With at most one enabled mod nothing conflicts. *)
Lemma single_enabled_no_conflicts ms mod_name mod' :
  is_dict ms →
  (∀ name1 name2 mod1 mod2,
     dict_get name1 ms = Some mod1 → dict_get name2 ms = Some mod2 →
     enabled mod1 = true → enabled mod2 = true → name1 = name2) →
  dict_get mod_name (update_conflicts ms) = Some mod' →
  conflicts mod' = ∅.
Proof.
  intros Hdict Hone (mod_ & Hget & ->)%update_conflicts_inv.
  unfold updated_mod. destruct (enabled mod_) eqn:He; [|done]. simpl.
  rewrite scan_enabled_mods_foldl. apply scan_only_itself.
  intros other_name other_mod [Hin Heo]%elem_enabled_mods_of.
  apply (elem_dict_get _ _ _ Hdict) in Hin. eauto.
Qed.

Lemma is_dict_set_present {V} k (v v0 : V) d :
  dict_get k d = Some v0 → is_dict d → is_dict (dict_set k v d).
Proof. intros Hget. unfold is_dict. by rewrite (keys_dict_set_present _ _ v0). Qed.

(** C3.  After [_update_conflicts] the mods that are not enabled have an
    empty conflicts map, and so after every handler that changes enabled
    flags, since each ends with a recompute: a single toggle, enable-all,
    disable-all and a profile load.  When exactly two mods are enabled and
    they share a file, unchecking either of them leaves both conflicts maps
    empty. *)
Theorem disabled_mods_lose_conflicts :
  (∀ s, disabled_mods_have_no_conflicts (final_state (_update_conflicts s))) ∧
  (∀ s item folder mod_,
     data item = Some folder → folder ≠ "" →
     dict_get folder (mods s) = Some mod_ →
     disabled_mods_have_no_conflicts (final_state (_on_mod_toggle (Some item) 0 s))) ∧
  (∀ s, disabled_mods_have_no_conflicts (final_state (enable_all_mods s))) ∧
  (∀ s, disabled_mods_have_no_conflicts (final_state (disable_all_mods s))) ∧
  (∀ s name profile_data,
     name ≠ "" →
     profiles_path s !! (name ++ ".json") = Some (JsonObject profile_data) →
     disabled_mods_have_no_conflicts (final_state (load_profile name true s))) ∧
  (∀ s a b A B item toggled,
     is_dict (mods s) → a ≠ b →
     dict_get a (mods s) = Some A → dict_get b (mods s) = Some B →
     enabled A = true → enabled B = true →
     files_of A ∩ files_of B ≠ ∅ →
     (∀ other_name other_mod,
        dict_get other_name (mods s) = Some other_mod → enabled other_mod = true →
        other_name = a ∨ other_name = b) →
     toggled = a ∨ toggled = b → toggled ≠ "" →
     data item = Some toggled → checkState item = Unchecked →
     let s' := final_state (_on_mod_toggle (Some item) 0 s) in
     ∃ A' B',
       dict_get a (mods s') = Some A' ∧ dict_get b (mods s') = Some B' ∧
       conflicts A' = ∅ ∧ conflicts B' = ∅).
Proof.
  split_and!.
  - intros s. apply recomputed_disabled. by eexists.
  - intros s item folder mod_ Hdata Hfolder Hget.
    rewrite (toggle_known _ _ _ _ Hdata Hfolder Hget).
    apply recomputed_disabled. by eexists.
  - intros s. unfold enable_all_mods.
    destruct (set_all_recomputed Checked true "All mods enabled" s) as [s1 ->].
    apply recomputed_disabled. by eexists.
  - intros s. unfold disable_all_mods.
    destruct (set_all_recomputed Unchecked false "All mods disabled" s) as [s1 ->].
    apply recomputed_disabled. by eexists.
  - intros s name profile_data Hname Hfile.
    rewrite (load_profile_loaded _ _ _ Hname Hfile).
    apply recomputed_disabled. by eexists.
  - intros s a b A B item toggled Hdict Hab HA HB _ _ _ Htwo Htoggled Hne Hdata Hunchecked s'.
    assert (∃ T, dict_get toggled (mods s) = Some T) as [T HT]
      by (destruct Htoggled as [->| ->]; eauto).
    subst s'. rewrite (toggle_known _ _ _ _ Hdata Hne HT).
    unfold is_checked. rewrite Hunchecked. simpl.
    set (ms := dict_set toggled (set_enabled false T) (mods s)).
    assert (∀ k mod', dict_get k (update_conflicts ms) = Some mod' → conflicts mod' = ∅)
      as Hempty.
    { intros k mod'. apply single_enabled_no_conflicts.
      - by apply (is_dict_set_present _ _ T).
      - unfold ms. intros name1 name2 mod1 mod2. rewrite !dict_get_set.
        destruct (decide (name1 = toggled)) as [->|Hn1];
          [by intros [= <-] _ [=]|].
        destruct (decide (name2 = toggled)) as [->|Hn2];
          [by intros _ [= <-] _ [=]|].
        intros H1 H2 He1 He2.
        destruct (Htwo _ _ H1 He1), (Htwo _ _ H2 He2), Htoggled; congruence. }
    assert (∀ k mod_, dict_get k (mods s) = Some mod_ →
                      ∃ mod', dict_get k (update_conflicts ms) = Some mod') as Hkeeps.
    { intros k mod_ Hk. rewrite update_conflicts_get. unfold ms.
      rewrite dict_get_set. case_decide; [by eexists|]. rewrite Hk. by eexists. }
    destruct (Hkeeps _ _ HA) as [A' HA'], (Hkeeps _ _ HB) as [B' HB'].
    exists A', B'. split_and!; eauto.
Qed.

(** ** Toggling a mod the registry does not know *)

(** C8 (as amended).  When the folder name stored in the toggled item is not
    a key of the registry, [_on_mod_toggle] returns without raising and
    without logging or showing an error, and leaves the whole state, so
    every mod's enabled flag and conflicts map, as it was. *)
Theorem toggle_unknown_folder_is_silent s item column folder :
  data item = Some folder →
  folder ∉ keys (mods s) →
  _on_mod_toggle (Some item) column s = Return tt s.
Proof.
  intros Hdata Hkey%dict_get_None. apply toggle_unknown.
  simpl. intros folder'. rewrite Hdata. by intros [= <-].
Qed.

(** ** The rescan *)

Lemma load_mod_returns mod_item : returns (load_mod mod_item).
Proof.
  intros s. unfold load_mod. run.
  destruct (ModInfo_init (name mod_item)) as [e|mod_info]; simpl; [by eauto|].
  destruct (ModTreeItem_init mod_info); simpl; by eauto.
Qed.

Lemma load_mod_final mod_item s :
  let s' := final_state (load_mod mod_item s) in
  mods s' = parsed (mods s) mod_item ∧
  logger s' = (logger s ++ [load_mod_log mod_item])%list ∧
  storage_path s' = storage_path s.
Proof.
  unfold load_mod, parsed, load_mod_log. run.
  destruct (ModInfo_init (name mod_item)) as [e|mod_info]; simpl; [done|].
  destruct (ModTreeItem_init mod_info); simpl; done.
Qed.

Lemma load_mods_final mod_dirs s :
  mods (load_mods mod_dirs s) = foldl parsed (mods s) mod_dirs ∧
  logger (load_mods mod_dirs s) = (logger s ++ (load_mod_log <$> mod_dirs))%list ∧
  storage_path (load_mods mod_dirs s) = storage_path s.
Proof.
  unfold load_mods. revert s.
  induction mod_dirs as [|mod_item mod_dirs IH]; intros s; cbn [foldl fmap list_fmap].
  - by rewrite app_nil_r.
  - destruct (IH (final_state (load_mod mod_item s))) as (-> & -> & ->).
    destruct (load_mod_final mod_item s) as (-> & -> & ->).
    by rewrite <- app_assoc.
Qed.

Lemma insert_sorted_perm x l : insert_sorted x l ≡ₚ x :: l.
Proof.
  induction l as [|y l IH]; simpl; [done|].
  destruct (String.ltb _ _); [done|]. rewrite IH. apply Permutation_swap.
Qed.

Lemma sort_by_lower_name_perm l : sort_by_lower_name l ≡ₚ l.
Proof.
  unfold sort_by_lower_name.
  assert (∀ sorted, foldl (λ sorted x, insert_sorted x sorted) sorted l ≡ₚ (l ++ sorted)%list)
    as Hfold.
  { induction l as [|x l IH]; intros sorted; cbn [foldl]; [done|].
    rewrite IH, insert_sorted_perm. simpl. by rewrite Permutation_middle. }
  by rewrite Hfold, app_nil_r.
Qed.

Lemma sort_by_lower_name_nil l : sort_by_lower_name l = [] → l = [].
Proof.
  intros Hnil. apply Permutation_nil_r. by rewrite <- Hnil, sort_by_lower_name_perm.
Qed.

(** [refresh_mod_list] always returns; the registry it leaves is built from
    the storage directory alone. *)
Lemma refresh_mod_list_final s :
  ∃ s', refresh_mod_list s = Return tt s' ∧
        mods s' = foldl parsed [] (mod_dirs_of (storage_path s)) ∧
        storage_path s' = storage_path s ∧
        (∀ entries, storage_path s = Listing entries →
           ∃ before,
             logger s' = (before ++ (load_mod_log <$> mod_dirs_of (storage_path s)))%list).
Proof.
  unfold refresh_mod_list, clear_mods. run.
  destruct (storage_path s) as [|e|entries] eqn:Hsp; simpl.
  - eexists. split_and!; [done..|]. intros ? [=].
  - eexists. split_and!; [done..|]. intros ? [=].
  - destruct (filter (λ d, is_dir d = true) entries) as [|d mod_dirs] eqn:Hdirs.
    + eexists. split_and!; [done..|]. intros ? _. eexists. by rewrite app_nil_r.
    + rewrite <- Hdirs.
      destruct (sort_by_lower_name (filter (λ d, is_dir d = true) entries)) eqn:Hsorted.
      { apply sort_by_lower_name_nil in Hsorted. congruence. }
      rewrite <- Hsorted. rewrite for_each_returns by apply load_mod_returns.
      match goal with |- context [foldl _ ?s0 ?l] =>
        destruct (load_mods_final l s0) as (Hmods & Hlog & Hstorage) end.
      unfold load_mods in Hmods, Hlog, Hstorage.
      eexists. split; [done|]. simpl. rewrite Hmods, Hlog, Hstorage. simpl.
      split_and!; [done..|]. intros ? _. by eexists.
Qed.

(** A directory whose manifest does not parse adds no key. *)
Lemma parsed_unparseable mod_dirs ms k e :
  ModInfo_init k = inl e →
  dict_get k (foldl parsed ms mod_dirs) = dict_get k ms.
Proof using ModInfo_folder_name.
  intros Hfails. revert ms.
  induction mod_dirs as [|mod_item mod_dirs IH]; intros ms; cbn [foldl]; [done|].
  rewrite IH. unfold parsed.
  destruct (ModInfo_init (name mod_item)) as [|mod_info] eqn:Hinit; [done|].
  rewrite dict_get_set. case_decide as Hk; [|done].
  pose proof (ModInfo_folder_name _ _ Hinit). congruence.
Qed.

(** A directory whose manifest parses is registered under its name with the
    record the parser returned, whatever happens to the other ones. *)
Lemma parsed_parseable mod_dirs ms mod_item mod_info :
  mod_item ∈ mod_dirs →
  ModInfo_init (name mod_item) = inr mod_info →
  dict_get (name mod_item) (foldl parsed ms mod_dirs) = Some mod_info.
Proof using ModInfo_folder_name.
  intros Hin Hinit. revert ms Hin.
  induction mod_dirs as [|d mod_dirs IH] using rev_ind; intros ms Hin.
  { by apply elem_of_nil in Hin. }
  rewrite foldl_app. cbn [foldl]. unfold parsed at 1.
  destruct (decide (name d = name mod_item)) as [Heq|Hne].
  - rewrite Heq, Hinit, dict_get_set.
    by rewrite decide_True by (symmetry; by apply ModInfo_folder_name).
  - apply elem_of_app in Hin as [Hin|Hin%list_elem_of_singleton]; [|congruence].
    destruct (ModInfo_init (name d)) as [|mod_info'] eqn:Hinit'; [by apply IH|].
    rewrite dict_get_set, decide_False; [by apply IH|].
    apply ModInfo_folder_name in Hinit'. congruence.
Qed.

(** C4.  [refresh_mod_list] run twice in a row on an unchanged storage
    directory leaves the registry of the first run: the same folder names
    in the same order, and for each of them the same record, so the same
    metadata. *)
Theorem refresh_mod_list_idempotent s :
  ∃ s1 s2,
    refresh_mod_list s = Return tt s1 ∧
    refresh_mod_list s1 = Return tt s2 ∧
    keys (mods s2) = keys (mods s1) ∧
    (∀ folder, metadata <$> dict_get folder (mods s2)
               = metadata <$> dict_get folder (mods s1)) ∧
    mods s2 = mods s1.
Proof.
  destruct (refresh_mod_list_final s) as (s1 & Hrun1 & Hmods1 & Hsp1 & _).
  destruct (refresh_mod_list_final s1) as (s2 & Hrun2 & Hmods2 & _).
  assert (mods s2 = mods s1) as Heq by (by rewrite Hmods2, Hsp1, Hmods1).
  exists s1, s2. split_and!; try done.
  - by rewrite Heq.
  - intros folder. by rewrite Heq.
Qed.

(** The registry after the loop, key by key: the parseable directories,
    each under its name with the record the parser returns. *)
Lemma parsed_lookup mod_dirs k :
  dict_get k (foldl parsed [] mod_dirs)
  = if decide (k ∈ name <$> mod_dirs)
    then match ModInfo_init k with inr mod_info => Some mod_info | inl _ => None end
    else None.
Proof using ModInfo_folder_name.
  case_decide as Hin.
  - apply list_elem_of_fmap in Hin as (mod_item & -> & Hin).
    destruct (ModInfo_init (name mod_item)) as [e|mod_info] eqn:Hinit.
    + by rewrite (parsed_unparseable _ _ _ e).
    + by apply parsed_parseable.
  - assert (∀ ms, dict_get k (foldl parsed ms mod_dirs) = dict_get k ms) as Hfold;
      [|by rewrite Hfold].
    induction mod_dirs as [|d mod_dirs IH]; intros ms; cbn [foldl]; [done|].
    rewrite fmap_cons, not_elem_of_cons in Hin. destruct Hin as [Hd Hin].
    rewrite IH by done. unfold parsed.
    destruct (ModInfo_init (name d)) as [|mod_info] eqn:Hinit; [done|].
    rewrite dict_get_set, decide_False; [done|].
    by rewrite (ModInfo_folder_name _ _ Hinit).
Qed.

(** The order in which the operating system lists the storage directory
    does not matter for what a rescan registers. *)
Lemma refresh_mod_list_listing_order s1 s2 entries1 entries2 folder :
  storage_path s1 = Listing entries1 → storage_path s2 = Listing entries2 →
  entries1 ≡ₚ entries2 →
  dict_get folder (mods (final_state (refresh_mod_list s1)))
  = dict_get folder (mods (final_state (refresh_mod_list s2))).
Proof using ModInfo_folder_name.
  intros Hsp1 Hsp2 Hperm.
  destruct (refresh_mod_list_final s1) as (s1' & -> & Hmods1 & _).
  destruct (refresh_mod_list_final s2) as (s2' & -> & Hmods2 & _).
  simpl. rewrite Hmods1, Hmods2, Hsp1, Hsp2, !parsed_lookup. simpl.
  assert (name <$> sort_by_lower_name (filter (λ d, is_dir d = true) entries1)
          ≡ₚ name <$> sort_by_lower_name (filter (λ d, is_dir d = true) entries2))
    as Hnames by (by rewrite !sort_by_lower_name_perm, Hperm).
  destruct (decide (folder ∈ name <$> sort_by_lower_name
                      (filter (λ d, is_dir d = true) entries1))) as [Hin|Hin].
  - rewrite decide_True; [done|]. by rewrite <- Hnames.
  - rewrite decide_False; [done|]. by rewrite <- Hnames.
Qed.

(** C5.  During a rescan every directory of the storage is handled on its
    own: one whose manifest fails to parse is absent from the registry
    afterwards and an error naming it is logged; one whose manifest parses
    is in the registry with the complete record the parser built, also when
    other directories failed. *)
Theorem failed_parse_excludes_only_that_mod s entries mod_item :
  storage_path s = Listing entries →
  mod_item ∈ entries → is_dir mod_item = true →
  ∃ s',
    refresh_mod_list s = Return tt s' ∧
    match ModInfo_init (name mod_item) with
    | inl e =>
        dict_get (name mod_item) (mods s') = None ∧
        (ERROR, "Error loading mod " ++ name mod_item ++ ": " ++ str e) ∈ logger s'
    | inr mod_info =>
        dict_get (name mod_item) (mods s') = Some mod_info
    end.
Proof using ModInfo_folder_name.
  intros Hsp Hin Hdir.
  destruct (refresh_mod_list_final s) as (s' & Hrun & Hmods & _ & Hlog).
  destruct (Hlog _ Hsp) as [before Hlogger]. clear Hlog.
  assert (mod_item ∈ mod_dirs_of (storage_path s)) as Hloaded.
  { rewrite Hsp. simpl. rewrite sort_by_lower_name_perm.
    by apply list_elem_of_filter. }
  exists s'. split; [done|]. rewrite Hmods, Hlogger.
  destruct (ModInfo_init (name mod_item)) as [e|mod_info] eqn:Hinit.
  - split; [by rewrite (parsed_unparseable _ _ _ e)|].
    apply elem_of_app. right. apply list_elem_of_fmap. exists mod_item.
    split; [|done]. unfold load_mod_log. by rewrite Hinit.
  - by apply parsed_parseable.
Qed.

(** ** Deployment *)

Lemma filter_all {A} (P : A → Prop) `{∀ x, Decision (P x)} (l : list A) :
  (∀ x, P x) → filter P l = l.
Proof.
  intros HP. induction l as [|x l IH]; [done|].
  by rewrite filter_cons_True, IH.
Qed.

Lemma set_game_mods_path_id s entries :
  game_mods_path s = Listing entries → set_game_mods_path (Listing entries) s = s.
Proof. destruct s. simpl. by intros ->. Qed.

Lemma remove_item_run item s entries :
  game_mods_path s = Listing entries →
  remove_item item s
  = match remove_result item with
    | Some e => Raise e s
    | None => Return tt (set_game_mods_path
                           (Listing (filter (λ entry, entry.1 ≠ item.1) entries)) s)
    end.
Proof.
  intros Hgm. destruct item as [item_name node]. unfold remove_item, remove_result. run.
  destruct (if node_is_dir node then rmtree item_name else unlink item_name); [done|].
  by rewrite Hgm.
Qed.

(** The clearing loop: when it returns, every listed entry was removed. *)
Lemma clear_loop items s entries :
  game_mods_path s = Listing entries →
  match for_each items remove_item s with
  | Return _ s' =>
      Forall (λ item, remove_result item = None) items ∧
      s' = set_game_mods_path
             (Listing (filter (λ entry, entry.1 ∉ items.*1) entries)) s
  | Raise e s' =>
      Exists (λ item, remove_result item = Some e) items ∧
      mods s' = mods s ∧ logger s' = logger s ∧ message_boxes s' = message_boxes s
  end.
Proof.
  revert s entries. induction items as [|item items IH]; intros s entries Hgm.
  - simpl. split; [done|]. rewrite filter_all by (intros; apply not_elem_of_nil).
    by rewrite set_game_mods_path_id.
  - cbn [for_each]. unfold mbind, M_bind. rewrite (remove_item_run _ _ _ Hgm).
    destruct (remove_result item) as [e|] eqn:Hitem.
    { split; [by left|done]. }
    set (s1 := set_game_mods_path _ s).
    specialize (IH s1 _ eq_refl).
    destruct (for_each items remove_item s1) as [[] s'|e s'].
    + destruct IH as [Hall ->]. split; [by constructor|].
      unfold s1, set_game_mods_path. simpl. do 2 f_equal. rewrite list_filter_filter.
      apply list_filter_iff. intros entry. rewrite not_elem_of_cons.
      split; intros [? ?]; split; done.
    + destruct IH as (Hex & ? & ? & ?). split; [by right|done].
Qed.

Lemma deploy_mod_run mod_name mod_ s entries :
  game_mods_path s = Listing entries →
  let s0 := add_log INFO ("Deploying mod: " ++ mod_name) s in
  deploy_mod (mod_name, mod_) s
  = if bool_decide (mod_name ∈ entries.*1)
    then Raise (Exception ("File exists: " ++ mod_name)) s0
    else
      match copytree_result (path mod_) with
      | Copied =>
          Return tt (set_game_mods_path
                       (Listing (entries ++ [deployed_entry (mod_name, mod_)])) s0)
      | CopyFailed e true =>
          Raise e (set_game_mods_path
                     (Listing (entries ++ [(mod_name, PartialCopy (path mod_))])) s0)
      | CopyFailed e false => Raise e s0
      end.
Proof.
  intros Hgm. unfold deploy_mod, copytree. run. rewrite Hgm.
  destruct (bool_decide (mod_name ∈ entries.*1)); [done|].
  destruct (copytree_result (path mod_)) as [|e []]; done.
Qed.

(** The copying loop: when it returns, every mod of the list was copied. *)
Lemma copy_loop_Return enabled_mods s s' entries :
  game_mods_path s = Listing entries →
  for_each enabled_mods deploy_mod s = Return tt s' →
  game_mods_path s' = Listing (entries ++ (deployed_entry <$> enabled_mods)) ∧
  message_boxes s' = message_boxes s.
Proof.
  revert s entries. induction enabled_mods as [|[mod_name mod_] enabled_mods IH];
    intros s entries Hgm.
  - simpl. intros [= <-]. by rewrite app_nil_r.
  - cbn [for_each]. unfold mbind, M_bind. rewrite (deploy_mod_run _ _ _ _ Hgm).
    destruct (bool_decide _); [done|].
    destruct (copytree_result (path mod_)) as [|e []]; [|done..].
    intros Hrun. eapply IH in Hrun as [-> ->]; [|done]. by rewrite <- app_assoc.
Qed.

(** The copying loop when the mods of [copied] copy and the next one does
    not: it raises there, with the copies made so far in the directory and,
    when the failed copy had got past creating its destination, that
    destination too. *)
Lemma copy_loop_fails copied mod_name mod_ rest e partial s entries :
  game_mods_path s = Listing entries →
  NoDup (entries.*1 ++ keys (copied ++ [(mod_name, mod_)])) →
  Forall (λ entry, copytree_result (path entry.2) = Copied) copied →
  copytree_result (path mod_) = CopyFailed e partial →
  ∃ s',
    for_each (copied ++ (mod_name, mod_) :: rest) deploy_mod s = Raise e s' ∧
    game_mods_path s'
    = Listing (entries ++ (deployed_entry <$> copied)
               ++ (if partial then [(mod_name, PartialCopy (path mod_))] else [])) ∧
    mods s' = mods s ∧ message_boxes s' = message_boxes s.
Proof.
  intros Hgm Hnd Hcopied Hfails. revert s entries Hgm Hnd.
  induction Hcopied as [|[name1 mod1] copied Hcopy1 _ IH]; intros s entries Hgm Hnd.
  - cbn [app for_each]. unfold mbind, M_bind. rewrite (deploy_mod_run _ _ _ _ Hgm).
    rewrite bool_decide_eq_false_2.
    2:{ apply NoDup_app in Hnd as (_ & Hnd & _). intros Hin.
        apply (Hnd _ Hin). left. }
    rewrite Hfails. destruct partial; eexists; (split; [done|]); simpl.
    + done.
    + by rewrite app_nil_r.
  - cbn [app for_each]. unfold mbind, M_bind. rewrite (deploy_mod_run _ _ _ _ Hgm).
    rewrite bool_decide_eq_false_2.
    2:{ apply NoDup_app in Hnd as (_ & Hnd & _). intros Hin.
        apply (Hnd _ Hin). left. }
    simpl in Hcopy1. rewrite Hcopy1.
    match goal with |- context [for_each _ _ ?s1] =>
      destruct (IH s1 (entries ++ [deployed_entry (name1, mod1)])%list)
        as (s' & Hrun & Hgm' & Hmods & Hboxes) end.
    + done.
    + rewrite fmap_app. simpl. rewrite <- app_assoc. exact Hnd.
    + exists s'. rewrite Hrun, Hgm', Hmods, Hboxes. simpl.
      by rewrite <- app_assoc.
Qed.

Lemma filter_own_names {A} (l : list (string * A)) :
  filter (λ entry, entry.1 ∉ l.*1) l = [].
Proof.
  apply elem_of_nil_inv.
  intros entry [Hnot Hin]%list_elem_of_filter. apply Hnot.
  apply list_elem_of_fmap. by exists entry.
Qed.

(** C6.  After a deploy that completes without error the game's mod
    directory holds exactly the copies of the mods that were enabled at
    call time, one entry per mod in registry order, each named by the mod's
    folder name, and none of the entries it held before. *)
Theorem deploy_postcondition reply s s' :
  keyed_by_folder_name (mods s) →
  deploy_mods reply s = Return tt s' →
  deploy_completed s' →
  game_mods_path s'
  = Listing ((λ entry, (folder_name entry.2, DeployedCopy (path entry.2)))
             <$> enabled_mods_of (mods s)).
Proof.
  intros Hkeyed Hrun [msg Hbox].
  assert (∀ (s0 : State) b, last (message_boxes (add_box b s0))
                            = Some (Information "Deploy Complete" msg) →
                            ∃ m, b = Information "Deploy Complete" m) as Hlast.
  { intros s0 b. simpl. rewrite last_snoc. intros [= ->]. by eexists. }
  assert ((λ entry, (folder_name entry.2, DeployedCopy (path entry.2)))
            <$> enabled_mods_of (mods s)
          = deployed_entry <$> enabled_mods_of (mods s)) as ->.
  { apply Forall_fmap_ext_1, Forall_forall.
    intros [mod_name mod_] [Hin _]%elem_enabled_mods_of. unfold deployed_entry. simpl.
    by rewrite (Hkeyed _ _ Hin). }
  revert Hrun. unfold deploy_mods. run.
  destruct (game_mods_path s) as [|e|old] eqn:Hgm; simpl.
  - intros [= <-]. by apply Hlast in Hbox as [? [=]].
  - destruct reply; simpl.
    + rewrite Hgm. simpl. intros [= <-]. by apply Hlast in Hbox as [? [=]].
    + intros [= <-]. by apply Hlast in Hbox as [? [=]].
  - destruct reply; simpl; [|intros [= <-]; by apply Hlast in Hbox as [? [=]]].
    rewrite Hgm. simpl.
    match goal with |- context [for_each old remove_item ?s0] =>
      pose proof (clear_loop old s0 old Hgm) as Hclear;
      destruct (for_each old remove_item s0) as [[] s1|e s1] end.
    2:{ intros [= <-]. by apply Hlast in Hbox as [? [=]]. }
    destruct Hclear as [_ ->]. rewrite filter_own_names.
    fold (enabled_mods_of (mods s)).
    match goal with |- context [for_each _ deploy_mod ?s1] =>
      destruct (for_each (enabled_mods_of (mods s)) deploy_mod s1)
        as [[] s2|e s2] eqn:Hcopy end.
    2:{ intros [= <-]. by apply Hlast in Hbox as [? [=]]. }
    apply (copy_loop_Return _ _ _ []) in Hcopy as [Hgm2 _]; [|done].
    intros [= <-]. simpl. by rewrite Hgm2.
Qed.

Lemma is_dict_enabled_mods_of ms : is_dict ms → is_dict (enabled_mods_of ms).
Proof.
  unfold is_dict, keys, enabled_mods_of. intros Hnd.
  eapply sublist_NoDup; [exact Hnd|]. apply fmap_sublist, sublist_filter.
Qed.

(** C7 (as amended).  When the game directory was cleared and the copy of
    the k-th enabled mod fails: no further mod is copied, the error is
    logged and shown in a "Deploy Error" box, and nothing is rolled back.
    The game directory holds none of its former entries; it holds the
    complete copies of the k-1 mods copied before, followed, when
    [copytree] had already created the destination of the failing mod, by
    that partial copy. *)
Theorem deploy_copy_failure s old copied mod_name mod_ rest e partial :
  is_dict (mods s) →
  game_mods_path s = Listing old →
  Forall (λ item, remove_result item = None) old →
  enabled_mods_of (mods s) = (copied ++ (mod_name, mod_) :: rest)%list →
  Forall (λ entry, copytree_result (path entry.2) = Copied) copied →
  copytree_result (path mod_) = CopyFailed e partial →
  ∃ s',
    deploy_mods Yes s = Return tt s' ∧
    game_mods_path s'
    = Listing ((deployed_entry <$> copied)
               ++ (if partial then [(mod_name, PartialCopy (path mod_))] else []))%list ∧
    last (logger s') = Some (ERROR, "Failed to deploy mods: " ++ str e) ∧
    last (message_boxes s')
    = Some (Critical "Deploy Error" ("Failed to deploy mods: " ++ str e)) ∧
    mods s' = mods s.
Proof.
  intros Hdict Hgm Hremovable Henabled Hcopied Hfails.
  unfold deploy_mods. run. rewrite Hgm. simpl. rewrite Hgm. simpl.
  match goal with |- context [for_each old remove_item ?s0] =>
    pose proof (clear_loop old s0 old Hgm) as Hclear;
    destruct (for_each old remove_item s0) as [[] s1|e' s1] end.
  2:{ destruct Hclear as [Hex _]. apply Exists_exists in Hex as (item & Hin & Hitem).
      rewrite Forall_forall in Hremovable. by rewrite (Hremovable _ Hin) in Hitem. }
  destruct Hclear as [_ ->]. rewrite filter_own_names.
  fold (enabled_mods_of (mods s)). rewrite Henabled.
  match goal with |- context [for_each _ deploy_mod ?s1] =>
    destruct (copy_loop_fails copied mod_name mod_ rest e partial s1 [])
      as (s2 & -> & Hgm2 & Hmods2 & _) end; try done.
  { simpl. apply is_dict_enabled_mods_of in Hdict. rewrite Henabled in Hdict.
    unfold is_dict, keys in *. rewrite fmap_app in *.
    apply NoDup_app in Hdict as (Hnd1 & Hnd2 & Hnd3).
    apply NoDup_app. split_and!; [done| |].
    - intros x Hx. specialize (Hnd2 x Hx). simpl in *.
      rewrite not_elem_of_cons in Hnd2. rewrite list_elem_of_singleton.
      by destruct Hnd2.
    - apply NoDup_singleton. }
  eexists. split; [done|]. simpl. rewrite !last_snoc. by rewrite Hgm2, Hmods2.
Qed.

(** ** Profiles *)



Lemma load_profile_step_final profile_data i s :
  let s' := final_state (load_profile_step profile_data i s) in
  mods s' = apply_profile profile_data (mods s) (stored_names s !! i ≫= id) ∧
  stored_names s' = stored_names s.
Proof.
  unfold load_profile_step, stored_names, apply_profile. run.
  rewrite list_lookup_fmap.
  destruct (mod_tree s !! i) as [item|] eqn:Hitem; simpl; [|done].
  destruct (data item) as [folder|] eqn:Hdata; simpl; [|done].
  destruct (profile_data !! folder) as [b|]; simpl; [|done].
  assert (data <$> <[i:=setCheckState (if b then Checked else Unchecked) item]> (mod_tree s)
          = data <$> mod_tree s) as Htree.
  { rewrite list_fmap_insert. apply list_insert_id.
    rewrite list_lookup_fmap, Hitem. done. }
  destruct (dict_get folder (mods s)); simpl; by rewrite Htree.
Qed.

Lemma load_profile_loop_final profile_data indices s :
  let s' := foldl (λ s i, final_state (load_profile_step profile_data i s)) s indices in
  mods s' = foldl (apply_profile profile_data) (mods s)
                  ((λ i, stored_names s !! i ≫= id) <$> indices) ∧
  stored_names s' = stored_names s.
Proof.
  revert s. induction indices as [|i indices IH]; intros s; cbn [foldl fmap list_fmap].
  - done.
  - destruct (load_profile_step_final profile_data i s) as [Hmods Hnames].
    destruct (IH (final_state (load_profile_step profile_data i s))) as [-> ->].
    by rewrite Hmods, Hnames.
Qed.

Lemma lookup_all {A} (l : list (option A)) :
  (λ i, l !! i ≫= id) <$> seq 0 (length l) = l.
Proof.
  apply list_eq. intros i. rewrite list_lookup_fmap.
  destruct (decide (i < length l)) as [Hlt|Hge].
  - rewrite lookup_seq_lt by done. simpl.
    destruct (lookup_lt_is_Some_2 l i Hlt) as [x ->]. done.
  - rewrite lookup_seq_ge by lia. simpl. symmetry. apply lookup_ge_None. lia.
Qed.

Lemma apply_profile_get profile_data ms folder k :
  dict_get k (apply_profile profile_data ms folder)
  = if decide (folder = Some k)
    then match profile_data !! k with
         | Some b => set_enabled b <$> dict_get k ms
         | None => dict_get k ms
         end
    else dict_get k ms.
Proof.
  unfold apply_profile. destruct folder as [folder|]; [|by rewrite decide_False].
  destruct (decide (Some folder = Some k)) as [[= ->]|Hne].
  - destruct (profile_data !! k); [|done].
    destruct (dict_get k ms) eqn:Hk; [|by rewrite Hk].
    by rewrite dict_get_set, decide_True.
  - destruct (profile_data !! folder); [|done].
    destruct (dict_get folder ms); [|done].
    rewrite dict_get_set, decide_False; [done|congruence].
Qed.


Lemma apply_profile_all_get profile_data folders ms k :
  dict_get k (foldl (apply_profile profile_data) ms folders)
  = if decide (Some k ∈ folders)
    then match profile_data !! k with
         | Some b => set_enabled b <$> dict_get k ms
         | None => dict_get k ms
         end
    else dict_get k ms.
Proof.
  revert ms. induction folders as [|folder folders IH]; intros ms; cbn [foldl].
  - rewrite decide_False; [done|apply not_elem_of_nil].
  - rewrite IH, !apply_profile_get.
    destruct (decide (folder = Some k)) as [->|Hne].
    + rewrite (decide_True (P := Some k ∈ Some k :: folders)) by left.
      destruct (profile_data !! k); [|by case_decide].
      case_decide; [|done]. by destruct (dict_get k ms).
    + case_decide as Hin.
      * rewrite decide_True; [done|by right].
      * rewrite decide_False; [done|]. rewrite not_elem_of_cons. by split.
Qed.



(** C10.  With an empty registry [save_profile] writes nothing: the
    profiles directory is the same afterwards, whatever name was entered
    or whether the dialog was cancelled; for a name that was entered it
    logs the warning and shows the warning box, and no error. *)
Theorem save_profile_empty_registry s :
  mods s = [] →
  (∀ name ok, profiles_path (final_state (save_profile name ok s)) = profiles_path s) ∧
  (∀ name, name ≠ "" →
     save_profile name true s
     = Return tt
         (add_box (Warning "Warning" "No mods available to save in profile.")
            (add_log WARNING "No mods to save in profile"
               (add_log INFO ("Saving profile: " ++ name) s)))).
Proof.
  intros Hmods. split.
  - intros name ok. unfold save_profile. run.
    destruct (negb ok || String.eqb name ""); [done|]. by rewrite Hmods.
  - intros name Hname. unfold save_profile. run.
    destruct (String.eqb_spec name "") as [->|_]; [done|]. by rewrite Hmods.
Qed.

(** ** The registry a rescan builds

    The properties above assume a registry that is a dictionary keyed by
    folder name and, for profiles, shown in the tree.  A rescan builds such
    a registry. *)

Lemma elem_dict_set {V} k (v : V) k' v' d :
  (k', v') ∈ dict_set k v d → (k' = k ∧ v' = v) ∨ (k', v') ∈ d.
Proof.
  induction d as [|[k0 v0] d IH]; simpl.
  - intros [= -> ->]%list_elem_of_singleton. by left.
  - destruct (String.eqb_spec k0 k) as [->|Hne].
    + intros [[= -> ->]|Hin]%elem_of_cons; [by left|]. right. by right.
    + intros [[= -> ->]|Hin]%elem_of_cons; [right; left|].
      destruct (IH Hin) as [?|?]; [by left|]. right. by right.
Qed.

Lemma is_dict_set {V} k (v : V) d : is_dict d → is_dict (dict_set k v d).
Proof.
  unfold is_dict, keys. induction d as [|[k0 v0] d IH]; simpl.
  - intros _. apply NoDup_singleton.
  - rewrite !NoDup_cons. intros [Hk0 Hnd].
    destruct (String.eqb_spec k0 k) as [->|Hne]; simpl; [by rewrite NoDup_cons|].
    rewrite NoDup_cons. split; [|by apply IH].
    intros [?|?]%(elem_keys_dict_set k k0 v d); [congruence|done].
Qed.

Lemma parsed_is_dict mod_dirs ms : is_dict ms → is_dict (foldl parsed ms mod_dirs).
Proof.
  revert ms. induction mod_dirs as [|d mod_dirs IH]; intros ms Hms; cbn [foldl]; [done|].
  apply IH. unfold parsed. destruct (ModInfo_init (name d)); [done|].
  by apply is_dict_set.
Qed.

Lemma parsed_keyed mod_dirs ms :
  keyed_by_folder_name ms → keyed_by_folder_name (foldl parsed ms mod_dirs).
Proof.
  revert ms. induction mod_dirs as [|d mod_dirs IH]; intros ms Hms; cbn [foldl]; [done|].
  apply IH. unfold parsed. destruct (ModInfo_init (name d)) as [|mod_info]; [done|].
  intros k m [[-> ->]|Hin]%elem_dict_set; [done|by apply Hms].
Qed.

(** The registry after a rescan is a dictionary keyed by folder name. *)
Lemma refresh_mod_list_registry s :
  let s' := final_state (refresh_mod_list s) in
  is_dict (mods s') ∧ keyed_by_folder_name (mods s').
Proof.
  destruct (refresh_mod_list_final s) as (s' & -> & Hmods & _). simpl.
  rewrite Hmods. split.
  - apply parsed_is_dict. apply NoDup_nil_2.
  - apply parsed_keyed. intros k m Hin. by apply elem_of_nil in Hin.
Qed.

Lemma load_mod_shows mod_item s :
  (∀ mod_info, ∃ item, ModTreeItem_init mod_info = inr item) →
  tree_shows_registry s → tree_shows_registry (final_state (load_mod mod_item s)).
Proof.
  intros Hitem Hs. unfold load_mod, tree_shows_registry, stored_names. run.
  destruct (ModInfo_init (name mod_item)) as [e|mod_info]; simpl; [done|].
  destruct (Hitem mod_info) as [item ->]. simpl. intros folder.
  rewrite elem_keys_dict_set, fmap_app, elem_of_app. simpl.
  intros [->|Hin]; [right; left|left; by apply Hs].
Qed.

Lemma load_mods_shows mod_dirs s :
  (∀ mod_info, ∃ item, ModTreeItem_init mod_info = inr item) →
  tree_shows_registry s → tree_shows_registry (load_mods mod_dirs s).
Proof.
  intros Hitem. unfold load_mods. revert s.
  induction mod_dirs as [|mod_item mod_dirs IH]; intros s Hs; cbn [foldl]; [done|].
  apply IH. by apply load_mod_shows.
Qed.

(** When every tree item can be built, the tree shows the whole registry
    after a rescan. *)
Lemma refresh_mod_list_tree s :
  (∀ mod_info, ∃ item, ModTreeItem_init mod_info = inr item) →
  tree_shows_registry (final_state (refresh_mod_list s)).
Proof using sortItems_perm.
  intros Hitem.
  assert (∀ s0 : State, mods s0 = [] → tree_shows_registry s0) as Hempty.
  { intros s0 Hs0 folder. rewrite Hs0. intros Hin. by apply elem_of_nil in Hin. }
  unfold refresh_mod_list, clear_mods. run.
  destruct (storage_path s) as [|e|entries]; simpl; try by apply Hempty.
  destruct (filter (λ d, is_dir d = true) entries) as [|d mod_dirs] eqn:Hdirs;
    [by apply Hempty|].
  rewrite <- Hdirs.
  destruct (sort_by_lower_name (filter (λ d, is_dir d = true) entries)) eqn:Hsorted.
  { apply sort_by_lower_name_nil in Hsorted. congruence. }
  rewrite <- Hsorted. rewrite for_each_returns by apply load_mod_returns. simpl.
  match goal with |- context [foldl _ ?s0 ?dirs] =>
    pose proof (load_mods_shows dirs s0 Hitem (Hempty s0 eq_refl)) as Hshown end.
  unfold load_mods in Hshown. intros folder Hin.
  unfold stored_names. simpl. rewrite sortItems_perm. by apply Hshown.
Qed.


(** * Further properties *)

(** ** The recompute as a function of flags and metadata *)

Lemma set_conflicts_forget c m1 m2 :
  set_conflicts ∅ m1 = set_conflicts ∅ m2 →
  set_conflicts c m1 = set_conflicts c m2 ∧
  metadata m1 = metadata m2 ∧ enabled m1 = enabled m2.
Proof. destruct m1, m2. unfold set_conflicts. simpl. by intros [= -> -> -> ->]. Qed.

Lemma forget_conflicts_Forall2 ms1 ms2 :
  forget_conflicts ms1 = forget_conflicts ms2 →
  Forall2 (λ e1 e2, e1.1 = e2.1 ∧ set_conflicts ∅ e1.2 = set_conflicts ∅ e2.2) ms1 ms2.
Proof.
  unfold forget_conflicts. revert ms2.
  induction ms1 as [|[k1 m1] ms1 IH]; intros [|[k2 m2] ms2]; simpl; try done.
  intros Heq.
  assert (Some (k1, set_conflicts ∅ m1) = Some (k2, set_conflicts ∅ m2)) as Hhd
    by exact (f_equal head Heq).
  apply (inj Some) in Hhd. constructor.
  - split; [exact (f_equal fst Hhd)|exact (f_equal snd Hhd)].
  - apply IH. exact (f_equal tail Heq).
Qed.

Lemma scan_step_metadata mod_name m1 m2 c other_name o1 o2 :
  metadata m1 = metadata m2 → metadata o1 = metadata o2 →
  scan_step mod_name m1 c (other_name, o1) = scan_step mod_name m2 c (other_name, o2).
Proof.
  intros Hm Ho. unfold scan_step, record_common_files. by rewrite Hm, Ho.
Qed.

Lemma scan_enabled_mods_forget mod_name m1 m2 ms1 ms2 :
  metadata m1 = metadata m2 →
  Forall2 (λ e1 e2, e1.1 = e2.1 ∧ set_conflicts ∅ e1.2 = set_conflicts ∅ e2.2) ms1 ms2 →
  scan_enabled_mods mod_name m1 (enabled_mods_of ms1)
  = scan_enabled_mods mod_name m2 (enabled_mods_of ms2).
Proof.
  intros Hm Hms. rewrite !scan_enabled_mods_foldl. generalize (∅ : gmap string string).
  unfold enabled_mods_of.
  induction Hms as [|[k1 o1] [k2 o2] ms1 ms2 [Hk Ho] _ IH]; intros c; [done|].
  simpl in Hk, Ho. subst k2.
  destruct (set_conflicts_forget ∅ _ _ Ho) as (_ & Hmeta & Hen).
  rewrite !filter_cons. simpl. rewrite Hen.
  destruct (decide (enabled o2 = true)); [|apply IH].
  cbn [foldl]. rewrite (scan_step_metadata _ m1 m2 _ _ o1 o2) by done. apply IH.
Qed.

Lemma update_conflicts_forget ms1 ms2 :
  forget_conflicts ms1 = forget_conflicts ms2 →
  update_conflicts ms1 = update_conflicts ms2.
Proof.
  intros Hall%forget_conflicts_Forall2.
  assert (∀ l1 l2,
    Forall2 (λ e1 e2, e1.1 = e2.1 ∧ set_conflicts ∅ e1.2 = set_conflicts ∅ e2.2) l1 l2 →
    (λ '(k, m), (k, updated_mod ms1 k m)) <$> l1
    = (λ '(k, m), (k, updated_mod ms2 k m)) <$> l2) as Hmap.
  { intros l1 l2 Hl.
    induction Hl as [|[k1 m1] [k2 m2] l1 l2 [Hk Hm] _ IH]; [done|].
    simpl in Hk, Hm. subst k2. rewrite !fmap_cons, IH. do 2 f_equal.
    unfold updated_mod.
    destruct (set_conflicts_forget ∅ _ _ Hm) as (_ & Hmeta & ->).
    destruct (enabled m2).
    - rewrite (scan_enabled_mods_forget _ m1 m2 ms1 ms2) by done.
      by apply set_conflicts_forget.
    - done. }
  by apply Hmap.
Qed.

Lemma forget_update_conflicts ms :
  forget_conflicts (update_conflicts ms) = forget_conflicts ms.
Proof.
  unfold forget_conflicts, update_conflicts. rewrite <- list_fmap_compose.
  apply list_fmap_ext. intros i [k m] _. simpl. by destruct (enabled m).
Qed.

(** Recomputing twice is recomputing once. *)
Lemma update_conflicts_idemp ms :
  update_conflicts (update_conflicts ms) = update_conflicts ms.
Proof. apply update_conflicts_forget, forget_update_conflicts. Qed.

(** X1.  The conflicts [_update_conflicts] computes depend on the keys, the
    enabled flags and the metadata of the registry only: two registries
    that differ at most in the conflicts maps they held before are the same
    registry after the recompute. *)
Theorem recompute_ignores_old_conflicts s1 s2 :
  forget_conflicts (mods s1) = forget_conflicts (mods s2) →
  mods (final_state (_update_conflicts s1)) = mods (final_state (_update_conflicts s2)).
Proof. simpl. apply update_conflicts_forget. Qed.

(** ** Every recorded conflict is a real one *)

Lemma update_conflicts_entry_origin ms a A k file :
  dict_get a (update_conflicts ms) = Some A →
  conflicts A !! k = Some file →
  enabled A = true ∧
  ∃ b B,
    b ≠ a ∧ (b, B) ∈ update_conflicts ms ∧ enabled B = true ∧ display_of B = k ∧
    file ∈ files_of A ∩ files_of B.
Proof using iter_and_perm.
  intros (A0 & HA & ->)%update_conflicts_inv.
  rewrite updated_mod_enabled, updated_mod_files. unfold updated_mod.
  destruct (enabled A0) eqn:HeA; simpl; [|by rewrite lookup_empty].
  rewrite scan_enabled_mods_foldl.
  intros [Hempty|(b & B0 & Hin & Hb & Hdisp & Hrep)]%scan_entry_origin;
    [by rewrite lookup_empty in Hempty|].
  split; [done|]. apply elem_enabled_mods_of in Hin as [Hin HeB].
  exists b, (updated_mod ms b B0).
  rewrite updated_mod_enabled, updated_mod_display, updated_mod_files.
  split_and!; try done.
  - unfold update_conflicts. apply list_elem_of_fmap. by exists (b, B0).
  - by apply representative_elem.
Qed.

(** X2.  After [_update_conflicts], an entry of a mod's conflicts map always
    comes from an overlap: the mod is enabled, and the registry has an
    enabled mod in another folder that carries the display name of the
    entry and affects the recorded file, as the mod itself does. *)
Theorem recorded_conflict_is_real s a A k file :
  let s' := final_state (_update_conflicts s) in
  dict_get a (mods s') = Some A →
  conflicts A !! k = Some file →
  enabled A = true ∧
  ∃ b B,
    b ≠ a ∧ (b, B) ∈ mods s' ∧ enabled B = true ∧ display_of B = k ∧
    file ∈ files_of A ∩ files_of B.
Proof using iter_and_perm. simpl. apply update_conflicts_entry_origin. Qed.

(** ** Toggling, enabling and disabling *)

(** X3.  [_on_mod_toggle] on an item of a mod of the registry writes the
    check box of the item into the enabled flag of that mod and into no
    other: the registry keeps its keys, every mod keeps its metadata, and
    every other mod keeps its flag; the tree is not touched. *)
Theorem toggle_sets_one_flag s item folder mod_ :
  data item = Some folder → folder ≠ "" →
  dict_get folder (mods s) = Some mod_ →
  let s' := final_state (_on_mod_toggle (Some item) 0 s) in
  keys (mods s') = keys (mods s) ∧ mod_tree s' = mod_tree s ∧
  (∃ mod', dict_get folder (mods s') = Some mod' ∧
           enabled mod' = is_checked item ∧ metadata mod' = metadata mod_) ∧
  ∀ other other_mod,
    other ≠ folder → dict_get other (mods s) = Some other_mod →
    ∃ other', dict_get other (mods s') = Some other' ∧
              enabled other' = enabled other_mod ∧
              metadata other' = metadata other_mod.
Proof.
  intros Hdata Hfolder Hget s'. subst s'.
  rewrite (toggle_known _ _ _ _ Hdata Hfolder Hget). simpl. split_and!.
  - rewrite update_conflicts_keys. by eapply keys_dict_set_present.
  - done.
  - eexists. rewrite update_conflicts_get, dict_get_set, decide_True by done.
    split; [done|]. by rewrite updated_mod_enabled, updated_mod_metadata.
  - intros other other_mod Hother Hget'. eexists.
    rewrite update_conflicts_get, dict_get_set, decide_False, Hget' by done.
    split; [done|]. by rewrite updated_mod_enabled, updated_mod_metadata.
Qed.

Lemma set_all_step_final c b i s :
  let s' := final_state (set_all_step c b i s) in
  mods s' = apply_flag b (mods s) (stored_names s !! i ≫= id) ∧
  stored_names s' = stored_names s.
Proof.
  unfold set_all_step, stored_names, apply_flag. run.
  rewrite list_lookup_fmap.
  destruct (mod_tree s !! i) as [item|] eqn:Hitem; simpl; [|done].
  destruct (data item) as [folder|] eqn:Hdata; simpl; [|done].
  destruct (dict_get folder (mods s)); simpl; [|done].
  split; [done|]. rewrite list_fmap_insert. apply list_insert_id.
  by rewrite list_lookup_fmap, Hitem.
Qed.

Lemma set_all_loop_final c b indices s :
  let s' := foldl (λ s i, final_state (set_all_step c b i s)) s indices in
  mods s' = foldl (apply_flag b) (mods s)
                  ((λ i, stored_names s !! i ≫= id) <$> indices) ∧
  stored_names s' = stored_names s.
Proof.
  revert s. induction indices as [|i indices IH]; intros s; cbn [foldl fmap list_fmap].
  - done.
  - destruct (set_all_step_final c b i s) as [Hmods Hnames].
    destruct (IH (final_state (set_all_step c b i s))) as [-> ->].
    by rewrite Hmods, Hnames.
Qed.

Lemma apply_flag_get b ms folder k :
  dict_get k (apply_flag b ms folder)
  = if decide (folder = Some k) then set_enabled b <$> dict_get k ms else dict_get k ms.
Proof.
  unfold apply_flag. destruct folder as [folder|]; [|by rewrite decide_False].
  destruct (decide (Some folder = Some k)) as [[= ->]|Hne].
  - destruct (dict_get k ms) eqn:Hk; [|by rewrite Hk].
    by rewrite dict_get_set, decide_True.
  - destruct (dict_get folder ms); [|done].
    rewrite dict_get_set, decide_False; [done|congruence].
Qed.

Lemma apply_flag_keys b ms folder : keys (apply_flag b ms folder) = keys ms.
Proof.
  unfold apply_flag. destruct folder as [folder|]; [|done].
  destruct (dict_get folder ms) eqn:Hget; [|done].
  by eapply keys_dict_set_present.
Qed.

Lemma apply_flag_all_get b folders ms k :
  dict_get k (foldl (apply_flag b) ms folders)
  = if decide (Some k ∈ folders) then set_enabled b <$> dict_get k ms
    else dict_get k ms.
Proof.
  revert ms. induction folders as [|folder folders IH]; intros ms; cbn [foldl].
  - rewrite decide_False; [done|apply not_elem_of_nil].
  - rewrite IH, !apply_flag_get.
    destruct (decide (folder = Some k)) as [->|Hne].
    + rewrite (decide_True (P := Some k ∈ Some k :: folders)) by left.
      case_decide; [|done]. by destruct (dict_get k ms).
    + case_decide as Hin.
      * rewrite decide_True; [done|by right].
      * rewrite decide_False; [done|]. rewrite not_elem_of_cons. by split.
Qed.

Lemma apply_flag_all_keys b folders ms :
  keys (foldl (apply_flag b) ms folders) = keys ms.
Proof.
  revert ms. induction folders as [|folder folders IH]; intros ms; cbn [foldl]; [done|].
  by rewrite IH, apply_flag_keys.
Qed.

(** The registry [enable_all_mods] and [disable_all_mods] leave. *)
Lemma set_all_mods_final c b msg s :
  ∃ s',
    (n ← childCount; for_each (seq 0 n) (set_all_step c b);;
     _update_conflicts;; logger_info msg) s = Return tt s' ∧
    mods s' = update_conflicts (foldl (apply_flag b) (mods s) (stored_names s)) ∧
    stored_names s' = stored_names s ∧
    game_mods_path s' = game_mods_path s.
Proof.
  unfold childCount, _update_conflicts. run.
  rewrite for_each_returns by apply set_all_step_returns.
  destruct (set_all_loop_final c b (seq 0 (length (mod_tree s))) s) as [Hmods Hnames].
  eexists. split; [done|]. simpl. rewrite Hmods.
  split; [|split; [apply Hnames|]].
  { replace (length (mod_tree s)) with (length (stored_names s))
      by (unfold stored_names; by rewrite length_fmap).
    by rewrite lookup_all. }
  match goal with |- game_mods_path (foldl ?f ?s0 ?l) = _ =>
    generalize l; generalize s0 end.
  intros s0 l. revert s0. induction l as [|i l IH]; intros s0; cbn [foldl]; [done|].
  rewrite IH. unfold set_all_step. run.
  destruct (mod_tree s0 !! i) as [item|]; simpl; [|done].
  destruct (data item); simpl; [|done].
  by destruct (dict_get _ (mods s0)).
Qed.

(** X4.  When every mod of the registry has its item in the tree,
    [enable_all_mods] leaves every mod enabled, with its metadata, under
    the same keys. *)
Theorem enable_all_enables_every_mod s :
  tree_shows_registry s →
  let s' := final_state (enable_all_mods s) in
  keys (mods s') = keys (mods s) ∧
  ∀ folder mod_,
    dict_get folder (mods s) = Some mod_ →
    ∃ mod', dict_get folder (mods s') = Some mod' ∧
            enabled mod' = true ∧ metadata mod' = metadata mod_.
Proof.
  intros Htree s'. subst s'. unfold enable_all_mods.
  destruct (set_all_mods_final Checked true "All mods enabled" s)
    as (s' & -> & Hmods & _). simpl. rewrite Hmods.
  split; [by rewrite update_conflicts_keys, apply_flag_all_keys|].
  intros folder mod_ Hget. eexists.
  rewrite update_conflicts_get, apply_flag_all_get, decide_True, Hget.
  - split; [done|]. by rewrite updated_mod_enabled, updated_mod_metadata.
  - apply Htree. apply dec_stable. intros Hnot%dict_get_None. congruence.
Qed.

(** X5.  When every mod of the registry has its item in the tree,
    [disable_all_mods] leaves every mod disabled and without conflicts,
    with its metadata, under the same keys. *)
Theorem disable_all_disables_every_mod s :
  tree_shows_registry s →
  let s' := final_state (disable_all_mods s) in
  keys (mods s') = keys (mods s) ∧
  ∀ folder mod_,
    dict_get folder (mods s) = Some mod_ →
    ∃ mod', dict_get folder (mods s') = Some mod' ∧
            enabled mod' = false ∧ conflicts mod' = ∅ ∧
            metadata mod' = metadata mod_.
Proof.
  intros Htree s'. subst s'. unfold disable_all_mods.
  destruct (set_all_mods_final Unchecked false "All mods disabled" s)
    as (s' & -> & Hmods & _). simpl. rewrite Hmods.
  split; [by rewrite update_conflicts_keys, apply_flag_all_keys|].
  intros folder mod_ Hget. eexists.
  rewrite update_conflicts_get, apply_flag_all_get, decide_True, Hget.
  - split; [done|]. rewrite updated_mod_enabled, updated_mod_metadata.
    split; [done|]. split; [|done]. unfold updated_mod. done.
  - apply Htree. apply dec_stable. intros Hnot%dict_get_None. congruence.
Qed.

(** ** The conflicts dialog *)

Lemma check_conflicts_step_cases folder_name mod_ conflicts other :
  (shares_file folder_name mod_ other ∧
   ∃ entry, check_conflicts_step folder_name mod_ conflicts other
            = (conflicts ++ [entry])%list) ∨
  (¬ shares_file folder_name mod_ other ∧
   check_conflicts_step folder_name mod_ conflicts other = conflicts).
Proof.
  unfold check_conflicts_step, shares_file. destruct other as [other_folder other_mod].
  simpl. destruct (String.eqb_spec other_folder folder_name) as [->|Hne]; simpl.
  { right. split; [|done]. by intros [? _]. }
  destruct (decide (files_of other_mod = ∅)) as [Hempty|_].
  { right. split; [|done]. intros [_ []]. simpl. rewrite Hempty. apply (right_absorb_L ∅ (∩)). }
  destruct (decide (files_of mod_ ∩ files_of other_mod = ∅)) as [Hcommon|Hcommon].
  - right. split; [|done]. by intros [_ []].
  - left. split; [done|]. by eexists.
Qed.

Lemma check_conflicts_loop folder_name mod_ ms conflicts :
  (Exists (shares_file folder_name mod_) ms ∧
   ∃ entry entries,
     foldl (check_conflicts_step folder_name mod_) conflicts ms
     = (conflicts ++ entry :: entries)%list) ∨
  (Forall (λ other, ¬ shares_file folder_name mod_ other) ms ∧
   foldl (check_conflicts_step folder_name mod_) conflicts ms = conflicts).
Proof.
  revert conflicts. induction ms as [|other ms IH]; intros conflicts; cbn [foldl].
  { right. by split. }
  destruct (check_conflicts_step_cases folder_name mod_ conflicts other)
    as [[Hshares [entry ->]]|[Hnot ->]].
  - left. split; [by left|].
    destruct (IH (conflicts ++ [entry])%list) as [[_ (e & es & ->)]|[_ ->]].
    + exists entry, (e :: es). by rewrite <-app_assoc.
    + by exists entry, [].
  - destruct (IH conflicts) as [[Hex Heq]|[Hall Heq]].
    + left. split; [by right|done].
    + right. split; [by constructor|done].
Qed.

(** What [_check_conflicts] shows for a mod of the registry with affected
    files. *)
Lemma check_conflicts_run s folder_name mod_ :
  dict_get folder_name (mods s) = Some mod_ →
  files_of mod_ ≠ ∅ →
  (Exists (shares_file folder_name mod_) (mods s) ∧
   ∃ text, _check_conflicts folder_name s
           = Return tt (add_box (conflicts_box mod_ text) s)) ∨
  (Forall (λ other, ¬ shares_file folder_name mod_ other) (mods s) ∧
   _check_conflicts folder_name s = Return tt (add_box (no_conflicts_box mod_) s)).
Proof.
  intros Hget Hfiles. unfold _check_conflicts. run. rewrite Hget.
  rewrite decide_False by done.
  destruct (check_conflicts_loop folder_name mod_ (mods s) [])
    as [[Hex (entry & entries & ->)]|[Hall ->]].
  - left. split; [done|]. simpl. by eexists.
  - by right.
Qed.

(** X6.  For a mod of the registry with affected files, [_check_conflicts]
    shows exactly one dialog and changes nothing else.  The dialog is the
    warning "Conflicts found ..." as soon as a mod in another folder of the
    registry, enabled or not, affects one of the mod's files, and the
    information "No conflicts found ..." when no other mod of the registry
    does. *)
Theorem check_conflicts_dialog s folder_name mod_ :
  dict_get folder_name (mods s) = Some mod_ →
  files_of mod_ ≠ ∅ →
  let s' := final_state (_check_conflicts folder_name s) in
  mods s' = mods s ∧ logger s' = logger s ∧
  (∀ other other_mod,
     (other, other_mod) ∈ mods s → other ≠ folder_name →
     files_of mod_ ∩ files_of other_mod ≠ ∅ →
     ∃ text, message_boxes s' = (message_boxes s ++ [conflicts_box mod_ text])%list) ∧
  ((∀ other other_mod,
      (other, other_mod) ∈ mods s → other ≠ folder_name →
      files_of mod_ ∩ files_of other_mod = ∅) →
   message_boxes s' = (message_boxes s ++ [no_conflicts_box mod_])%list).
Proof.
  intros Hget Hfiles s'. subst s'.
  destruct (check_conflicts_run s folder_name mod_ Hget Hfiles)
    as [[Hex [text ->]]|[Hall ->]]; simpl; split_and!; try done.
  - intros. by exists text.
  - intros Hnone. apply Exists_exists in Hex as ([other other_mod] & Hin & Hne & Hcommon).
    destruct Hcommon. by eapply Hnone.
  - intros other other_mod Hin Hne Hcommon.
    rewrite Forall_forall in Hall. destruct (Hall _ Hin). by split.
Qed.

Lemma check_conflicts_step_metadata folder_name mod1 mod2 conflicts k other1 other2 :
  metadata mod1 = metadata mod2 →
  metadata other1 = metadata other2 →
  check_conflicts_step folder_name mod1 conflicts (k, other1)
  = check_conflicts_step folder_name mod2 conflicts (k, other2).
Proof.
  intros Hmod Hother. unfold check_conflicts_step, files_of, display_of.
  by rewrite Hmod, Hother.
Qed.

Lemma metadata_of_Forall2 ms1 ms2 :
  metadata_of ms1 = metadata_of ms2 →
  Forall2 (λ x y, x.1 = y.1 ∧ metadata x.2 = metadata y.2) ms1 ms2.
Proof.
  revert ms2. induction ms1 as [|[k1 m1] ms1 IH]; intros [|[k2 m2] ms2]; try done.
  intros Heq.
  assert (Some (k1, metadata m1) = Some (k2, metadata m2)) as Hhd
    by exact (f_equal head Heq).
  apply (inj Some) in Hhd. constructor.
  - split; [exact (f_equal fst Hhd)|exact (f_equal snd Hhd)].
  - apply IH. exact (f_equal tail Heq).
Qed.

Lemma metadata_of_get ms1 ms2 k m1 :
  metadata_of ms1 = metadata_of ms2 →
  dict_get k ms1 = Some m1 →
  ∃ m2, dict_get k ms2 = Some m2 ∧ metadata m1 = metadata m2.
Proof.
  intros Hall%metadata_of_Forall2.
  induction Hall as [|[k1 a1] [k2 a2] ms1 ms2 [Hk Hm] _ IH]; [done|].
  simpl in Hk, Hm. subst k2. simpl.
  destruct (String.eqb k1 k); [|exact IH]. intros [= <-]. by exists a2.
Qed.

Lemma metadata_of_get_None ms1 ms2 k :
  metadata_of ms1 = metadata_of ms2 →
  dict_get k ms1 = None → dict_get k ms2 = None.
Proof.
  intros Hall%metadata_of_Forall2.
  induction Hall as [|[k1 a1] [k2 a2] ms1 ms2 [Hk Hm] _ IH]; [done|].
  simpl in Hk, Hm. subst k2. simpl. by destruct (String.eqb k1 k).
Qed.

Lemma check_conflicts_loop_metadata folder_name mod1 mod2 ms1 ms2 conflicts :
  metadata mod1 = metadata mod2 →
  metadata_of ms1 = metadata_of ms2 →
  foldl (check_conflicts_step folder_name mod1) conflicts ms1
  = foldl (check_conflicts_step folder_name mod2) conflicts ms2.
Proof.
  intros Hmod Hall%metadata_of_Forall2. revert conflicts.
  induction Hall as [|[k1 a1] [k2 a2] ms1 ms2 [Hk Hm] _ IH]; intros conflicts; [done|].
  simpl in Hk, Hm. subst k2. cbn [foldl].
  by rewrite (check_conflicts_step_metadata _ mod1 mod2 _ _ a1 a2), IH.
Qed.

(** X7.  The dialog of [_check_conflicts] is a function of the folder names
    and the metadata of the registry alone: on two registries that differ
    only in the enabled flags, the conflicts maps or the paths of the mods it
    shows the same dialog and logs the same line. *)
Theorem check_conflicts_ignores_enabled s1 s2 folder_name :
  metadata_of (mods s1) = metadata_of (mods s2) →
  message_boxes s1 = message_boxes s2 →
  logger s1 = logger s2 →
  let s1' := final_state (_check_conflicts folder_name s1) in
  let s2' := final_state (_check_conflicts folder_name s2) in
  message_boxes s1' = message_boxes s2' ∧ logger s1' = logger s2'.
Proof.
  intros Hmeta Hboxes Hlog. unfold _check_conflicts. run.
  destruct (dict_get folder_name (mods s1)) as [mod1|] eqn:Hget.
  - destruct (metadata_of_get _ _ _ _ Hmeta Hget) as (mod2 & -> & Hmod).
    unfold files_of, display_of. rewrite <-Hmod.
    destruct (decide (affected_files (metadata mod1) = ∅)); simpl.
    { by rewrite Hboxes, Hlog. }
    rewrite <-(check_conflicts_loop_metadata folder_name mod1 mod2 _ _ [] Hmod Hmeta).
    destruct (foldl _ _ _); simpl; by rewrite Hboxes, Hlog.
  - rewrite (metadata_of_get_None _ _ _ Hmeta Hget). simpl.
    by rewrite Hboxes, Hlog.
Qed.

(** X8.  What the tree shows and what the dialog says agree in one
    direction: a mod that holds a conflict entry after [_update_conflicts]
    gets the warning "Conflicts found ..." from [_check_conflicts]. *)
Theorem recorded_conflict_is_reported s folder_name mod_ :
  let s' := final_state (_update_conflicts s) in
  dict_get folder_name (mods s') = Some mod_ →
  conflicts mod_ ≠ ∅ →
  ∃ text,
    message_boxes (final_state (_check_conflicts folder_name s'))
    = (message_boxes s' ++ [conflicts_box mod_ text])%list.
Proof using iter_and_perm.
  simpl. intros Hget [k [file Hentry]]%map_choose.
  destruct (update_conflicts_entry_origin _ _ _ _ _ Hget Hentry)
    as (_ & b & B & Hb & Hin & _ & _ & Hfile).
  set (s' := set_mods update_conflicts s).
  destruct (check_conflicts_run s' folder_name mod_ Hget)
    as [[_ [text ->]]|[Hall _]].
  - intros Hempty. apply elem_of_intersection in Hfile as [Hfile _].
    rewrite Hempty in Hfile. by apply not_elem_of_empty in Hfile.
  - by exists text.
  - rewrite Forall_forall in Hall. destruct (Hall _ Hin). split; [done|].
    simpl. intros Hempty. rewrite Hempty in Hfile.
    by apply not_elem_of_empty in Hfile.
Qed.

(** X9.  [_check_conflicts] only reports: for every folder name it returns
    without raising and leaves the registry, the tree and the three
    directories as they are.  For a folder of the registry it shows exactly
    one dialog and logs nothing; for any other folder name it shows no
    dialog and logs one warning. *)
Theorem check_conflicts_read_only s folder_name :
  ∃ s',
    _check_conflicts folder_name s = Return tt s' ∧
    mods s' = mods s ∧ mod_tree s' = mod_tree s ∧
    storage_path s' = storage_path s ∧ game_mods_path s' = game_mods_path s ∧
    profiles_path s' = profiles_path s ∧
    (folder_name ∈ keys (mods s) →
     logger s' = logger s ∧
     ∃ box, message_boxes s' = (message_boxes s ++ [box])%list) ∧
    (folder_name ∉ keys (mods s) →
     message_boxes s' = message_boxes s ∧
     logger s' = (logger s ++ [(WARNING, ("Mod not found: " ++ folder_name)%string)])%list).
Proof.
  unfold _check_conflicts. run.
  destruct (dict_get folder_name (mods s)) as [mod_|] eqn:Hget.
  - assert (folder_name ∉ keys (mods s) → False) as Hin
      by (intros Hnot%dict_get_None; congruence).
    destruct (decide (files_of mod_ = ∅)); [|destruct (foldl _ _ _)];
      (eexists; split; [done|]; simpl; split_and!; try done;
       first [intros _; split; [done|by eexists] | intros Hnot; by destruct Hin]).
  - apply dict_get_None in Hget.
    eexists. split; [done|]. simpl. split_and!; try done.
Qed.

(** ** Deployment: what it leaves alone, and what a failed clearing leaves *)

Lemma keeps_library_refl s : keeps_library s s.
Proof. by repeat split. Qed.

Lemma keeps_library_trans s1 s2 s3 :
  keeps_library s1 s2 → keeps_library s2 s3 → keeps_library s1 s3.
Proof.
  intros (H1 & H2 & H3 & H4) (H1' & H2' & H3' & H4').
  repeat split; congruence.
Qed.

Lemma for_each_keeps_library {A} (body : A → M unit) l s :
  (∀ x s, keeps_library s (final_state (body x s))) →
  keeps_library s (final_state (for_each l body s)).
Proof.
  intros Hbody. revert s. induction l as [|x l IH]; intros s; cbn [for_each].
  { apply keeps_library_refl. }
  unfold mbind, M_bind. specialize (Hbody x s).
  destruct (body x s) as [[] s1|e s1]; [|done].
  eapply keeps_library_trans; [exact Hbody|apply IH].
Qed.

Lemma remove_item_keeps_library item s :
  keeps_library s (final_state (remove_item item s)).
Proof.
  destruct item as [item_name node]. unfold remove_item. run.
  destruct (if node_is_dir node then rmtree item_name else unlink item_name);
    [apply keeps_library_refl|].
  destruct (game_mods_path s); by repeat split.
Qed.

Lemma deploy_mod_keeps_library entry s :
  keeps_library s (final_state (deploy_mod entry s)).
Proof.
  destruct entry as [mod_name mod_]. unfold deploy_mod, copytree. run.
  destruct (game_mods_path s); try by repeat split.
  destruct (bool_decide _); [by repeat split|].
  destruct (copytree_result (path mod_)) as [|e []]; by repeat split.
Qed.

(** X10.  [deploy_mods] never lets an exception escape and writes to the
    game directory only: the registry, the tree, the storage and the
    profiles are as before, whatever the file operations do.  When the user
    answers No, or the game directory does not exist, the game directory is
    as before too. *)
Theorem deploy_touches_only_game_directory reply s :
  ∃ s',
    deploy_mods reply s = Return tt s' ∧ keeps_library s s' ∧
    (reply = No ∨ game_mods_path s = Missing → game_mods_path s' = game_mods_path s).
Proof.
  unfold deploy_mods. run.
  destruct (game_mods_path s) as [|e|old] eqn:Hgm; simpl.
  - eexists. split; [done|]. split; [by repeat split|]. simpl. by rewrite Hgm.
  - destruct reply; simpl.
    + rewrite Hgm. simpl. eexists. split; [done|].
      split; [by repeat split|]. by intros [|].
    + eexists. split; [done|]. split; [by repeat split|]. simpl. by rewrite Hgm.
  - destruct reply; simpl.
    2:{ eexists. split; [done|]. split; [by repeat split|]. simpl. by rewrite Hgm. }
    rewrite Hgm. simpl.
    match goal with |- context [for_each old remove_item ?s0] =>
      pose proof (for_each_keeps_library remove_item old s0
                    remove_item_keeps_library) as Hclear;
      destruct (for_each old remove_item s0) as [[] s1|e s1] end;
      unfold keeps_library in Hclear; simpl in Hclear.
    2:{ eexists. split; [done|]. split; [|by intros [|]].
        destruct Hclear as (? & ? & ? & ?). by repeat split. }
    match goal with |- context [for_each ?l deploy_mod s1] =>
      pose proof (for_each_keeps_library deploy_mod l s1
                    deploy_mod_keeps_library) as Hcopy;
      destruct (for_each l deploy_mod s1) as [[] s2|e s2] end;
      unfold keeps_library in Hcopy; simpl in Hcopy.
    all: eexists; (split; [done|]); (split; [|by intros [|]]).
    all: destruct Hclear as (? & ? & ? & ?), Hcopy as (? & ? & ? & ?).
    all: repeat split; simpl; congruence.
Qed.

Lemma filter_all_in {A} (P : A → Prop) `{∀ x, Decision (P x)} (l : list A) :
  (∀ x, x ∈ l → P x) → filter P l = l.
Proof.
  induction l as [|x l IH]; intros HP; [done|].
  rewrite filter_cons_True by (apply HP; left).
  f_equal. apply IH. intros y Hy. apply HP. by right.
Qed.

(** The clearing loop when the removal of one entry fails: the entries
    before it are gone, the entry itself and those after it stay. *)
Lemma clear_loop_fails before item after e s entries :
  game_mods_path s = Listing entries →
  Forall (λ i, remove_result i = None) before →
  remove_result item = Some e →
  ∃ s',
    for_each (before ++ item :: after) remove_item s = Raise e s' ∧
    game_mods_path s' = Listing (filter (λ entry, entry.1 ∉ before.*1) entries) ∧
    message_boxes s' = message_boxes s.
Proof.
  intros Hgm Hbefore Hitem. revert s entries Hgm.
  induction Hbefore as [|item1 before Hitem1 _ IH]; intros s entries Hgm.
  - cbn [app for_each]. unfold mbind, M_bind.
    rewrite (remove_item_run _ _ _ Hgm), Hitem. eexists. split; [done|].
    rewrite filter_all by (intros; apply not_elem_of_nil). done.
  - cbn [app for_each]. unfold mbind, M_bind.
    rewrite (remove_item_run _ _ _ Hgm), Hitem1.
    edestruct IH as (s' & -> & Hgm' & Hboxes); [done|].
    eexists. split; [done|]. rewrite Hgm', Hboxes. split; [|done].
    f_equal. rewrite list_filter_filter. apply list_filter_iff.
    intros entry. simpl. rewrite not_elem_of_cons.
    split; intros [? ?]; by split.
Qed.

(** X11.  When the removal of an entry of the game directory fails during
    the clearing, [deploy_mods] stops there: the entries listed before it
    are gone, the failing entry and all entries after it are still in the
    game directory, no mod is copied, and the error is logged and shown in
    a "Deploy Error" box. *)
Theorem deploy_clear_failure s before item after e :
  game_mods_path s = Listing (before ++ item :: after)%list →
  NoDup (before ++ item :: after)%list.*1 →
  Forall (λ i, remove_result i = None) before →
  remove_result item = Some e →
  let s' := final_state (deploy_mods Yes s) in
  game_mods_path s' = Listing (item :: after) ∧
  last (logger s') = Some (ERROR, "Failed to deploy mods: " ++ str e) ∧
  last (message_boxes s')
  = Some (Critical "Deploy Error" ("Failed to deploy mods: " ++ str e)).
Proof.
  intros Hgm Hnd Hbefore Hitem. unfold deploy_mods. run. rewrite Hgm. simpl.
  rewrite Hgm. simpl.
  match goal with |- context [for_each _ remove_item ?s0] =>
    destruct (clear_loop_fails before item after e s0 _ Hgm Hbefore Hitem)
      as (s1 & -> & Hgm1 & _) end.
  simpl. rewrite !last_snoc, Hgm1. split; [|done]. f_equal.
  rewrite fmap_app in Hnd. apply NoDup_app in Hnd as (_ & Hdisj & _).
  rewrite filter_app, (filter_own_names before), app_nil_l.
  apply filter_all_in. intros entry Hin Hbef. apply (Hdisj _ Hbef).
  apply list_elem_of_fmap. by exists entry.
Qed.

(** ** Deployment: when it completes *)

Lemma copy_loop_succeeds enabled_mods s entries :
  game_mods_path s = Listing entries →
  NoDup (entries.*1 ++ keys enabled_mods) →
  Forall (λ entry, copytree_result (path entry.2) = Copied) enabled_mods →
  ∃ s',
    for_each enabled_mods deploy_mod s = Return tt s' ∧
    game_mods_path s' = Listing (entries ++ (deployed_entry <$> enabled_mods)) ∧
    mods s' = mods s ∧ message_boxes s' = message_boxes s.
Proof.
  intros Hgm Hnd Hcopied. revert s entries Hgm Hnd.
  induction Hcopied as [|[mod_name mod_] enabled_mods Hcopy _ IH];
    intros s entries Hgm Hnd.
  - simpl. eexists. split; [done|]. by rewrite app_nil_r.
  - cbn [for_each]. unfold mbind, M_bind. rewrite (deploy_mod_run _ _ _ _ Hgm).
    simpl in Hcopy. rewrite Hcopy.
    unfold keys in Hnd. rewrite fmap_cons in Hnd. simpl in Hnd.
    rewrite bool_decide_eq_false_2.
    2:{ apply NoDup_app in Hnd as (_ & Hdisj & _). intros Hin.
        apply (Hdisj _ Hin). left. }
    edestruct (IH (set_game_mods_path
                     (Listing (entries ++ [deployed_entry (mod_name, mod_)]))
                     (add_log INFO ("Deploying mod: " ++ mod_name) s)))
      as (s' & -> & Hgm' & Hmods & Hboxes); [done| |].
    { rewrite fmap_app. simpl. rewrite <-app_assoc. exact Hnd. }
    eexists. split; [done|]. rewrite Hgm', Hmods, Hboxes, <-app_assoc. done.
Qed.

(** A run of [deploy_mods] in which every file operation succeeds. *)
Lemma deploy_run s old :
  game_mods_path s = Listing old →
  is_dict (mods s) →
  Forall (λ item, remove_result item = None) old →
  Forall (λ entry, copytree_result (path entry.2) = Copied) (enabled_mods_of (mods s)) →
  ∃ s',
    deploy_mods Yes s = Return tt s' ∧
    game_mods_path s' = Listing (deployed_entry <$> enabled_mods_of (mods s)) ∧
    mods s' = mods s ∧
    last (message_boxes s')
    = Some (Information "Deploy Complete"
              (deploy_success_msg (length (enabled_mods_of (mods s))))).
Proof.
  intros Hgm Hdict Hold Hcopied. unfold deploy_mods. run. rewrite Hgm. simpl.
  rewrite Hgm. simpl.
  match goal with |- context [for_each old remove_item ?s0] =>
    pose proof (clear_loop old s0 old Hgm) as Hclear;
    destruct (for_each old remove_item s0) as [[] s1|e s1] end.
  2:{ destruct Hclear as [Hex _]. apply Exists_exists in Hex as (item & Hin & He).
      rewrite Forall_forall in Hold. rewrite (Hold _ Hin) in He. done. }
  destruct Hclear as [_ ->]. rewrite filter_own_names.
  fold (enabled_mods_of (mods s)).
  match goal with |- context [for_each _ deploy_mod ?s1] =>
    destruct (copy_loop_succeeds (enabled_mods_of (mods s)) s1 []) as
      (s2 & -> & Hgm2 & Hmods2 & _) end; [done| |done|].
  { simpl. by apply is_dict_enabled_mods_of. }
  eexists. split; [done|]. simpl. by rewrite Hgm2, Hmods2, last_snoc.
Qed.

(** X12.  When the registry is a dictionary (no folder name twice), every
    entry of the game directory can be removed and the copy of every
    enabled mod succeeds, [deploy_mods] completes: it never stops on an
    existing destination, the game directory holds one copy per enabled mod
    under the mod's key, in registry order, and the "Deploy Complete" box
    gives the number of enabled mods. *)
Theorem deploy_succeeds s old :
  game_mods_path s = Listing old →
  is_dict (mods s) →
  Forall (λ item, remove_result item = None) old →
  Forall (λ entry, copytree_result (path entry.2) = Copied) (enabled_mods_of (mods s)) →
  let s' := final_state (deploy_mods Yes s) in
  game_mods_path s'
  = Listing ((λ entry, (entry.1, DeployedCopy (path entry.2)))
             <$> enabled_mods_of (mods s)) ∧
  last (message_boxes s')
  = Some (Information "Deploy Complete"
            (deploy_success_msg (length (enabled_mods_of (mods s))))).
Proof.
  intros Hgm Hdict Hold Hcopied.
  destruct (deploy_run s old Hgm Hdict Hold Hcopied) as (s' & -> & Hgm' & _ & Hbox).
  by split.
Qed.

(** X13.  Deploying twice is deploying once: after a deploy in which every
    file operation succeeded, a second deploy (the copies can be removed,
    [copytree] succeeds as before) completes and leaves the game directory
    as the first one left it. *)
Theorem deploy_twice s old :
  game_mods_path s = Listing old →
  is_dict (mods s) →
  Forall (λ item, remove_result item = None) old →
  Forall (λ entry, copytree_result (path entry.2) = Copied) (enabled_mods_of (mods s)) →
  Forall (λ entry, rmtree entry.1 = None) (enabled_mods_of (mods s)) →
  let s1 := final_state (deploy_mods Yes s) in
  let s2 := final_state (deploy_mods Yes s1) in
  game_mods_path s2 = game_mods_path s1 ∧ deploy_completed s2.
Proof.
  intros Hgm Hdict Hold Hcopied Hremovable.
  destruct (deploy_run s old Hgm Hdict Hold Hcopied) as (s1 & -> & Hgm1 & Hmods1 & _).
  simpl.
  destruct (deploy_run s1 _ Hgm1) as (s2 & -> & Hgm2 & _ & Hbox).
  - by rewrite Hmods1.
  - rewrite Forall_fmap. eapply Forall_impl; [exact Hremovable|]. by intros [? ?].
  - by rewrite Hmods1.
  - simpl. rewrite Hgm2, Hgm1, Hmods1. split; [done|]. by eexists.
Qed.

Lemma disable_all_none_enabled s :
  is_dict (mods s) → tree_shows_registry s →
  let s' := final_state (disable_all_mods s) in
  enabled_mods_of (mods s') = [] ∧ is_dict (mods s') ∧
  game_mods_path s' = game_mods_path s.
Proof.
  intros Hdict Htree. unfold disable_all_mods.
  destruct (set_all_mods_final Unchecked false "All mods disabled" s)
    as (s' & -> & Hmods & _ & Hgm). simpl.
  assert (keys (mods s') = keys (mods s)) as Hkeys
    by (by rewrite Hmods, update_conflicts_keys, apply_flag_all_keys).
  assert (is_dict (mods s')) as Hdict' by (unfold is_dict; by rewrite Hkeys).
  split; [|done]. apply elem_of_nil_inv.
  intros [k m] [Hin He]%elem_enabled_mods_of.
  apply elem_dict_get in Hin; [|done]. rewrite Hmods in Hin.
  rewrite update_conflicts_get, apply_flag_all_get in Hin.
  assert (k ∈ keys (mods s)) as Hk.
  { rewrite <-Hkeys. apply dec_stable. intros Hnot%dict_get_None.
    rewrite Hmods, update_conflicts_get, apply_flag_all_get in Hnot. congruence. }
  rewrite decide_True in Hin by by apply Htree.
  destruct (dict_get k (mods s)) as [m0|]; [|done].
  simpl in Hin. injection Hin as <-. by rewrite updated_mod_enabled in He.
Qed.

(** X14.  When the registry is a dictionary whose mods all have their item
    in the tree, [disable_all_mods] followed by a deploy in which every
    entry of the game directory can be removed leaves the game directory
    empty, and says so in the "Deploy Complete" box.  (A mod without an
    item is not reached by [disable_all_mods] and would be deployed.) *)
Theorem disable_all_then_deploy_empties s old :
  is_dict (mods s) → tree_shows_registry s →
  game_mods_path s = Listing old →
  Forall (λ item, remove_result item = None) old →
  let s1 := final_state (disable_all_mods s) in
  let s2 := final_state (deploy_mods Yes s1) in
  game_mods_path s2 = Listing [] ∧
  last (message_boxes s2)
  = Some (Information "Deploy Complete" "Successfully deployed 0 mods to game directory").
Proof.
  intros Hdict Htree Hgm Hold.
  destruct (disable_all_none_enabled s Hdict Htree) as (Hnone & Hdict1 & Hgm1).
  simpl. rewrite Hgm in Hgm1.
  destruct (deploy_run _ old Hgm1 Hdict1 Hold) as (s2 & -> & Hgm2 & _ & Hbox).
  - by rewrite Hnone.
  - simpl. by rewrite Hgm2, Hbox, Hnone.
Qed.

(** ** The rescan: order, exactness, and the tree *)

Lemma ascii_compare_lt_trans a b c :
  Ascii.compare a b = Lt → Ascii.compare b c = Lt → Ascii.compare a c = Lt.
Proof. unfold Ascii.compare. rewrite !N.compare_lt_iff. apply N.lt_trans. Qed.

Lemma string_compare_lt_trans a b c :
  String.compare a b = Lt → String.compare b c = Lt → String.compare a c = Lt.
Proof.
  revert b c. induction a as [|x a IH]; intros [|y b] [|z c]; simpl; try done.
  destruct (Ascii.compare x y) eqn:Hxy; try done.
  - apply Ascii.compare_eq_iff in Hxy as ->.
    destruct (Ascii.compare y z); try done. apply IH.
  - destruct (Ascii.compare y z) eqn:Hyz; try done.
    + apply Ascii.compare_eq_iff in Hyz as <-. by rewrite Hxy.
    + by rewrite (ascii_compare_lt_trans _ _ _ Hxy Hyz).
Qed.

Lemma ltb_false_trans x y z :
  String.ltb y x = false → String.ltb z y = false → String.ltb z x = false.
Proof.
  unfold String.ltb.
  rewrite (String.compare_antisym y x), (String.compare_antisym z y),
    (String.compare_antisym z x).
  destruct (String.compare x y) eqn:Hxy; simpl; try done;
    destruct (String.compare y z) eqn:Hyz; simpl; try done; intros _ _.
  - apply String.compare_eq_iff in Hxy as ->. by rewrite Hyz.
  - apply String.compare_eq_iff in Hxy as ->. by rewrite Hyz.
  - apply String.compare_eq_iff in Hyz as <-. by rewrite Hxy.
  - by rewrite (string_compare_lt_trans _ _ _ Hxy Hyz).
Qed.

Lemma ltb_asym x y : String.ltb x y = true → String.ltb y x = false.
Proof.
  unfold String.ltb. rewrite (String.compare_antisym y x).
  by destruct (String.compare x y).
Qed.

Lemma lower_le_trans a b c : lower_le a b → lower_le b c → lower_le a c.
Proof. unfold lower_le. apply ltb_false_trans. Qed.

Lemma StronglySorted_sublist {A} (R : relation A) l k :
  sublist l k → StronglySorted R k → StronglySorted R l.
Proof.
  induction 1 as [|x l k Hsub IH|x l k Hsub IH]; intros Hk; [done|..].
  - apply StronglySorted_inv in Hk as [Hk Hall]. constructor; [by apply IH|].
    rewrite Forall_forall in Hall. apply Forall_forall. intros y Hy.
    apply Hall. by eapply elem_of_sublist.
  - apply StronglySorted_inv in Hk as [Hk _]. by apply IH.
Qed.

Lemma insert_sorted_sorted x l :
  StronglySorted (λ d1 d2, lower_le (name d1) (name d2)) l →
  StronglySorted (λ d1 d2, lower_le (name d1) (name d2)) (insert_sorted x l).
Proof.
  induction l as [|y l IH]; simpl; intros Hl.
  { by repeat constructor. }
  apply StronglySorted_inv in Hl as [Hl Hy].
  destruct (String.ltb (lower (name x)) (lower (name y))) eqn:Hxy.
  - apply ltb_asym in Hxy. constructor; [by constructor|].
    constructor; [exact Hxy|].
    eapply Forall_impl; [exact Hy|]. intros z Hz. simpl in Hz.
    by eapply lower_le_trans.
  - constructor; [by apply IH|].
    rewrite insert_sorted_perm. by constructor.
Qed.

Lemma sort_by_lower_name_sorted l :
  StronglySorted (λ d1 d2, lower_le (name d1) (name d2)) (sort_by_lower_name l).
Proof.
  unfold sort_by_lower_name.
  assert (∀ sorted,
            StronglySorted (λ d1 d2, lower_le (name d1) (name d2)) sorted →
            StronglySorted (λ d1 d2, lower_le (name d1) (name d2))
              (foldl (λ sorted x, insert_sorted x sorted) sorted l)) as Hfold.
  { induction l as [|x l IH]; intros sorted Hsorted; cbn [foldl]; [done|].
    by apply IH, insert_sorted_sorted. }
  apply Hfold. constructor.
Qed.

Lemma keys_dict_set {V} k (v : V) d :
  keys (dict_set k v d) = if decide (k ∈ keys d) then keys d else (keys d ++ [k])%list.
Proof.
  unfold keys. induction d as [|[k' v'] d IH].
  { rewrite decide_False; [done|apply not_elem_of_nil]. }
  cbn [dict_set]. destruct (String.eqb_spec k' k) as [->|Hne].
  - rewrite decide_True; [done|]. rewrite fmap_cons. left.
  - rewrite !fmap_cons, IH. cbn [fst]. destruct (decide (k ∈ d.*1)) as [Hin|Hnot].
    + rewrite decide_True; [done|by right].
    + rewrite decide_False; [done|]. rewrite not_elem_of_cons. by split.
Qed.

(** The keys the loop of the rescan appends, in the order of the loop. *)
Lemma keys_parsed_sublist mod_dirs ms :
  ∃ new, sublist new (name <$> mod_dirs) ∧
         keys (foldl parsed ms mod_dirs) = (keys ms ++ new)%list.
Proof using ModInfo_folder_name.
  revert ms. induction mod_dirs as [|d mod_dirs IH]; intros ms; cbn [foldl].
  { exists []. split; [done|]. by rewrite app_nil_r. }
  destruct (IH (parsed ms d)) as (new & Hsub & ->).
  unfold parsed. destruct (ModInfo_init (name d)) as [e|mod_info] eqn:Hinit.
  - exists new. split; [|done]. rewrite fmap_cons. by apply sublist_cons.
  - rewrite keys_dict_set, (ModInfo_folder_name _ _ Hinit).
    destruct (decide (name d ∈ keys ms)).
    + exists new. split; [|done]. rewrite fmap_cons. by apply sublist_cons.
    + exists (name d :: new). split; [|by rewrite <-app_assoc].
      rewrite fmap_cons. by apply sublist_skip.
Qed.

(** X15.  After [refresh_mod_list] the registry is in the order of the
    rescan: its keys are ascending in the folder name as [str.lower] gives
    it, for whatever [str.lower] does to a name, whatever the order of the
    directory listing and whatever the registry was. *)
Theorem rescan_registry_order s :
  StronglySorted lower_le (keys (mods (final_state (refresh_mod_list s)))).
Proof using ModInfo_folder_name.
  destruct (refresh_mod_list_final s) as (s' & -> & Hmods & _). simpl.
  rewrite Hmods.
  destruct (keys_parsed_sublist (mod_dirs_of (storage_path s)) []) as (new & Hsub & ->).
  simpl. eapply StronglySorted_sublist; [exact Hsub|].
  eapply StronglySorted_fmap; [|destruct (storage_path s); simpl;
    [constructor|constructor|apply sort_by_lower_name_sorted]].
  done.
Qed.

Lemma elem_mod_dirs_of sp d :
  d ∈ mod_dirs_of sp ↔ ∃ entries, sp = Listing entries ∧ d ∈ entries ∧ is_dir d = true.
Proof.
  destruct sp as [|e|entries]; simpl.
  - split; [by intros ?%elem_of_nil|by intros (? & [=] & _)].
  - split; [by intros ?%elem_of_nil|by intros (? & [=] & _)].
  - rewrite sort_by_lower_name_perm, list_elem_of_filter. split.
    + intros [? ?]. by exists entries.
    + by intros (? & [= <-] & ? & ?).
Qed.

(** X16.  After [refresh_mod_list] the registry holds nothing but the
    storage: every key is the name of a directory listed in the storage
    directory, and the record under it is the one [ModInfo] builds for that
    directory.  Files, and records of the registry before the rescan, are
    not in it. *)
Theorem rescan_registry_is_storage s folder mod_ :
  dict_get folder (mods (final_state (refresh_mod_list s))) = Some mod_ →
  ∃ entries,
    storage_path s = Listing entries ∧
    mkDirEntry folder true ∈ entries ∧
    ModInfo_init folder = inr mod_.
Proof using ModInfo_folder_name.
  destruct (refresh_mod_list_final s) as (s' & -> & Hmods & _). simpl.
  rewrite Hmods.
  rewrite parsed_lookup. case_decide as Hin; [|done].
  apply list_elem_of_fmap in Hin as ([dname ddir] & -> & Hd).
  apply elem_mod_dirs_of in Hd as (entries & Hsp & Hd & Hdir).
  simpl in *. subst ddir.
  destruct (ModInfo_init dname) as [e|mod_info]; [done|].
  intros [= ->]. by exists entries.
Qed.

(** X17.  A storage directory that is missing, cannot be listed, or lists
    no directory empties the registry and the tree: [refresh_mod_list]
    returns without raising and leaves both empty, whatever they held. *)
Theorem rescan_without_directories s :
  (∀ entries, storage_path s = Listing entries →
              Forall (λ d, is_dir d = false) entries) →
  ∃ s', refresh_mod_list s = Return tt s' ∧ mods s' = [] ∧ mod_tree s' = [].
Proof.
  intros Hnone. unfold refresh_mod_list, clear_mods. run.
  destruct (storage_path s) as [|e|entries] eqn:Hsp; simpl.
  - by eexists.
  - by eexists.
  - assert (filter (λ d, is_dir d = true) entries = []) as ->.
    { apply elem_of_nil_inv. intros d [Hdir Hin]%list_elem_of_filter.
      specialize (Hnone _ eq_refl). rewrite Forall_forall in Hnone.
      rewrite (Hnone _ Hin) in Hdir. done. }
    by eexists.
Qed.

Lemma load_mod_tree mod_item s :
  mod_tree (final_state (load_mod mod_item s))
  = (mod_tree s ++ option_list (shown mod_item))%list.
Proof.
  unfold load_mod, shown. run.
  destruct (ModInfo_init (name mod_item)) as [e|mod_info]; simpl;
    [by rewrite app_nil_r|].
  destruct (ModTreeItem_init mod_info); simpl; [by rewrite app_nil_r|done].
Qed.

Lemma load_mods_tree mod_dirs s :
  mod_tree (load_mods mod_dirs s) = (mod_tree s ++ omap shown mod_dirs)%list.
Proof.
  unfold load_mods. revert s.
  induction mod_dirs as [|mod_item mod_dirs IH]; intros s; cbn [foldl].
  { by rewrite app_nil_r. }
  rewrite IH, load_mod_tree. simpl.
  destruct (shown mod_item); simpl; by rewrite <-app_assoc.
Qed.

(** The tree [refresh_mod_list] leaves: the items of the loop, in the order
    [sortItems] gives them. *)
Lemma refresh_mod_list_items s :
  mod_tree (final_state (refresh_mod_list s))
  ≡ₚ omap shown (mod_dirs_of (storage_path s)).
Proof using sortItems_perm.
  unfold refresh_mod_list, clear_mods. run.
  destruct (storage_path s) as [|e|entries] eqn:Hsp; simpl; [done..|].
  destruct (filter (λ d, is_dir d = true) entries) as [|d mod_dirs] eqn:Hdirs.
  { done. }
  rewrite <- Hdirs.
  destruct (sort_by_lower_name (filter (λ d, is_dir d = true) entries)) eqn:Hsorted.
  { apply sort_by_lower_name_nil in Hsorted. congruence. }
  rewrite <- Hsorted. rewrite for_each_returns by apply load_mod_returns.
  simpl. rewrite sortItems_perm.
  match goal with |- context [foldl _ ?s0 ?l] =>
    pose proof (load_mods_tree l s0) as Htree end.
  unfold load_mods in Htree. by rewrite Htree.
Qed.

Lemma elem_shown item (mod_dirs : list DirEntry) :
  item ∈ omap shown mod_dirs →
  ∃ d mod_info tree_item,
    d ∈ mod_dirs ∧ ModInfo_init (name d) = inr mod_info ∧
    ModTreeItem_init mod_info = inr tree_item ∧
    item = setData (name d) tree_item.
Proof using ModInfo_folder_name.
  intros (d & Hd & Hshown)%list_elem_of_omap. unfold shown in Hshown.
  destruct (ModInfo_init (name d)) as [e|mod_info] eqn:Hinit; [done|].
  destruct (ModTreeItem_init mod_info) as [e|tree_item] eqn:Hitem; [done|].
  injection Hshown as <-. exists d, mod_info, tree_item.
  by rewrite (ModInfo_folder_name _ _ Hinit).
Qed.

(** X18.  After [refresh_mod_list] every item of the tree belongs to a mod
    of the registry: it stores a folder name, the registry has a record
    under that name, and the item is the one [ModTreeItem] built for that
    record. *)
Theorem rescan_tree_items_are_mods s item :
  let s' := final_state (refresh_mod_list s) in
  item ∈ mod_tree s' →
  ∃ folder mod_ tree_item,
    data item = Some folder ∧
    dict_get folder (mods s') = Some mod_ ∧
    ModTreeItem_init mod_ = inr tree_item ∧
    checkState item = checkState tree_item.
Proof using sortItems_perm ModInfo_folder_name.
  simpl. rewrite refresh_mod_list_items.
  intros (d & mod_info & tree_item & Hd & Hinit & Hitem & ->)%elem_shown.
  exists (name d), mod_info, tree_item. split_and!; try done.
  destruct (refresh_mod_list_final s) as (s' & -> & Hmods & _). simpl.
  rewrite Hmods.
  by eapply parsed_parseable.
Qed.

(** X19.  When [ModInfo] accepts a directory of the storage but
    [ModTreeItem] raises for its record, [refresh_mod_list] still keeps the
    record: the mod is in the registry, no item of the tree stores its
    folder name, and the error is logged. *)
Theorem rescan_item_failure s entries folder mod_ e :
  storage_path s = Listing entries →
  mkDirEntry folder true ∈ entries →
  ModInfo_init folder = inr mod_ →
  ModTreeItem_init mod_ = inl e →
  let s' := final_state (refresh_mod_list s) in
  dict_get folder (mods s') = Some mod_ ∧
  (Some folder ∉ stored_names s') ∧
  (ERROR, "Error loading mod " ++ folder ++ ": " ++ str e) ∈ logger s'.
Proof using sortItems_perm ModInfo_folder_name.
  intros Hsp Hin Hinit Hitem. simpl.
  assert (mkDirEntry folder true ∈ mod_dirs_of (storage_path s)) as Hloaded.
  { apply elem_mod_dirs_of. by exists entries. }
  split_and!.
  - destruct (refresh_mod_list_final s) as (s' & -> & Hmods & _). simpl.
    rewrite Hmods.
    by apply (parsed_parseable _ _ (mkDirEntry folder true)).
  - unfold stored_names. rewrite refresh_mod_list_items.
    intros (item & Hdata & Hshown)%list_elem_of_fmap.
    apply elem_shown in Hshown as (d & mod_info & tree_item & _ & Hinit' & Hitem' & ->).
    simpl in Hdata. assert (name d = folder) as Hname by congruence.
    rewrite Hname in Hinit'. congruence.
  - destruct (refresh_mod_list_final s) as (s' & -> & _ & _ & Hlog). simpl.
    destruct (Hlog _ Hsp) as [before ->]. apply elem_of_app. right.
    apply list_elem_of_fmap. exists (mkDirEntry folder true). split; [|done].
    unfold load_mod_log. simpl. by rewrite Hinit, Hitem.
Qed.

(** ** Profiles: what saving and a failed load leave alone *)


(** X21.  A load that does not reach the profile data changes nothing in
    the registry or in the tree: when the dialog is cancelled or gives no
    name, when the file [name.json] is not there, and when its contents do
    not parse, [load_profile] returns without raising and leaves both as
    they were. *)
Theorem load_profile_failure_keeps_state name ok s :
  ok = false ∨ name = "" ∨
  profiles_path s !! (name ++ ".json") = None ∨
  (∃ e, profiles_path s !! (name ++ ".json") = Some (Malformed e)) →
  ∃ s',
    load_profile name ok s = Return tt s' ∧
    mods s' = mods s ∧ mod_tree s' = mod_tree s.
Proof.
  intros Hfails. unfold load_profile. run.
  destruct (list_profiles (profiles_path s)); [by eexists|].
  destruct (negb ok || String.eqb name "") eqn:Hguard; [by eexists|].
  apply orb_false_elim in Hguard as [Hok Hname].
  apply negb_false_iff in Hok. apply String.eqb_neq in Hname.
  destruct Hfails as [->|[->|[Hfile|[e Hfile]]]]; try done.
  - rewrite Hfile. by eexists.
  - rewrite Hfile. simpl. by eexists.
Qed.

Lemma dict_set_same {V} k (v : V) d : dict_get k d = Some v → dict_set k v d = d.
Proof.
  induction d as [|[k' v'] d IH]; simpl; [done|].
  destruct (String.eqb_spec k' k) as [->|Hne].
  - by intros [= ->].
  - intros Hget. by rewrite IH.
Qed.

Lemma set_enabled_same mod_ : set_enabled (enabled mod_) mod_ = mod_.
Proof. by destruct mod_. Qed.

(** A registry whose flags already are those of the profile is a fixed
    point of the loop of [load_profile]. *)
Lemma apply_profile_fixed profile_data ms folders :
  (∀ k b mod_, Some k ∈ folders → profile_data !! k = Some b →
               dict_get k ms = Some mod_ → enabled mod_ = b) →
  foldl (apply_profile profile_data) ms folders = ms.
Proof.
  induction folders as [|folder folders IH]; intros Hflags; cbn [foldl]; [done|].
  assert (apply_profile profile_data ms folder = ms) as ->.
  { unfold apply_profile. destruct folder as [k|]; [|done].
    destruct (profile_data !! k) as [b|] eqn:Hb; [|done].
    destruct (dict_get k ms) as [mod_|] eqn:Hget; [|done].
    rewrite <-(Hflags k b mod_); [|left|done..].
    rewrite set_enabled_same. by apply dict_set_same. }
  apply IH. intros k b mod_ Hin. apply Hflags. by right.
Qed.

Lemma load_profile_loop_profiles profile_data indices s :
  profiles_path (foldl (λ s i, final_state (load_profile_step profile_data i s))
                       s indices)
  = profiles_path s.
Proof.
  revert s. induction indices as [|i indices IH]; intros s; cbn [foldl]; [done|].
  rewrite IH. unfold load_profile_step. run.
  destruct (mod_tree s !! i) as [item|]; simpl; [|done].
  destruct (data item) as [folder|]; simpl; [|done].
  destruct (profile_data !! folder); simpl; [|done].
  by destruct (dict_get folder (mods s)).
Qed.

(** X22.  When every mod of the registry has its item in the tree, loading
    a profile twice is loading it once: the second [load_profile] of the
    same file leaves the registry of the first. *)
Theorem load_profile_twice name profile_data s :
  tree_shows_registry s →
  name ≠ "" →
  profiles_path s !! (name ++ ".json") = Some (JsonObject profile_data) →
  let s1 := final_state (load_profile name true s) in
  let s2 := final_state (load_profile name true s1) in
  mods s2 = mods s1.
Proof.
  intros _ Hname Hfile.
  rewrite (load_profile_loaded _ _ _ Hname Hfile). simpl.
  match goal with |- context [foldl _ ?s0 (seq 0 (length (mod_tree s)))] =>
    destruct (load_profile_loop_final profile_data (seq 0 (length (mod_tree s))) s0)
      as [Hmods1 Hnames1];
    pose proof (load_profile_loop_profiles profile_data
                  (seq 0 (length (mod_tree s))) s0) as Hfiles1;
    set (s1 := foldl (λ s i, final_state (load_profile_step profile_data i s)) s0
                     (seq 0 (length (mod_tree s)))) in * end.
  simpl in Hmods1, Hnames1, Hfiles1.
  assert (length (mod_tree s1) = length (mod_tree s)) as Hlen.
  { apply (f_equal length) in Hnames1. unfold stored_names in Hnames1.
    by rewrite !length_fmap in Hnames1. }
  rewrite load_profile_loaded with (profile_data := profile_data);
    [|done|simpl; by rewrite Hfiles1].
  simpl. rewrite Hlen.
  match goal with |- context [foldl _ ?s0 (seq 0 (length (mod_tree s)))] =>
    destruct (load_profile_loop_final profile_data (seq 0 (length (mod_tree s))) s0)
      as [Hmods2 _] end.
  rewrite Hmods2. clear Hmods2. simpl.
  unfold stored_names in *. simpl in *. rewrite Hnames1.
  replace (length (mod_tree s)) with (length (data <$> mod_tree s)) in *
    by (by rewrite length_fmap).
  rewrite lookup_all in *. rewrite Hmods1.
  rewrite apply_profile_fixed; [apply update_conflicts_idemp|].
  intros k b mod_ Hin Hb. rewrite update_conflicts_get, apply_profile_all_get.
  rewrite decide_True, Hb by done.
  destruct (dict_get k (mods s)) as [mod0|]; [|done]. simpl.
  intros [= <-]. by rewrite updated_mod_enabled.
Qed.

(** ** Uninstall *)

Lemma load_mods_frame mod_dirs s :
  game_mods_path (load_mods mod_dirs s) = game_mods_path s ∧
  profiles_path (load_mods mod_dirs s) = profiles_path s.
Proof.
  unfold load_mods. revert s.
  induction mod_dirs as [|mod_item mod_dirs IH]; intros s; cbn [foldl]; [done|].
  destruct (IH (final_state (load_mod mod_item s))) as [-> ->].
  unfold load_mod. run.
  destruct (ModInfo_init (name mod_item)) as [e|mod_info]; simpl; [done|].
  by destruct (ModTreeItem_init mod_info).
Qed.

(** [refresh_mod_list] reads the storage and writes the registry and the
    tree; the game directory and the profiles are not its business. *)
Lemma refresh_mod_list_frame s :
  game_mods_path (final_state (refresh_mod_list s)) = game_mods_path s ∧
  profiles_path (final_state (refresh_mod_list s)) = profiles_path s.
Proof.
  unfold refresh_mod_list, clear_mods. run.
  destruct (storage_path s) as [|e|entries] eqn:Hsp; simpl; [done..|].
  destruct (filter (λ d, is_dir d = true) entries) as [|d mod_dirs] eqn:Hdirs; [done|].
  rewrite <- Hdirs.
  destruct (sort_by_lower_name (filter (λ d, is_dir d = true) entries)) eqn:Hsorted.
  { apply sort_by_lower_name_nil in Hsorted. congruence. }
  rewrite <- Hsorted. rewrite for_each_returns by apply load_mod_returns. simpl.
  match goal with |- context [foldl _ ?s0 ?l] =>
    destruct (load_mods_frame l s0) as [Hgm Hprofiles] end.
  unfold load_mods in Hgm, Hprofiles. by rewrite Hgm, Hprofiles.
Qed.

(** X23.  When the user confirms and [shutil.rmtree] succeeds,
    [_uninstall_mod] rescans: the registry afterwards is the one
    [refresh_mod_list] builds from the storage [rmtree] left ([ModInfo]
    reading the directories as before), so the mod is out of the registry
    as soon as its directory is out of the listing.
    The game directory and the profiles are not touched: a deployed copy
    of the mod stays, and so do the profiles that name it. *)
Theorem uninstall_rescans s folder mod_ sp' :
  dict_get folder (mods s) = Some mod_ →
  rmtree_storage (path mod_) (storage_path s) = (None, sp') →
  let s' := final_state (_uninstall_mod folder Yes s) in
  storage_path s' = sp' ∧
  mods s' = foldl parsed [] (mod_dirs_of sp') ∧
  ((∀ entries, sp' = Listing entries → mkDirEntry folder true ∉ entries) →
   dict_get folder (mods s') = None) ∧
  game_mods_path s' = game_mods_path s ∧
  profiles_path s' = profiles_path s.
Proof using ModInfo_folder_name.
  intros Hget Hrm. unfold _uninstall_mod, rmtree_mod_path. run.
  rewrite Hget. simpl. rewrite Hrm. simpl.
  match goal with |- context [refresh_mod_list ?s0] =>
    destruct (refresh_mod_list_final s0) as (s' & Hrun & Hmods & Hsp & _);
    pose proof (refresh_mod_list_frame s0) as Hframe;
    rewrite Hrun in *
  end.
  simpl in *. rewrite Hsp, Hmods. destruct Hframe as [-> ->].
  split_and!; try done.
  intros Hgone. rewrite parsed_lookup. case_decide as Hin; [|done].
  apply list_elem_of_fmap in Hin as ([dname ddir] & -> & Hd).
  apply elem_mod_dirs_of in Hd as (entries & -> & Hd & Hdir).
  simpl in *. subst ddir. by destruct (Hgone _ eq_refl).
Qed.

(** X24.  [_uninstall_mod] without a successful removal keeps the registry
    and the tree: for a folder name that is not in the registry it does
    nothing at all; when the user answers No, and when [shutil.rmtree]
    raises, it does not rescan, so the mod stays listed, and a failure is
    shown in a box. *)
Theorem uninstall_failure_keeps_registry s folder reply :
  reply = No ∨ dict_get folder (mods s) = None ∨
  (∃ mod_ e, dict_get folder (mods s) = Some mod_ ∧
             (rmtree_storage (path mod_) (storage_path s)).1 = Some e) →
  ∃ s',
    _uninstall_mod folder reply s = Return tt s' ∧
    mods s' = mods s ∧ mod_tree s' = mod_tree s ∧
    game_mods_path s' = game_mods_path s ∧
    (dict_get folder (mods s) = None → s' = s) ∧
    (∀ mod_ e, reply = Yes → dict_get folder (mods s) = Some mod_ →
               (rmtree_storage (path mod_) (storage_path s)).1 = Some e →
               last (message_boxes s')
               = Some (Critical "Error" ("Failed to uninstall mod: " ++ str e))).
Proof.
  intros Hfails. unfold _uninstall_mod, rmtree_mod_path. run.
  destruct (dict_get folder (mods s)) as [mod_|] eqn:Hget; simpl.
  2:{ eexists. split; [done|]. by split_and!. }
  destruct reply; simpl.
  2:{ eexists. split; [done|]. simpl. by split_and!. }
  destruct Hfails as [?|[?|(mod' & e & [= <-] & Hrm)]]; try done.
  destruct (rmtree_storage (path mod_) (storage_path s)) as [error sp'] eqn:Hrs.
  simpl in Hrm. subst error. simpl.
  eexists. split; [done|]. simpl. split_and!; try done.
  intros mod' e' _ [= <-] Heq. rewrite Hrs in Heq. simpl in Heq.
  injection Heq as <-. by rewrite last_snoc.
Qed.

(** ** Sorting by a column *)

(** X25.  Two clicks on the header of a valid column: after each the
    current column is the clicked one; the first click on a column other
    than the current one sorts ascending; the second click reverses the
    order of the first, and when the column was the current one already it
    restores the sort state.  The registry is not touched. *)
Theorem handle_sort_twice column sort s :
  (0 ≤ column)%Z →
  ∃ sort1 s1 sort2 s2,
    _handle_sort column sort s = Return sort1 s1 ∧
    _handle_sort column sort1 s1 = Return sort2 s2 ∧
    _current_sort_column sort1 = column ∧ _current_sort_column sort2 = column ∧
    (_current_sort_column sort ≠ column → _current_sort_order sort1 = AscendingOrder) ∧
    _current_sort_order sort2 ≠ _current_sort_order sort1 ∧
    (_current_sort_column sort = column → sort2 = sort) ∧
    mods s2 = mods s ∧
    mod_tree s2
    = sortItems_by column (_current_sort_order sort2)
        (sortItems_by column (_current_sort_order sort1) (mod_tree s)).
Proof.
  intros Hcolumn. unfold _handle_sort.
  assert ((column <? 0)%Z = false) as -> by (by apply Z.ltb_ge).
  run. destruct sort as [current order]. simpl.
  destruct (Z.eqb_spec current column) as [->|Hne]; simpl.
  - do 4 eexists. split; [done|]. simpl. rewrite Z.eqb_refl. simpl.
    split; [done|]. simpl. destruct order; split_and!; done.
  - do 4 eexists. split; [done|]. simpl. rewrite Z.eqb_refl. simpl.
    split; [done|]. simpl. split_and!; done.
Qed.

(** ** The check boxes after enabling or disabling all *)

Lemma set_all_step_boxes c b i handled s :
  boxes_set c b handled s →
  boxes_set c b (i :: handled) (final_state (set_all_step c b i s)).
Proof.
  intros Hdone. unfold set_all_step. run.
  destruct (mod_tree s !! i) as [item|] eqn:Hitem; simpl.
  2:{ intros j item' folder [->|Hj]%elem_of_cons Hitem'; [congruence|].
      by apply (Hdone j). }
  destruct (data item) as [folder|] eqn:Hdata; simpl.
  2:{ intros j item' folder [->|Hj]%elem_of_cons Hitem' Hdata'; [congruence|].
      by apply (Hdone j). }
  destruct (dict_get folder (mods s)) as [mod_|] eqn:Hget; simpl.
  2:{ intros j item' folder' [->|Hj]%elem_of_cons Hitem' Hdata' Hin.
      - assert (item' = item) as -> by congruence.
        assert (folder' = folder) as -> by congruence.
        apply dict_get_None in Hget. by destruct Hget.
      - by apply (Hdone j). }
  intros j item' folder' Hj Hitem' Hdata' Hin. simpl in *.
  rewrite (keys_dict_set_present _ _ _ _ Hget) in Hin.
  assert (∃ item0, data item' = data item0 ∧
                   (j = i ∨ (j ∈ handled ∧ mod_tree s !! j = Some item0 ∧
                             checkState item' = checkState item0)) ∧
                   (j = i → item' = setCheckState c item)) as (item0 & Hd0 & Hcase & Hi).
  { destruct (decide (j = i)) as [->|Hne].
    - rewrite list_lookup_insert_eq in Hitem' by (by eapply lookup_lt_Some).
      injection Hitem' as <-. exists item. split; [done|]. split; [by left|done].
    - rewrite list_lookup_insert_ne in Hitem' by done.
      exists item'. split; [done|]. split; [|done]. right.
      apply elem_of_cons in Hj as [?|?]; [done|]. by split. }
  rewrite dict_get_set.
  destruct (decide (folder' = folder)) as [->|Hfolder].
  - split; [|by eexists].
    destruct Hcase as [->|(Hj' & Hitem0 & ->)]; [by rewrite (Hi eq_refl)|].
    destruct (Hdone j item0 folder Hj' Hitem0) as [Hc _]; [congruence|done|done].
  - destruct Hcase as [->|(Hj' & Hitem0 & ->)].
    + rewrite (Hi eq_refl) in Hdata'. simpl in Hdata'. congruence.
    + eapply Hdone; [exact Hj'|exact Hitem0|congruence|done].
Qed.

Lemma set_all_loop_boxes c b indices handled s :
  boxes_set c b handled s →
  boxes_set c b (reverse indices ++ handled)
    (foldl (λ s i, final_state (set_all_step c b i s)) s indices).
Proof.
  revert handled s. induction indices as [|i indices IH]; intros handled s Hdone;
    cbn [foldl]; [done|].
  rewrite reverse_cons, <-app_assoc. apply IH. by apply set_all_step_boxes.
Qed.

Lemma set_all_mods_boxes c b msg s :
  let s' := final_state
              ((n ← childCount; for_each (seq 0 n) (set_all_step c b);;
                _update_conflicts;; logger_info msg) s) in
  stored_names s' = stored_names s ∧
  ∀ item folder mod_,
    item ∈ mod_tree s' → data item = Some folder →
    dict_get folder (mods s') = Some mod_ →
    checkState item = c ∧ enabled mod_ = b.
Proof.
  unfold childCount, _update_conflicts. run.
  rewrite for_each_returns by apply set_all_step_returns. simpl.
  destruct (set_all_loop_final c b (seq 0 (length (mod_tree s))) s) as [_ Hnames].
  split; [exact Hnames|].
  pose proof (set_all_loop_boxes c b (seq 0 (length (mod_tree s))) [] s) as Hboxes.
  set (s1 := foldl (λ s i, final_state (set_all_step c b i s)) s
                   (seq 0 (length (mod_tree s)))) in *.
  intros item folder mod_ [i Hi]%list_elem_of_lookup Hdata.
  rewrite update_conflicts_get.
  destruct (dict_get folder (mods s1)) as [mod1|] eqn:Hget; [|done].
  simpl. intros [= <-]. rewrite updated_mod_enabled.
  destruct (Hboxes (λ _ _ _ H, False_ind _ (not_elem_of_nil _ H)) i item folder)
    as (Hc & mod' & Hget' & Hb); try done.
  - rewrite app_nil_r, elem_of_reverse, elem_of_seq. split; [lia|]. simpl.
    assert (length (mod_tree s1) = length (mod_tree s)) as <-.
    { apply (f_equal length) in Hnames. unfold stored_names in Hnames.
      by rewrite !length_fmap in Hnames. }
    by eapply lookup_lt_Some.
  - apply dec_stable. intros Hnot%dict_get_None. congruence.
  - split; [done|]. congruence.
Qed.

(** X26.  When every mod of the registry has its item in the tree, the
    tree and the registry agree after [enable_all_mods] (and after
    [disable_all_mods]): the items store the folder names they stored, and
    every item whose folder name is in the registry is checked (unchecked)
    while its mod is enabled (disabled). *)
Theorem set_all_boxes_agree (b : bool) s :
  tree_shows_registry s →
  let s' := final_state (if b then enable_all_mods s else disable_all_mods s) in
  stored_names s' = stored_names s ∧
  ∀ item folder mod_,
    item ∈ mod_tree s' → data item = Some folder →
    dict_get folder (mods s') = Some mod_ →
    checkState item = (if b then Checked else Unchecked) ∧ enabled mod_ = b.
Proof.
  intros _. destruct b.
  - apply (set_all_mods_boxes Checked true "All mods enabled").
  - apply (set_all_mods_boxes Unchecked false "All mods disabled").
Qed.

(** ** Installing the archives of a folder *)

Lemma installs_only_refl s : installs_only s s.
Proof. by repeat split. Qed.

Lemma installs_only_trans s1 s2 s3 :
  installs_only s1 s2 → installs_only s2 s3 → installs_only s1 s3.
Proof.
  intros (H1 & H2 & H3 & H4 & H5) (H1' & H2' & H3' & H4' & H5').
  repeat split; congruence.
Qed.

(** The [try] block leaves [mod_name] without a truth value whenever it
    raises, so the [except] block only logs and counts. *)
Lemma install_failed_run file_path mod_name e count s :
  truthy mod_name = false →
  install_failed file_path mod_name e count s
  = Return (mkInstallCount (successful_installs count)
              (failed_installs count ++ [(path_name file_path, str e)]))
           (add_log ERROR ("Failed to install " ++ path_name file_path ++ ": " ++ str e) s).
Proof. intros Hfalse. unfold install_failed. run. by rewrite Hfalse. Qed.

Lemma extract_archive_installs_only file_path s :
  installs_only s (final_state (extract_archive file_path s)).
Proof.
  unfold extract_archive. run.
  destruct (get_archive_type file_path) as [e|archive_type]; simpl;
    [by repeat split|].
  destruct (is_format_supported archive_type) as [e|[]]; simpl;
    [by repeat split| |by repeat split].
  destruct (extract_mod_folder file_path (storage_path s)) as [[e|mod_name] sp'];
    simpl; by repeat split.
Qed.

Lemma install_one_run file_path count s :
  ∃ count' s',
    install_one file_path count s = Return count' s' ∧
    installs_only s s' ∧
    (count' = mkInstallCount (S (successful_installs count)) (failed_installs count) ∨
     ∃ e, count' = mkInstallCount (successful_installs count)
                     (failed_installs count ++ [(path_name file_path, str e)])).
Proof.
  unfold install_one, attempt. unfold mbind at 1, M_bind at 1.
  pose proof (extract_archive_installs_only file_path s) as Hextract.
  destruct (extract_archive file_path s) as [mod_name s1|e s1]; simpl in Hextract.
  - unfold mbind, M_bind, count_install.
    destruct (truthy mod_name) eqn:Htruthy; simpl.
    + run. eexists _, _. split; [done|]. split; [|by left].
      destruct Hextract as (? & ? & ? & ? & ?). by repeat split.
    + unfold raise. rewrite install_failed_run by done.
      eexists _, _. split; [done|]. split; [|right; by eexists].
      destruct Hextract as (? & ? & ? & ? & ?). by repeat split.
  - rewrite install_failed_run by done.
    eexists _, _. split; [done|]. split; [|right; by eexists].
    destruct Hextract as (? & ? & ? & ? & ?). by repeat split.
Qed.

(** X27.  The loop of [install_mod_folder] handles every archive on its own:
    it never raises, whatever [ArchiveHandler] does, and every archive is
    counted once, as a success or with a line in the failures; the
    successes never go down.  It changes the storage and the log only. *)
Theorem install_all_counts mod_files count s :
  ∃ count' s',
    install_all mod_files count s = Return count' s' ∧
    (successful_installs count' + length (failed_installs count')
     = successful_installs count + length (failed_installs count)
       + length mod_files)%nat ∧
    (successful_installs count ≤ successful_installs count')%nat ∧
    installs_only s s'.
Proof.
  revert count s. induction mod_files as [|file_path mod_files IH]; intros count s.
  { eexists _, _. split; [done|]. split; [simpl; lia|].
    split; [done|apply installs_only_refl]. }
  cbn [install_all]. unfold mbind, M_bind.
  destruct (install_one_run file_path count s) as (count1 & s1 & -> & Hs1 & Hcount1).
  destruct (IH count1 s1) as (count' & s' & -> & Htotal & Hmono & Hs').
  eexists _, _. split; [done|]. split_and!.
  - destruct Hcount1 as [->|[e ->]]; simpl in *;
      rewrite ?length_app in *; simpl in *; lia.
  - destruct Hcount1 as [->|[e ->]]; simpl in *; lia.
  - by eapply installs_only_trans.
Qed.


(** ** The check boxes after loading a profile *)

Lemma load_profile_step_shown profile_data i handled s :
  profile_shown profile_data handled s →
  profile_shown profile_data (i :: handled)
    (final_state (load_profile_step profile_data i s)).
Proof.
  intros Hdone. unfold load_profile_step. run.
  destruct (mod_tree s !! i) as [item|] eqn:Hitem; simpl.
  2:{ intros j item' folder b [->|Hj]%elem_of_cons Hitem'; [congruence|].
      by apply (Hdone j). }
  destruct (data item) as [folder|] eqn:Hdata; simpl.
  2:{ intros j item' folder b [->|Hj]%elem_of_cons Hitem' Hdata'; [congruence|].
      by apply (Hdone j). }
  destruct (profile_data !! folder) as [b0|] eqn:Hb0; simpl.
  2:{ intros j item' folder' b [->|Hj]%elem_of_cons Hitem' Hdata' Hb;
        [congruence|by apply (Hdone j)]. }
  assert (∀ (j : nat) (item' : TreeItem) (folder' : string) (b : bool),
            j ∈ i :: handled →
            <[i:=setCheckState (if b0 then Checked else Unchecked) item]>
              (mod_tree s) !! j = Some item' →
            data item' = Some folder' → profile_data !! folder' = Some b →
            checkState item' = (if b then Checked else Unchecked) ∧
            (folder' ≠ folder →
             ∀ mod_, dict_get folder' (mods s) = Some mod_ → enabled mod_ = b) ∧
            (folder' = folder → b = b0)) as Htree.
  { intros j item' folder' b Hj Hitem' Hdata' Hb.
    destruct (decide (j = i)) as [->|Hne].
    - rewrite list_lookup_insert_eq in Hitem' by (by eapply lookup_lt_Some).
      injection Hitem' as <-. simpl in Hdata'.
      assert (folder' = folder) as -> by congruence.
      assert (b = b0) as -> by congruence. by split_and!.
    - rewrite list_lookup_insert_ne in Hitem' by done.
      apply elem_of_cons in Hj as [?|Hj]; [done|].
      destruct (Hdone j item' folder' b Hj Hitem' Hdata' Hb) as [Hc Hflag].
      split_and!; [done|by intros _|]. intros ->. congruence. }
  destruct (dict_get folder (mods s)) as [mod0|] eqn:Hget; simpl.
  - intros j item' folder' b Hj Hitem' Hdata' Hb. simpl in *.
    destruct (Htree j item' folder' b Hj Hitem' Hdata' Hb) as (Hc & Hother & Hsame).
    split; [done|]. intros mod_. rewrite dict_get_set.
    destruct (decide (folder' = folder)) as [->|Hfolder].
    + intros [= <-]. simpl. by rewrite (Hsame eq_refl).
    + by apply Hother.
  - intros j item' folder' b Hj Hitem' Hdata' Hb. simpl in *.
    destruct (Htree j item' folder' b Hj Hitem' Hdata' Hb) as (Hc & Hother & Hsame).
    split; [done|]. intros mod_ Hmod.
    destruct (decide (folder' = folder)) as [->|Hfolder]; [congruence|].
    by apply Hother.
Qed.

Lemma load_profile_loop_shown profile_data indices handled s :
  profile_shown profile_data handled s →
  profile_shown profile_data (reverse indices ++ handled)
    (foldl (λ s i, final_state (load_profile_step profile_data i s)) s indices).
Proof.
  revert handled s. induction indices as [|i indices IH]; intros handled s Hdone;
    cbn [foldl]; [exact Hdone|].
  rewrite reverse_cons, <-app_assoc. apply IH. by apply load_profile_step_shown.
Qed.

(** X30.  When every mod of the registry has its item in the tree: after a
    profile was loaded, every item of the tree whose folder name is in the
    profile shows the flag of the profile, whether the registry has a mod
    of that name or not, and the mod, when there is one, carries the same
    flag; the items store the folder names they stored. *)
Theorem load_profile_boxes_agree name profile_data s :
  tree_shows_registry s →
  name ≠ "" →
  profiles_path s !! (name ++ ".json") = Some (JsonObject profile_data) →
  let s' := final_state (load_profile name true s) in
  stored_names s' = stored_names s ∧
  ∀ (item : TreeItem) (folder : string) (b : bool),
    item ∈ mod_tree s' → data item = Some folder →
    profile_data !! folder = Some b →
    checkState item = (if b then Checked else Unchecked) ∧
    ∀ mod_, dict_get folder (mods s') = Some mod_ → enabled mod_ = b.
Proof.
  intros _ Hname Hfile. rewrite (load_profile_loaded _ _ _ Hname Hfile). simpl.
  match goal with |- context [foldl _ ?s0 (seq 0 (length (mod_tree s)))] =>
    destruct (load_profile_loop_final profile_data (seq 0 (length (mod_tree s))) s0)
      as [_ Hnames];
    pose proof (load_profile_loop_shown profile_data
                  (seq 0 (length (mod_tree s))) [] s0) as Hshown;
    set (s1 := foldl (λ s i, final_state (load_profile_step profile_data i s)) s0
                     (seq 0 (length (mod_tree s)))) in * end.
  split; [exact Hnames|].
  intros item folder b [i Hi]%list_elem_of_lookup Hdata Hb.
  destruct (Hshown (λ _ _ _ _ H, False_ind _ (not_elem_of_nil _ H)) i item folder b)
    as [Hc Hflag]; try done.
  { rewrite app_nil_r, elem_of_reverse, elem_of_seq. split; [lia|]. simpl.
    assert (length (mod_tree s1) = length (mod_tree s)) as <-.
    { apply (f_equal length) in Hnames. unfold stored_names in Hnames.
      by rewrite !length_fmap in Hnames. }
    by eapply lookup_lt_Some. }
  split; [done|]. intros mod_. rewrite update_conflicts_get.
  destruct (dict_get folder (mods s1)) as [mod1|] eqn:Hget; [|done].
  simpl. intros [= <-]. rewrite updated_mod_enabled. by apply Hflag.
Qed.

End engine.

(** * The cleanup of a failed installation *)

Section cleanup.

Variable ModInfo_init : string → exn + ModInfo.
Variable ModTreeItem_init : ModInfo → exn + TreeItem.
Variable sortItems : list TreeItem → list TreeItem.
Variable lower : string → string.
Variable path_exists path_is_dir : string → bool.
Variable path_name storage_child : string → string.
Variable glob : string → string → exn + list string.
Variable sorted_paths : list string → list string.
Variable get_archive_type : string → exn + option string.
Variable is_format_supported : option string → exn + bool.
Variable extract_mod_folder :
  string → Dir DirEntry → (exn + option string) * Dir DirEntry.

(** Two behaviours of [shutil.rmtree]. *)
Variable rmtree1 rmtree2 : string → Dir DirEntry → option exn * Dir DirEntry.

Lemma install_one_cleanup file_path count s :
  install_one rmtree1 path_name get_archive_type is_format_supported
    extract_mod_folder storage_child file_path count s
  = install_one rmtree2 path_name get_archive_type is_format_supported
      extract_mod_folder storage_child file_path count s.
Proof.
  unfold install_one, attempt. unfold mbind at 1 3, M_bind at 1 3.
  destruct (extract_archive _ _ _ _ file_path s) as [mod_name s1|e s1].
  - unfold mbind, M_bind, count_install.
    destruct (truthy mod_name) eqn:Htruthy; simpl; [done|].
    unfold raise. by rewrite !install_failed_run.
  - by rewrite !install_failed_run.
Qed.

Lemma install_all_cleanup mod_files count s :
  install_all rmtree1 path_name get_archive_type is_format_supported
    extract_mod_folder storage_child mod_files count s
  = install_all rmtree2 path_name get_archive_type is_format_supported
      extract_mod_folder storage_child mod_files count s.
Proof.
  revert count s. induction mod_files as [|file_path mod_files IH]; intros count s;
    [done|].
  cbn [install_all]. unfold mbind, M_bind. rewrite install_one_cleanup.
  destruct (install_one rmtree2 _ _ _ _ _ file_path count s); [apply IH|done].
Qed.

(** X29.  The cleanup in the [except] block of the loop of
    [install_mod_folder] never runs: whenever the block is entered,
    [mod_name] is [None] or empty.  So what [shutil.rmtree] would do makes
    no difference to the handler, and what a failed extraction wrote to the
    storage stays there. *)
Theorem install_cleanup_never_runs folder_path s :
  install_mod_folder ModInfo_init ModTreeItem_init sortItems lower rmtree1 path_exists
    path_is_dir path_name glob sorted_paths get_archive_type is_format_supported
    extract_mod_folder storage_child folder_path s
  = install_mod_folder ModInfo_init ModTreeItem_init sortItems lower rmtree2 path_exists
      path_is_dir path_name glob sorted_paths get_archive_type is_format_supported
      extract_mod_folder storage_child folder_path s.
Proof.
  unfold install_mod_folder.
  destruct (String.eqb folder_path ""); [done|].
  unfold try_except, mbind, M_bind, mret, M_ret, gets, modify, raise,
    logger_info, logger_error, message_box, call; simpl.
  destruct (path_exists folder_path); simpl; [|done].
  destruct (path_is_dir folder_path); simpl; [|done].
  unfold glob_archives.
  unfold try_except, mbind, M_bind, mret, M_ret, gets, modify, raise,
    logger_info, logger_error, message_box, call; simpl.
  destruct (glob folder_path ".zip") as [e|zip]; simpl; [done|].
  destruct (glob folder_path ".7z") as [e|sevenz]; simpl; [done|].
  destruct (glob folder_path ".rar") as [e|rar]; simpl; [done|].
  destruct (glob folder_path ".r00") as [e|r00]; simpl; [done|].
  destruct (zip ++ sevenz ++ rar ++ r00)%list as [|file_path mod_files]; [done|].
  by rewrite install_all_cleanup.
Qed.

End cleanup.

(** * The theorems on the example data *)


Lemma ascending_perm a b : ascending a b ≡ₚ elements (a ∩ b).
Proof. unfold ascending. apply merge_sort_Permutation. Qed.

Lemma example_ModInfo_folder_name d mod_info :
  example_ModInfo_init d = inr mod_info → folder_name mod_info = d.
Proof.
  unfold example_ModInfo_init.
  destruct (String.eqb_spec d "mod_a") as [->|_]; [by intros [= <-]|].
  destruct (String.eqb_spec d "mod_b") as [->|_]; [by intros [= <-]|done].
Qed.

Ltac by_compute :=
  unfold is_dict, keys, files_of; compute_done.

(** A set of files is not empty: it has the element [x]. *)
Ltac nonempty_by x :=
  let Hempty := fresh in
  intros Hempty; apply (not_elem_of_empty (C := gset string) x);
  rewrite <- Hempty; by_compute.

Ltac in_list := apply list_elem_of_In; simpl; tauto.

Ltac entry_cases H :=
  apply dict_get_Some_elem, list_elem_of_In in H; simpl in H;
  repeat destruct H as [H|H]; try done; injection H as <- <-.

Lemma scenario_unique_display_names :
  unique_display_names (registry_of [mod_a; mod_b]).
Proof.
  intros name1 name2 mod1 mod2 H1 H2 _ _ Hdisplay.
  entry_cases H1; entry_cases H2; done.
Qed.

Lemma ui_unique_display_names :
  unique_display_names (registry_of [ui_a; ui_b]).
Proof.
  intros name1 name2 mod1 mod2 H1 H2 _ _ Hdisplay.
  entry_cases H1; entry_cases H2; done.
Qed.

(** The two mods of the scenario share shared.xml and each records the
    other. *)
Lemma conflict_entries_iff_overlap_witness :
  let A := set_conflicts {["Mod B" := "shared.xml"]} mod_a in
  let B := set_conflicts {["Mod A" := "shared.xml"]} mod_b in
  (files_of A ∩ files_of B ≠ ∅ →
   is_Some (conflicts A !! display_of B) ∧ is_Some (conflicts B !! display_of A)) ∧
  (files_of A ∩ files_of B ≠ ∅ ↔
   is_Some (conflicts A !! display_of B) ∧ is_Some (conflicts B !! display_of A)).
Proof.
  destruct (conflict_entries_iff_overlap ascending ascending_perm
              (window [mod_a; mod_b]) "mod_a" "mod_b"
              (set_conflicts {["Mod B" := "shared.xml"]} mod_a)
              (set_conflicts {["Mod A" := "shared.xml"]} mod_b))
    as [Hforward Hiff].
  - by vm_compute.
  - by vm_compute.
  - done.
  - done.
  - done.
  - split; [exact Hforward|]. apply Hiff.
    + by_compute.
    + apply scenario_unique_display_names.
Defined.

(** The same display name on three folders: tweaks_a and tweaks_b share no
    file, yet each has an entry under the other's display name, left there
    by tweaks_c. *)
Lemma conflict_entries_shared_display_name :
  let ms := update_conflicts ascending (registry_of [tweaks_a; tweaks_b; tweaks_c]) in
  ∃ A B,
    dict_get "tweaks_a" ms = Some A ∧ dict_get "tweaks_b" ms = Some B ∧
    enabled A = true ∧ enabled B = true ∧
    files_of A ∩ files_of B = ∅ ∧
    conflicts A !! display_of B = Some "a.xml" ∧
    conflicts B !! display_of A = Some "b.xml" ∧
    ¬ (files_of A ∩ files_of B ≠ ∅ ↔
       is_Some (conflicts A !! display_of B) ∧ is_Some (conflicts B !! display_of A)).
Proof.
  eexists _, _. split_and!; [by vm_compute..|].
  intros [_ Hback]. apply Hback; [|by vm_compute].
  split; eexists; by vm_compute.
Qed.

Lemma representative_is_last_iterated_witness :
  let A := set_conflicts {["UI B" := "b.xml"]} ui_a in
  let B := set_conflicts {["UI A" := "b.xml"]} ui_b in
  ∃ fileA fileB,
    conflicts A !! display_of B = Some fileA ∧
    last (ascending (files_of A) (files_of B)) = Some fileA ∧
    conflicts B !! display_of A = Some fileB ∧
    last (ascending (files_of B) (files_of A)) = Some fileB ∧
    fileA ∈ files_of A ∩ files_of B ∧ fileB ∈ files_of A ∩ files_of B.
Proof.
  apply (representative_is_last_iterated ascending ascending_perm
           (window [ui_a; ui_b]) "ui_a" "ui_b").
  - by_compute.
  - apply ui_unique_display_names.
  - by vm_compute.
  - by vm_compute.
  - done.
  - done.
  - done.
  - by nonempty_by "a.xml".
Defined.

(** Iterating in ascending order is a possible order, and then the file
    recorded for two mods that share a.xml and b.xml is b.xml, not the
    lexicographically smallest one. *)
Lemma representative_not_smallest :
  (∀ a b, ascending a b ≡ₚ elements (a ∩ b)) ∧
  let ms := update_conflicts ascending (registry_of [ui_a; ui_b]) in
  ∃ A B file,
    dict_get "ui_a" ms = Some A ∧ dict_get "ui_b" ms = Some B ∧
    enabled A = true ∧ enabled B = true ∧
    files_of A ∩ files_of B ≠ ∅ ∧
    conflicts A !! display_of B = Some file ∧
    ¬ lex_smallest file (files_of A ∩ files_of B).
Proof.
  split; [apply ascending_perm|].
  eexists _, _, _. split_and!; [by vm_compute..| | |].
  - by nonempty_by "a.xml".
  - by vm_compute.
  - intros [_ Hleast]. specialize (Hleast "a.xml").
    assert (¬ str_le "b.xml" "a.xml") as Hnot by (by vm_compute).
    apply Hnot, Hleast. by_compute.
Qed.

(** The scenario of the specification: unchecking mod_a empties the
    conflicts of both mods. *)
Lemma disabled_mods_lose_conflicts_witness :
  let s' := final_state
              (_on_mod_toggle ascending (Some (mkTreeItem Unchecked (Some "mod_a"))) 0
                 (window [mod_a; mod_b])) in
  ∃ A' B',
    dict_get "mod_a" (mods s') = Some A' ∧ dict_get "mod_b" (mods s') = Some B' ∧
    conflicts A' = ∅ ∧ conflicts B' = ∅.
Proof.
  destruct (disabled_mods_lose_conflicts ascending) as (_ & _ & _ & _ & _ & Htwo).
  apply (Htwo (window [mod_a; mod_b]) "mod_a" "mod_b" mod_a mod_b
              (mkTreeItem Unchecked (Some "mod_a")) "mod_a").
  - by_compute.
  - done.
  - done.
  - done.
  - done.
  - done.
  - by nonempty_by "shared.xml".
  - intros other_name other_mod Hget _. entry_cases Hget; auto.
  - by left.
  - done.
  - done.
  - done.
Defined.

(** A rescan of a storage with the directories mod_b, Broken and mod_a and
    a file: Broken has no manifest, it is left out and the error is logged;
    mod_a is registered with its record. *)
Lemma failed_parse_excludes_only_that_mod_witness :
  let s := with_storage example_storage (window []) in
  (∃ s',
     refresh_mod_list example_ModInfo_init example_ModTreeItem_init unsorted lower_ascii s
     = Return tt s' ∧
     dict_get "Broken" (mods s') = None ∧
     (ERROR, "Error loading mod Broken: manifest not found") ∈ logger s') ∧
  (∃ s',
     refresh_mod_list example_ModInfo_init example_ModTreeItem_init unsorted lower_ascii s
     = Return tt s' ∧
     dict_get "mod_a" (mods s') = Some mod_a).
Proof.
  split.
  - apply (failed_parse_excludes_only_that_mod
             example_ModInfo_init example_ModTreeItem_init unsorted lower_ascii
             example_ModInfo_folder_name
             (with_storage example_storage (window [])) example_storage
             (mkDirEntry "Broken" true)); [done|in_list|done].
  - apply (failed_parse_excludes_only_that_mod
             example_ModInfo_init example_ModTreeItem_init unsorted lower_ascii
             example_ModInfo_folder_name
             (with_storage example_storage (window [])) example_storage
             (mkDirEntry "mod_a" true)); [done|in_list|done].
Defined.

Lemma window_keyed ms : keyed_by_folder_name (registry_of ms).
Proof.
  intros mod_name mod_ (m & [= -> ->] & _)%list_elem_of_fmap. done.
Qed.

(** The scenario of the specification: of the mods in storage, mod_a, mod_b
    and mod_d are enabled; the deploy replaces what the game directory held
    by those three folders. *)
Lemma deploy_postcondition_witness :
  game_mods_path
    (final_state (deploy_mods never_fails never_fails always_copies Yes deploy_state))
  = Listing [("mod_a", DeployedCopy "ModStorage/mod_a");
             ("mod_b", DeployedCopy "ModStorage/mod_b");
             ("mod_d", DeployedCopy "ModStorage/mod_d")].
Proof.
  apply (deploy_postcondition never_fails never_fails always_copies Yes deploy_state).
  - apply (window_keyed [mod_a; mod_b; mod_c; mod_d]).
  - by vm_compute.
  - eexists. by vm_compute.
Defined.

(** The copy of mod_b, the second enabled mod, fails after its destination
    was created. *)
Lemma deploy_copy_failure_witness :
  ∃ s',
    deploy_mods never_fails never_fails fails_on_mod_b Yes deploy_state = Return tt s' ∧
    game_mods_path s'
    = Listing [("mod_a", DeployedCopy "ModStorage/mod_a");
               ("mod_b", PartialCopy "ModStorage/mod_b")] ∧
    last (logger s') = Some (ERROR, "Failed to deploy mods: Permission denied") ∧
    last (message_boxes s')
    = Some (Critical "Deploy Error" "Failed to deploy mods: Permission denied") ∧
    mods s' = mods deploy_state.
Proof.
  apply (deploy_copy_failure never_fails never_fails fails_on_mod_b deploy_state
           old_game_mods [("mod_a", mod_a)] "mod_b" mod_b [("mod_d", mod_d)]
           (Exception "Permission denied") true).
  - by_compute.
  - done.
  - by repeat constructor.
  - by vm_compute.
  - by repeat constructor.
  - done.
Defined.

(** After that failure the game directory holds a folder mod_b although mod_b
    was not copied: it does not hold exactly the mods copied before the
    failure. *)
Lemma deploy_leaves_partial_copy :
  let s' := final_state
              (deploy_mods never_fails never_fails fails_on_mod_b Yes deploy_state) in
  enabled_mods_of (mods deploy_state)
  = [("mod_a", mod_a); ("mod_b", mod_b); ("mod_d", mod_d)] ∧
  fails_on_mod_b (path mod_a) = Copied ∧
  fails_on_mod_b (path mod_b) = CopyFailed (Exception "Permission denied") true ∧
  game_mods_path s'
  = Listing [("mod_a", DeployedCopy "ModStorage/mod_a");
             ("mod_b", PartialCopy "ModStorage/mod_b")] ∧
  game_mods_path s' ≠ Listing (deployed_entry <$> [("mod_a", mod_a)]).
Proof. split_and!; by vm_compute. Qed.

Lemma toggle_unknown_folder_is_silent_witness :
  _on_mod_toggle ascending (Some ghost_item) 0 (window [mod_a; mod_b])
  = Return tt (window [mod_a; mod_b]).
Proof.
  apply (toggle_unknown_folder_is_silent ascending (window [mod_a; mod_b])
           ghost_item 0 "ghost"); [done|by_compute].
Defined.

(** Toggling an item whose folder name the registry does not have raises
    nothing and reports nothing. *)
Lemma toggle_unknown_folder_does_not_fail :
  let s := window [mod_a; mod_b] in
  ("ghost" ∉ keys (mods s)) ∧
  (∀ e s', _on_mod_toggle ascending (Some ghost_item) 0 s ≠ Raise e s') ∧
  logger (final_state (_on_mod_toggle ascending (Some ghost_item) 0 s)) = [] ∧
  message_boxes (final_state (_on_mod_toggle ascending (Some ghost_item) 0 s)) = [].
Proof. split_and!; [by_compute|by vm_compute..]. Qed.


Lemma later_state_shown : tree_shows_registry later_state.
Proof.
  intros folder Hin. apply list_elem_of_In in Hin. simpl in Hin.
  unfold stored_names. apply list_elem_of_In. simpl.
  destruct Hin as [<-|[<-|[]]]; auto.
Qed.



Lemma save_profile_empty_registry_witness :
  (∀ name ok,
     profiles_path (final_state (save_profile never_fails name ok (window [])))
     = profiles_path (window [])) ∧
  (∀ name, name ≠ "" →
     save_profile never_fails name true (window [])
     = Return tt
         (add_box (Warning "Warning" "No mods available to save in profile.")
            (add_log WARNING "No mods to save in profile"
               (add_log INFO ("Saving profile: " ++ name) (window []))))).
Proof. apply (save_profile_empty_registry never_fails (window [])). done. Defined.

(** A rescan of the example storage, twice. *)
Example refresh_mod_list_twice :
  let rescan := refresh_mod_list example_ModInfo_init example_ModTreeItem_init unsorted lower_ascii in
  let s1 := final_state (rescan (with_storage example_storage (window [mod_d]))) in
  keys (mods s1) = ["mod_a"; "mod_b"] ∧
  mods (final_state (rescan s1)) = mods s1.
Proof. split; by vm_compute. Qed.

(** ** The further properties on the example data *)

Lemma window_shown ms : tree_shows_registry (window ms).
Proof.
  intros folder (entry & -> & Hentry)%list_elem_of_fmap.
  unfold stored_names. apply list_elem_of_fmap. exists (item_of entry).
  split; [done|]. apply list_elem_of_fmap. by exists entry.
Qed.

Lemma unsorted_perm items : unsorted items ≡ₚ items.
Proof. done. Qed.

(** An entry left in mod_a by an earlier recompute does not show after the
    next one. *)
Lemma recompute_ignores_old_conflicts_witness :
  mods (final_state (_update_conflicts ascending (window [stale_a; mod_b])))
  = mods (final_state (_update_conflicts ascending (window [mod_a; mod_b]))).
Proof. apply (recompute_ignores_old_conflicts ascending). by vm_compute. Defined.

(** The entry "Mod B" of mod_a comes from mod_b. *)
Lemma recorded_conflict_is_real_witness :
  let s' := final_state (_update_conflicts ascending (window [mod_a; mod_b])) in
  let A := set_conflicts {["Mod B" := "shared.xml"]} mod_a in
  enabled A = true ∧
  ∃ b B, b ≠ "mod_a" ∧ (b, B) ∈ mods s' ∧ enabled B = true ∧
         display_of B = "Mod B" ∧ "shared.xml" ∈ files_of A ∩ files_of B.
Proof.
  apply (recorded_conflict_is_real ascending ascending_perm
           (window [mod_a; mod_b]) "mod_a"
           (set_conflicts {["Mod B" := "shared.xml"]} mod_a) "Mod B" "shared.xml").
  - by vm_compute.
  - by vm_compute.
Defined.

(** Unchecking mod_a disables mod_a and leaves mod_b enabled. *)
Lemma toggle_sets_one_flag_witness :
  let item := mkTreeItem Unchecked (Some "mod_a") in
  let s := window [mod_a; mod_b] in
  let s' := final_state (_on_mod_toggle ascending (Some item) 0 s) in
  keys (mods s') = keys (mods s) ∧ mod_tree s' = mod_tree s ∧
  (∃ mod', dict_get "mod_a" (mods s') = Some mod' ∧
           enabled mod' = false ∧ metadata mod' = metadata mod_a) ∧
  ∀ other other_mod,
    other ≠ "mod_a" → dict_get other (mods s) = Some other_mod →
    ∃ other', dict_get other (mods s') = Some other' ∧
              enabled other' = enabled other_mod ∧
              metadata other' = metadata other_mod.
Proof.
  apply (toggle_sets_one_flag ascending (window [mod_a; mod_b])
           (mkTreeItem Unchecked (Some "mod_a")) "mod_a" mod_a); done.
Defined.

(** The later registry, where mod_a and mod_d are disabled. *)
Lemma enable_all_enables_every_mod_witness :
  let s' := final_state (enable_all_mods ascending later_state) in
  keys (mods s') = keys (mods later_state) ∧
  ∀ folder mod_,
    dict_get folder (mods later_state) = Some mod_ →
    ∃ mod', dict_get folder (mods s') = Some mod' ∧
            enabled mod' = true ∧ metadata mod' = metadata mod_.
Proof.
  apply (enable_all_enables_every_mod ascending later_state), later_state_shown.
Defined.

(** mod_a and mod_b, enabled and in conflict. *)
Lemma disable_all_disables_every_mod_witness :
  let s := window [mod_a; mod_b] in
  let s' := final_state (disable_all_mods ascending s) in
  keys (mods s') = keys (mods s) ∧
  ∀ folder mod_,
    dict_get folder (mods s) = Some mod_ →
    ∃ mod', dict_get folder (mods s') = Some mod' ∧
            enabled mod' = false ∧ conflicts mod' = ∅ ∧
            metadata mod' = metadata mod_.
Proof.
  apply (disable_all_disables_every_mod ascending (window [mod_a; mod_b])),
    window_shown.
Defined.

(** mod_b is disabled, and the dialog for mod_a still reports it. *)
Lemma check_conflicts_dialog_witness :
  let s := window [mod_a; set_enabled false mod_b] in
  ∃ text,
    message_boxes (final_state (_check_conflicts "mod_a" s))
    = [conflicts_box mod_a text].
Proof.
  destruct (check_conflicts_dialog (window [mod_a; set_enabled false mod_b])
              "mod_a" mod_a) as (_ & _ & Hfound & _).
  - done.
  - by nonempty_by "a.xml".
  - apply (Hfound "mod_b" (set_enabled false mod_b)).
    + in_list.
    + done.
    + by nonempty_by "shared.xml".
Defined.

(** The dialog for mod_a is the same whether mod_b is enabled or not. *)
Lemma check_conflicts_ignores_enabled_witness :
  let s1' := final_state (_check_conflicts "mod_a" (window [mod_a; mod_b])) in
  let s2' := final_state
               (_check_conflicts "mod_a" (window [mod_a; set_enabled false mod_b])) in
  message_boxes s1' = message_boxes s2' ∧ logger s1' = logger s2'.
Proof.
  apply (check_conflicts_ignores_enabled
           (window [mod_a; mod_b]) (window [mod_a; set_enabled false mod_b]) "mod_a");
    done.
Defined.

(** mod_a holds the entry "Mod B" after the recompute, and its dialog is the
    warning. *)
Lemma recorded_conflict_is_reported_witness :
  let s' := final_state (_update_conflicts ascending (window [mod_a; mod_b])) in
  let A := set_conflicts {["Mod B" := "shared.xml"]} mod_a in
  ∃ text,
    message_boxes (final_state (_check_conflicts "mod_a" s'))
    = (message_boxes s' ++ [conflicts_box A text])%list.
Proof.
  apply (recorded_conflict_is_reported ascending ascending_perm
           (window [mod_a; mod_b]) "mod_a"
           (set_conflicts {["Mod B" := "shared.xml"]} mod_a)).
  - by vm_compute.
  - simpl. apply map_non_empty_singleton.
Defined.

(** notes.txt cannot be removed: old_mod is gone, notes.txt and third_mod
    stay, and no mod is copied. *)
Lemma deploy_clear_failure_witness :
  let s' := final_state
              (deploy_mods never_fails unlink_denied always_copies Yes crowded_state) in
  game_mods_path s' = Listing [("notes.txt", RegularFile); ("third_mod", Directory)] ∧
  last (logger s') = Some (ERROR, "Failed to deploy mods: Permission denied") ∧
  last (message_boxes s')
  = Some (Critical "Deploy Error" "Failed to deploy mods: Permission denied").
Proof.
  apply (deploy_clear_failure never_fails unlink_denied always_copies crowded_state
           [("old_mod", Directory)] ("notes.txt", RegularFile)
           [("third_mod", Directory)] (Exception "Permission denied")).
  - done.
  - by_compute.
  - by repeat constructor.
  - done.
Defined.

(** The scenario of the deploy, every operation succeeding. *)
Lemma deploy_succeeds_witness :
  let s' := final_state
              (deploy_mods never_fails never_fails always_copies Yes deploy_state) in
  game_mods_path s'
  = Listing ((λ entry, (entry.1, DeployedCopy (path entry.2)))
             <$> enabled_mods_of (mods deploy_state)) ∧
  last (message_boxes s')
  = Some (Information "Deploy Complete"
            (deploy_success_msg (length (enabled_mods_of (mods deploy_state))))).
Proof.
  apply (deploy_succeeds never_fails never_fails always_copies deploy_state
           old_game_mods).
  - done.
  - by_compute.
  - by repeat constructor.
  - by repeat constructor.
Defined.

Lemma deploy_twice_witness :
  let deploy := deploy_mods never_fails never_fails always_copies Yes in
  let s1 := final_state (deploy deploy_state) in
  let s2 := final_state (deploy s1) in
  game_mods_path s2 = game_mods_path s1 ∧ deploy_completed s2.
Proof.
  apply (deploy_twice never_fails never_fails always_copies deploy_state
           old_game_mods).
  - done.
  - by_compute.
  - by repeat constructor.
  - by repeat constructor.
  - by repeat constructor.
Defined.

Lemma disable_all_then_deploy_empties_witness :
  let s1 := final_state (disable_all_mods ascending deploy_state) in
  let s2 := final_state
              (deploy_mods never_fails never_fails always_copies Yes s1) in
  game_mods_path s2 = Listing [] ∧
  last (message_boxes s2)
  = Some (Information "Deploy Complete"
            "Successfully deployed 0 mods to game directory").
Proof.
  apply (disable_all_then_deploy_empties ascending never_fails never_fails
           always_copies deploy_state old_game_mods).
  - by_compute.
  - apply (window_shown [mod_a; mod_b; mod_c; mod_d]).
  - done.
  - by repeat constructor.
Defined.

(** The rescan of the example storage, listed as mod_b, Broken, mod_a. *)
Lemma rescan_registry_order_witness :
  StronglySorted (lower_le lower_ascii)
    (keys (mods (final_state
                   (refresh_mod_list example_ModInfo_init example_ModTreeItem_init
                      unsorted lower_ascii (with_storage example_storage (window [mod_d])))))).
Proof.
  apply (rescan_registry_order example_ModInfo_init example_ModTreeItem_init unsorted lower_ascii
           example_ModInfo_folder_name).
Defined.

Lemma rescan_registry_is_storage_witness :
  ∃ entries,
    storage_path (with_storage example_storage (window [mod_d])) = Listing entries ∧
    mkDirEntry "mod_a" true ∈ entries ∧
    example_ModInfo_init "mod_a" = inr mod_a.
Proof.
  apply (rescan_registry_is_storage example_ModInfo_init example_ModTreeItem_init
           unsorted lower_ascii example_ModInfo_folder_name
           (with_storage example_storage (window [mod_d])) "mod_a" mod_a).
  by vm_compute.
Defined.

(** A storage that holds one file and no directory. *)
Lemma rescan_without_directories_witness :
  ∃ s',
    refresh_mod_list example_ModInfo_init example_ModTreeItem_init unsorted lower_ascii
      (with_storage [mkDirEntry "readme.txt" false] (window [mod_a; mod_b]))
    = Return tt s' ∧
    mods s' = [] ∧ mod_tree s' = [].
Proof.
  apply (rescan_without_directories example_ModInfo_init example_ModTreeItem_init
           unsorted lower_ascii
           (with_storage [mkDirEntry "readme.txt" false] (window [mod_a; mod_b]))).
  intros entries [= <-]. by repeat constructor.
Defined.

Lemma rescan_tree_items_are_mods_witness :
  let s' := final_state
              (refresh_mod_list example_ModInfo_init example_ModTreeItem_init unsorted lower_ascii
                 (with_storage example_storage (window [mod_d]))) in
  ∃ folder mod_ tree_item,
    Some "mod_a" = Some folder ∧
    dict_get folder (mods s') = Some mod_ ∧
    example_ModTreeItem_init mod_ = inr tree_item ∧
    Checked = checkState tree_item.
Proof.
  apply (rescan_tree_items_are_mods example_ModInfo_init example_ModTreeItem_init
           unsorted lower_ascii unsorted_perm example_ModInfo_folder_name
           (with_storage example_storage (window [mod_d]))
           (mkTreeItem Checked (Some "mod_a"))).
  apply list_elem_of_In. vm_compute. tauto.
Defined.

(** [ModTreeItem] raises for mod_b: mod_b is in the registry and not in the
    tree. *)
Lemma rescan_item_failure_witness :
  let s' := final_state
              (refresh_mod_list example_ModInfo_init no_item_for_mod_b unsorted lower_ascii
                 (with_storage example_storage (window []))) in
  dict_get "mod_b" (mods s') = Some mod_b ∧
  (Some "mod_b" ∉ stored_names s') ∧
  (ERROR, "Error loading mod mod_b: no item") ∈ logger s'.
Proof.
  apply (rescan_item_failure example_ModInfo_init no_item_for_mod_b unsorted lower_ascii
           unsorted_perm example_ModInfo_folder_name
           (with_storage example_storage (window [])) example_storage
           "mod_b" mod_b (Exception "no item")).
  - done.
  - in_list.
  - done.
  - done.
Defined.

(** There is no profile "missing". *)
Lemma load_profile_failure_keeps_state_witness :
  ∃ s',
    load_profile ascending "missing" true later_state = Return tt s' ∧
    mods s' = mods later_state ∧ mod_tree s' = mod_tree later_state.
Proof.
  apply (load_profile_failure_keeps_state ascending "missing" true later_state).
  right. right. left. by vm_compute.
Defined.

Lemma load_profile_twice_witness :
  let s1 := final_state (load_profile ascending "default" true later_state) in
  let s2 := final_state (load_profile ascending "default" true s1) in
  mods s2 = mods s1.
Proof.
  apply (load_profile_twice ascending "default"
           {["mod_a" := true; "mod_b" := true]} later_state).
  - apply later_state_shown.
  - done.
  - by vm_compute.
Defined.

(** mod_b is uninstalled from the example storage. *)
Lemma uninstall_rescans_witness :
  let s := with_storage example_storage (window [mod_a; mod_b]) in
  let sp' := Listing [mkDirEntry "Broken" true; mkDirEntry "readme.txt" false;
                      mkDirEntry "mod_a" true] in
  let s' := final_state
              (_uninstall_mod example_ModInfo_init example_ModTreeItem_init unsorted lower_ascii
                 removes_directory "mod_b" Yes s) in
  storage_path s' = sp' ∧
  mods s' = foldl (parsed example_ModInfo_init) [] (mod_dirs_of lower_ascii sp') ∧
  ((∀ entries, sp' = Listing entries → mkDirEntry "mod_b" true ∉ entries) →
   dict_get "mod_b" (mods s') = None) ∧
  game_mods_path s' = game_mods_path s ∧
  profiles_path s' = profiles_path s.
Proof.
  apply (uninstall_rescans example_ModInfo_init example_ModTreeItem_init unsorted lower_ascii
           example_ModInfo_folder_name removes_directory
           (with_storage example_storage (window [mod_a; mod_b])) "mod_b" mod_b).
  - done.
  - by vm_compute.
Defined.

(** The removal of mod_b is refused. *)
Lemma uninstall_failure_keeps_registry_witness :
  let s := with_storage example_storage (window [mod_a; mod_b]) in
  ∃ s',
    _uninstall_mod example_ModInfo_init example_ModTreeItem_init unsorted lower_ascii
      removal_denied "mod_b" Yes s
    = Return tt s' ∧
    mods s' = mods s ∧ mod_tree s' = mod_tree s ∧
    last (message_boxes s')
    = Some (Critical "Error" "Failed to uninstall mod: Permission denied").
Proof.
  destruct (uninstall_failure_keeps_registry example_ModInfo_init
              example_ModTreeItem_init unsorted lower_ascii removal_denied
              (with_storage example_storage (window [mod_a; mod_b])) "mod_b" Yes)
    as (s' & Hrun & Hmods & Htree & _ & _ & Hbox).
  - right. right. by exists mod_b, (Exception "Permission denied").
  - exists s'. split_and!; try done.
    by apply (Hbox mod_b (Exception "Permission denied")).
Defined.

(** Two clicks on column 1 while the tree is sorted by column 0. *)
Lemma handle_sort_twice_witness :
  ∃ sort1 s1 sort2 s2,
    _handle_sort example_sortItems_by 1 (mkSortState 0 AscendingOrder)
      (window [mod_a; mod_b]) = Return sort1 s1 ∧
    _handle_sort example_sortItems_by 1 sort1 s1 = Return sort2 s2 ∧
    sort1 = mkSortState 1 AscendingOrder ∧
    sort2 = mkSortState 1 DescendingOrder ∧
    mods s2 = mods (window [mod_a; mod_b]).
Proof.
  destruct (handle_sort_twice example_sortItems_by 1 (mkSortState 0 AscendingOrder)
              (window [mod_a; mod_b]))
    as (sort1 & s1 & sort2 & s2 & Hrun1 & Hrun2 & _ & _ & _ & _ & _ & Hmods & _).
  - done.
  - exists sort1, s1, sort2, s2. split_and!; try done.
    + by injection Hrun1 as <- _.
    + injection Hrun1 as <- <-. by injection Hrun2 as <- _.
Defined.

(** The profile "default" loaded onto the later registry: the item of mod_a
    is checked again. *)
Lemma load_profile_boxes_agree_witness :
  let s' := final_state (load_profile ascending "default" true later_state) in
  stored_names s' = stored_names later_state ∧
  ∀ (item : TreeItem) (folder : string) (b : bool),
    item ∈ mod_tree s' → data item = Some folder →
    ({["mod_a" := true; "mod_b" := true]} : gmap string bool) !! folder = Some b →
    checkState item = (if b then Checked else Unchecked) ∧
    ∀ mod_, dict_get folder (mods s') = Some mod_ → enabled mod_ = b.
Proof.
  apply (load_profile_boxes_agree ascending "default"
           {["mod_a" := true; "mod_b" := true]} later_state).
  - apply later_state_shown.
  - done.
  - by vm_compute.
Defined.

(** The later registry, where mod_a and mod_d are disabled and have their
    items: enabling all checks both boxes. *)
Lemma set_all_boxes_agree_witness :
  let s' := final_state (enable_all_mods ascending later_state) in
  stored_names s' = stored_names later_state ∧
  ∀ item folder mod_,
    item ∈ mod_tree s' → data item = Some folder →
    dict_get folder (mods s') = Some mod_ →
    checkState item = Checked ∧ enabled mod_ = true.
Proof.
  apply (set_all_boxes_agree ascending true later_state), later_state_shown.
Defined.


(** The folder with a.zip and the damaged b.zip, installed into an empty
    storage: one success and one failure are reported, and the folder the
    failed extraction left is still in the storage, where the rescan finds
    it. *)
Example install_mod_folder_batch :
  let s' := final_state
              (install_mod_folder example_ModInfo_init example_ModTreeItem_init
                 unsorted lower_ascii removal_denied (λ _, true) (λ _, true) example_path_name
                 example_glob (@merge_sort string str_le str_le_dec)
                 (λ _, inr (Some "zip")) (λ _, inr true) example_extract
                 (λ child, "ModStorage/" ++ child) "mods" (window [])) in
  storage_path s' = Listing [mkDirEntry "mod_a" true; mkDirEntry "mod_b" true] ∧
  keys (mods s') = ["mod_a"; "mod_b"] ∧
  message_boxes s'
  = [Information "Installation Complete"
       ("Successfully installed 1 mod" ++ nl ++ nl ++ "Failed installations:"
        ++ nl ++ "- b.zip: Bad archive")].
Proof. split_and!; by vm_compute. Qed.
